(** * Net-Tolerance: robustness of random and scale-free networks

    A shallow embedding of the removal / hub-selection / component /
    diameter engine of the repository (src/source/components.py,
    src/source/cluster_dist.py, src/source/diameter.py,
    src/modules/random.py, src/modules/scale_free.py).

    Conventions.
    - Node ids are Python ints: [Z].
    - A graph is the insertion-ordered adjacency dict of the graph
      library: an association list from node id to the list of its
      neighbours, keys in creation order.
    - A Python float holding a removal fraction is read as the exact
      rational it denotes ([Q]); the product [fraction * n] is exact, the
      rounding of binary64 multiplication is not modelled.
    - Randomness is explicit: every randomised operation takes the draws
      of the generator as an argument. *)

From Stdlib Require Import List ZArith QArith Qround Lia Bool Arith.
From Stdlib Require Import Permutation Sorted Relations.
Import ListNotations.

Local Open Scope Z_scope.

(** ** Python values used by the scripts *)

Module Py.

(** [l[:k]] for a Python int [k]: a negative [k] counts from the end. *)
Definition slice_to {A} (l : list A) (k : Z) : list A :=
  if k <? 0 then firstn (length l - Z.to_nat (- k)) l
  else firstn (Z.to_nat k) l.

(** [int(x)] on a float: truncation towards zero. *)
Definition int (x : Q) : Z :=
  if Qle_bool 0 x then Qfloor x else Qceiling x.

(** Stable insertion into a list sorted by [key] descending: the new
    element goes before the first element whose key is not larger. *)
Fixpoint insert_desc {A} (key : A -> Z) (x : A) (l : list A) : list A :=
  match l with
  | [] => [x]
  | y :: ys => if key x <? key y then y :: insert_desc key x ys
               else x :: y :: ys
  end.

(** [sorted(l, key=key, reverse=True)]: the sort is stable, and
    [reverse=True] keeps the original order of elements with equal keys. *)
Definition sorted_rev {A} (key : A -> Z) (l : list A) : list A :=
  fold_right (insert_desc key) [] l.

(** [{k: v for k, v in items}] followed by [list(d.keys())]: a later
    item with a key already present overwrites the value and keeps the
    position of the first. *)
Fixpoint dict_keys {V} (seen : list Z) (items : list (Z * V)) : list Z :=
  match items with
  | [] => []
  | (k, _) :: rest =>
      if existsb (Z.eqb k) seen then dict_keys seen rest
      else k :: dict_keys (k :: seen) rest
  end.

End Py.

(** ** The graph object *)

Definition node := Z.

(** The adjacency dict of a graph, keys in insertion order. *)
Definition Graph := list (node * list node).

Definition nodes (G : Graph) : list node := map fst G.

Definition number_of_nodes (G : Graph) : Z := Z.of_nat (length G).

Definition mem (v : node) (l : list node) : bool := existsb (Z.eqb v) l.
Arguments mem : simpl never.

Fixpoint adj (G : Graph) (v : node) : list node :=
  match G with
  | [] => []
  | (u, nb) :: G' => if Z.eqb u v then nb else adj G' v
  end.

(** Degree of one adjacency entry; a self-loop counts twice. *)
Definition degree_of (e : node * list node) : Z :=
  Z.of_nat (length (snd e)) + (if mem (fst e) (snd e) then 1 else 0).

(** [G.degree()]: the (node, degree) pairs in node order. *)
Definition degree_view (G : Graph) : list (node * Z) :=
  map (fun e => (fst e, degree_of e)) G.

Definition degree (G : Graph) (v : node) : Z :=
  Z.of_nat (length (adj G v)) + (if mem v (adj G v) then 1 else 0).

(** Modelled from the spec: [remove_nodes] of the graph library, which is
    not under src/ ("deletes each node and all incident edges, no-op for
    ids already absent"). *)
Definition remove_node (G : Graph) (v : node) : Graph :=
  map (fun e => (fst e, filter (fun w => negb (Z.eqb w v)) (snd e)))
      (filter (fun e => negb (Z.eqb (fst e) v)) G).

Definition remove_nodes_from (G : Graph) (vs : list node) : Graph :=
  fold_left remove_node vs G.

(** Position of a node in the creation order of the graph. *)
Fixpoint creation_index (l : list node) (v : node) : nat :=
  match l with
  | [] => 0
  | u :: l' => if Z.eqb u v then 0%nat else S (creation_index l' v)
  end.

(** Well-formed graph: keys are distinct, every neighbour is a node,
    adjacency is symmetric and neighbour lists have no repetition. *)
Record wf (G : Graph) : Prop := {
  wf_keys : NoDup (nodes G);
  wf_closed : forall u v, In v (adj G u) -> In v (nodes G);
  wf_sym : forall u v, In v (adj G u) -> In u (adj G v);
  wf_simple : forall u, NoDup (adj G u)
}.

(** ** Hub selection: the five textual copies of [get_hubs] *)

Module Components.

Definition get_hubs (G : Graph) (top_k : Z) : list node :=
  let degree := degree_view G in
  let sorted_degree := Py.sorted_rev snd degree in
  let top_k_nodes := Py.slice_to (Py.dict_keys [] sorted_degree) top_k in
  top_k_nodes.

End Components.

Module ClusterDist.

Definition get_hubs (G : Graph) (top_k : Z) : list node :=
  let degree := degree_view G in
  let sorted_degree := Py.sorted_rev snd degree in
  let top_k_nodes := Py.slice_to (Py.dict_keys [] sorted_degree) top_k in
  top_k_nodes.

End ClusterDist.

Module Diameter.

Definition get_hubs (G : Graph) (top_k : Z) : list node :=
  let degree := degree_view G in
  let sorted_degree := Py.sorted_rev snd degree in
  let top_k_nodes := Py.slice_to (Py.dict_keys [] sorted_degree) top_k in
  top_k_nodes.

End Diameter.

Module RandomNetwork.

Record t := { n : Z; p : Q; G : Graph }.

Definition get_hubs (self : t) (top_k : Z) : list node :=
  let degree := degree_view (G self) in
  let sorted_degree := Py.sorted_rev snd degree in
  let top_k_nodes := Py.slice_to (Py.dict_keys [] sorted_degree) top_k in
  top_k_nodes.

End RandomNetwork.

Module ScaleFreeNetwork.

Record t := { n : Z; avg_degree : Q; m : Z; G : Graph }.

Definition get_hubs (self : t) (top_k : Z) : list node :=
  let degree := degree_view (G self) in
  let sorted_degree := Py.sorted_rev snd degree in
  let top_k_nodes := Py.slice_to (Py.dict_keys [] sorted_degree) top_k in
  top_k_nodes.

End ScaleFreeNetwork.

(** ** Exceptions and the random generator *)

Inductive exn : Set := InvalidParameter | InvalidEdge | ZeroDivisionError.

Inductive result (A : Type) : Type :=
| Return (a : A)
| Raise (e : exn).
Arguments Return {A} a.
Arguments Raise {A} e.

Definition bind {A B} (r : result A) (f : A -> result B) : result B :=
  match r with
  | Return a => f a
  | Raise e => Raise e
  end.

Notation "x <- c1 ;; c2" := (bind c1 (fun x => c2))
  (at level 61, c1 at next level, right associativity).

(** The state of the process-wide generator: the draws it is going to
    deliver, in order; past the end every draw is 0. *)
Definition Rng := list Z.

Definition next (s : Rng) : Z * Rng := (hd 0 s, tl s).

(** Index in [0, len) selected by a raw draw. *)
Definition draw_index (r : Z) (len : nat) : nat :=
  Z.to_nat (r mod Z.of_nat len).

Fixpoint take_at {A} (j : nat) (l : list A) : option (A * list A) :=
  match l with
  | [] => None
  | x :: l' =>
      match j with
      | O => Some (x, l')
      | S j' => match take_at j' l' with
                | Some (y, r) => Some (y, x :: r)
                | None => None
                end
      end
  end.

(** Modelled from the spec: the in-place shuffle of the numeric library,
    which is not under src/ ("draws ... uniformly at random without
    replacement"): each position receives one of the entries not placed
    yet. *)
Fixpoint shuffle_n {A} (fuel : nat) (l : list A) (s : Rng) : list A * Rng :=
  match fuel with
  | O => (l, s)
  | S fuel' =>
      let (r, s1) := next s in
      match take_at (draw_index r (length l)) l with
      | Some (x, rest) =>
          let (tl', s2) := shuffle_n fuel' rest s1 in (x :: tl', s2)
      | None => (l, s1)
      end
  end.

Definition shuffle {A} (l : list A) (s : Rng) : list A * Rng :=
  shuffle_n (length l) l s.

(** ** Removal strategies (identical in the three scripts) *)

Module Removal.

Definition random_removal (G : Graph) (fraction : Q) (s : Rng)
  : result (Graph * Rng) :=
  let nodes0 := nodes G in
  let (nodes1, s1) := shuffle nodes0 s in
  let nodes_to_remove :=
    Py.slice_to nodes1 (Py.int (fraction * inject_Z (number_of_nodes G))) in
  let G' := remove_nodes_from G nodes_to_remove in
  Return (G', s1).

Definition targeted_removal (G : Graph) (fraction : Q) : result Graph :=
  let nodes_to_remove :=
    Components.get_hubs G
      (Py.int (fraction * inject_Z (number_of_nodes G))) in
  let G' := remove_nodes_from G nodes_to_remove in
  Return G'.

End Removal.

(** ** Connected components *)

(** One adjacency scan of breadth-first search: every neighbour not seen
    yet is marked and queued for the next level. *)
Fixpoint visit (ws seen nxt : list node) : list node * list node :=
  match ws with
  | [] => (seen, nxt)
  | w :: ws' =>
      if mem w seen then visit ws' seen nxt
      else visit ws' (seen ++ [w]) (nxt ++ [w])
  end.

Fixpoint expand (G : Graph) (level seen nxt : list node)
  : list node * list node :=
  match level with
  | [] => (seen, nxt)
  | v :: vs =>
      let (seen', nxt') := visit (adj G v) seen nxt in
      expand G vs seen' nxt'
  end.

(** The levels of the search from the current one on. *)
Fixpoint bfs_levels (fuel : nat) (G : Graph) (level seen : list node)
  : list (list node) :=
  match fuel with
  | O => []
  | S fuel' =>
      match level with
      | [] => []
      | _ :: _ =>
          let (seen', nxt) := expand G level seen [] in
          level :: bfs_levels fuel' G nxt seen'
      end
  end.

Definition bfs (G : Graph) (source : node) : list (list node) :=
  bfs_levels (length G) G [source] [source].

(** Modelled from the spec: the component routine of the graph library,
    which is not under src/ ("breadth-first traversal flood-fill from
    each unvisited node"). *)
Fixpoint components_from (G : Graph) (vs seen : list node)
  : list (list node) :=
  match vs with
  | [] => []
  | v :: vs' =>
      if mem v seen then components_from G vs' seen
      else let c := concat (bfs G v) in
           c :: components_from G vs' (c ++ seen)
  end.

Definition connected_components (G : Graph) : list (list node) :=
  components_from G (nodes G) [].

Definition number_connected_components (G : Graph) : Z :=
  Z.of_nat (length (connected_components G)).

Definition len {A} (l : list A) : Z := Z.of_nat (length l).

(** ** Component statistics *)

(** A Python float: a rational, or the not-a-number marker. *)
Inductive pyfloat : Set :=
| Fin (q : Q)
| NaN.

Definition sumZ (l : list Z) : Z := fold_right Z.add 0 l.

(** [a / b] on ints: true division, raising on a zero divisor. *)
Definition truediv (a b : Z) : result Q :=
  if b =? 0 then Raise ZeroDivisionError
  else if 0 <? b then Return (a # Z.to_pos b)
  else Return ((- a) # Z.to_pos (- b)).

(** [np.mean(l)]: the mean of an empty list is NaN (a warning is
    printed, nothing is raised). *)
Definition np_mean (l : list Z) : pyfloat :=
  match l with
  | [] => NaN
  | _ :: _ => Fin (sumZ l # Pos.of_nat (length l))
  end.

Module ClusterSizes.

(** cluster_dist.py, [get_component_sizes]. *)
Definition get_component_sizes (G : Graph) : list Z :=
  let components := connected_components G in
  let sizes := map (fun component => len component) components in
  sizes.

End ClusterSizes.

Module Robustness.

(** components.py, [get_component_sizes]. *)
Definition get_component_sizes (G : Graph) : result (Q * pyfloat) :=
  let components := connected_components G in
  let sorted_components := Py.sorted_rev (fun c => len c) components in
  largest_component <-
    (if 0 <? len sorted_components
     then truediv (len (hd [] sorted_components)) (number_of_nodes G)
     else Return (0 # 1)%Q) ;;
  let other_components :=
    map (fun component => len component) (tl sorted_components) in
  let avg_other_components := np_mean other_components in
  Return (largest_component, avg_other_components).

End Robustness.

(** ** Histograms *)

(** [Counter(l)]: size -> number of occurrences, keys in order of first
    occurrence. *)
Fixpoint counter_add (k : Z) (c : list (Z * Z)) : list (Z * Z) :=
  match c with
  | [] => [(k, 1)]
  | (k', v) :: c' => if k' =? k then (k', v + 1) :: c'
                     else (k', v) :: counter_add k c'
  end.

Definition Counter (l : list Z) : list (Z * Z) :=
  fold_left (fun c k => counter_add k c) l [].

(** Sum of the bucket counts of a histogram. *)
Definition total_count (h : list (Z * Z)) : Z := sumZ (map snd h).

(** Sum over the buckets of size times count. *)
Definition weighted_total (h : list (Z * Z)) : Z :=
  sumZ (map (fun kv => fst kv * snd kv) h).

(** ** Graph construction *)

(** [range(n)], counted up from [start]. *)
Fixpoint range_from (k : nat) (start : Z) : list Z :=
  match k with
  | O => []
  | S k' => start :: range_from k' (start + 1)
  end.

Definition range (n : Z) : list Z := range_from (Z.to_nat n) 0.

(** Modelled from the spec: [create] of the graph library, which is not
    under src/ ("graph with n isolated nodes"). *)
Definition create (n : Z) : Graph := map (fun v => (v, [])) (range n).

Definition add_nb (w : node) (l : list node) : list node :=
  if mem w l then l else l ++ [w].

(** Modelled from the spec: [add_edge] of the graph library, which is not
    under src/ ("fails with InvalidEdge if u==v or either endpoint
    absent, otherwise idempotent"). *)
Definition add_edge (G : Graph) (u v : node) : result Graph :=
  if (u =? v) || negb (mem u (nodes G)) || negb (mem v (nodes G))
  then Raise InvalidEdge
  else Return (map (fun e =>
                      if fst e =? u then (fst e, add_nb v (snd e))
                      else if fst e =? v then (fst e, add_nb u (snd e))
                      else e) G).

Definition add_node (G : Graph) (v : node) : Graph :=
  if mem v (nodes G) then G else G ++ [(v, [])].

Fixpoint add_edges_from (G : Graph) (u : node) (targets : list node)
  : result Graph :=
  match targets with
  | [] => Return G
  | t :: ts => G1 <- add_edge G u t ;; add_edges_from G1 u ts
  end.

(** [G.number_of_edges()]: half the sum of the degrees. *)
Definition number_of_edges (G : Graph) : Z :=
  sumZ (map degree_of G) / 2.

(** The unordered pairs [(v, w)], [w < v], row by row. *)
Definition all_pairs (n : Z) : list (Z * Z) :=
  flat_map (fun v => map (fun w => (v, w)) (range v)) (range n).

(** Walk over the candidate pairs; [skip] pairs are passed over before
    the next one is included, then a new gap is drawn. *)
Fixpoint gnp_pairs (pairs : list (Z * Z)) (skip : Z) (s : Rng) (G : Graph)
  : result (Graph * Rng) :=
  match pairs with
  | [] => Return (G, s)
  | (v, w) :: rest =>
      if skip <=? 0
      then G1 <- add_edge G v w ;;
           let (g, s1) := next s in gnp_pairs rest g s1 G1
      else gnp_pairs rest (skip - 1) s G
  end.

(** Modelled from the spec: the Erdos-Renyi generator of the graph
    library, which is not under src/ ("each of the n(n-1)/2 unordered
    pairs is an edge independently with probability p ... sampling the
    geometric gap to the next included pair ... p=0 -> empty edge set;
    p=1 -> complete graph"; "probability ... outside [0,1]" is an
    InvalidParameter). A draw of the generator is read as a gap. *)
Definition erdos_renyi (n : Z) (p : Q) (s : Rng) : result (Graph * Rng) :=
  if (n <? 0) || negb (Qle_bool 0 p) || negb (Qle_bool p 1)
  then Raise InvalidParameter
  else if Qle_bool p 0 then Return (create n, s)
  else if Qle_bool 1 p
       then r <- gnp_pairs (all_pairs n) 0 [] (create n) ;; Return (fst r, s)
  else let (g, s1) := next s in gnp_pairs (all_pairs n) g s1 (create n).

(** Every node once per incident edge end. *)
Definition repeated_nodes (G : Graph) : list node :=
  flat_map (fun e => repeat (fst e) (Z.to_nat (degree_of e))) G.

(** Candidates for attachment, weighted by degree; while no edge exists
    (the edgeless seed set) every node weighs the same. *)
Definition attach_pool (G : Graph) : list node :=
  match repeated_nodes G with
  | [] => nodes G
  | x :: l => x :: l
  end.

(** [k] distinct entries of [pool], each drawn with probability
    proportional to its multiplicity among the entries still eligible;
    InvalidParameter when the pool runs out. *)
Fixpoint sample (k : nat) (pool : list node) (s : Rng)
  : result (list node * Rng) :=
  match k with
  | O => Return ([], s)
  | S k' =>
      match pool with
      | [] => Raise InvalidParameter
      | _ :: _ =>
          let (r, s1) := next s in
          let x := nth (draw_index r (length pool)) pool 0 in
          rest <- sample k' (filter (fun y => negb (y =? x)) pool) s1 ;;
          Return (x :: fst rest, snd rest)
      end
  end.

(** One step of growth per new node id in [new]. *)
Fixpoint ba_grow (new : list node) (m : nat) (G : Graph) (s : Rng)
  : result (Graph * Rng) :=
  match new with
  | [] => Return (G, s)
  | i :: rest =>
      picked <- sample m (attach_pool G) s ;;
      G1 <- add_edges_from (add_node G i) i (fst picked) ;;
      ba_grow rest m G1 (snd picked)
  end.

(** Modelled from the spec: the Barabasi-Albert generator of the graph
    library, which is not under src/ ("start from an m-node seed set with
    no edges ...; for each subsequently added node i from m to n-1,
    connect it to m distinct existing nodes chosen with probability
    proportional to current degree ...; Fails with InvalidParameter if
    m < 1 or m >= n"). *)
Definition barabasi_albert (n m : Z) (s : Rng) : result (Graph * Rng) :=
  if (m <? 1) || (n <=? m) then Raise InvalidParameter
  else ba_grow (map (fun k => m + k) (range (n - m))) (Z.to_nat m)
               (create m) s.

(** The constructors of the two network classes. *)
Definition RandomNetwork_init (n : Z) (p : Q) (s : Rng)
  : result (RandomNetwork.t * Rng) :=
  r <- erdos_renyi n p s ;;
  Return (RandomNetwork.Build_t n p (fst r), snd r).

Definition ScaleFreeNetwork_init (n : Z) (avg_degree : Q) (s : Rng)
  : result (ScaleFreeNetwork.t * Rng) :=
  let m := Py.int (avg_degree / (2 # 1)) in
  r <- barabasi_albert n m s ;;
  Return (ScaleFreeNetwork.Build_t n avg_degree m (fst r), snd r).

(** [get_network] of the three scripts. *)
Definition get_network (N AVG_K : Z) (random_net : bool) (s : Rng)
  : result (Graph * Rng) :=
  if random_net then
    p <- truediv AVG_K (N - 1) ;;
    r <- RandomNetwork_init N p s ;;
    Return (RandomNetwork.G (fst r), snd r)
  else
    r <- ScaleFreeNetwork_init N (inject_Z AVG_K) s ;;
    Return (ScaleFreeNetwork.G (fst r), snd r).

(** ** The component-size experiment (cluster_dist.py) *)

Module Experiment.

(** The inner loop: [iterations] trials at one fraction, pooling the
    component sizes. *)
Fixpoint trials (iterations : nat) (N AVG_K : Z) (targeted random_net : bool)
  (fraction : Q) (temp_results : list Z) (s : Rng)
  : result (list Z * Rng) :=
  match iterations with
  | O => Return (temp_results, s)
  | S k =>
      net <- get_network N AVG_K random_net s ;;
      pruned <- (if targeted
                 then G_pruned <- Removal.targeted_removal (fst net) fraction ;;
                      Return (G_pruned, snd net)
                 else Removal.random_removal (fst net) fraction (snd net)) ;;
      trials k N AVG_K targeted random_net fraction
             (temp_results ++ ClusterSizes.get_component_sizes (fst pruned))
             (snd pruned)
  end.

(** The outer loop over the fractions. *)
Fixpoint sweep (fractions : list Q) (N AVG_K : Z) (targeted random_net : bool)
  (iterations : Z) (size : list (list (Z * Z))) (s : Rng)
  : result (list (list (Z * Z)) * Rng) :=
  match fractions with
  | [] => Return (size, s)
  | fraction :: rest =>
      r <- trials (Z.to_nat iterations) N AVG_K targeted random_net
                  fraction [] s ;;
      sweep rest N AVG_K targeted random_net iterations
            (size ++ [Counter (fst r)]) (snd r)
  end.

Definition fractions : list Q := [5 # 100; 18 # 100; 45 # 100]%Q.

Definition run_component_sizes_experiment (N AVG_K : Z)
  (targeted random_net : bool) (iterations : Z) (s : Rng)
  : result (list (list (Z * Z)) * Rng) :=
  sweep fractions N AVG_K targeted random_net iterations [] s.

End Experiment.

(** ** Diameter of the largest component (diameter.py) *)

Module Diam.

(** Modelled from the spec: [induced_subgraph] of the graph library,
    which is not under src/ ("restricted to node_set and edges with both
    endpoints inside it"). *)
Definition subgraph (G : Graph) (c : list node) : Graph :=
  map (fun e => (fst e, filter (fun w => mem w c) (snd e)))
      (filter (fun e => mem (fst e) c) G).

(** [max(cs, key=len)]: the first component of maximal size. *)
Fixpoint max_by_len (best : list node) (cs : list (list node)) : list node :=
  match cs with
  | [] => best
  | c :: cs' => if len best <? len c then max_by_len c cs'
                else max_by_len best cs'
  end.

Definition get_largest_component (G : Graph) : Graph :=
  if 1 <=? number_connected_components G then
    let largest_component :=
      match connected_components G with
      | [] => []
      | c :: cs => max_by_len c cs
      end in
    subgraph G largest_component
  else G.

Definition eccentricity (G : Graph) (v : node) : Z :=
  len (bfs G v) - 1.

Definition farthest (G : Graph) (v : node) : node :=
  last (concat (bfs G v)) v.

(** Sweeps after the first: stop as soon as the eccentricity no longer
    grows, or when the bound is exhausted. *)
Fixpoint sweeps (bound : nat) (G : Graph) (cur : node) (best : Z) : Z :=
  match bound with
  | O => best
  | S b =>
      let e := eccentricity G cur in
      if best <? e then sweeps b G (farthest G cur) e else best
  end.

(** Modelled from the spec: the approximate diameter of the graph
    library, which is not under src/ ("If the component has 0 nodes,
    return 0. If 1 node, return 0. Pick an arbitrary start node; run
    breadth-first search ...; Move to that farthest node; repeat ...;
    Bound the number of sweeps ...; return the maximum eccentricity
    observed"). [max_sweeps] bounds the searches, the start node is
    drawn from the generator. *)
Definition approx_diameter (max_sweeps : nat) (G : Graph) (s : Rng)
  : Z * Rng :=
  match G with
  | [] => (0, s)
  | [_] => (0, s)
  | _ =>
      let (r, s1) := next s in
      let start := nth (draw_index r (length G)) (nodes G) 0 in
      match max_sweeps with
      | O => (0, s1)
      | S b => (sweeps b G (farthest G start) (eccentricity G start), s1)
      end
  end.

Definition diameter (max_sweeps : nat) (G : Graph) (s : Rng)
  : result (Z * Rng) :=
  if number_connected_components G =? 0 then Return (0, s)
  else Return (approx_diameter max_sweeps G s).

End Diam.

(** ** Reachability *)

Definition edge (G : Graph) (u v : node) : Prop := In v (adj G u).

Definition reach (G : Graph) : node -> node -> Prop :=
  clos_refl_trans node (edge G).

Definition connected (G : Graph) : Prop :=
  G <> [] /\ forall u v, In u (nodes G) -> In v (nodes G) -> reach G u v.

(** ** Test graphs *)

Definition path5 : Graph :=
  [(0, [1]); (1, [0; 2]); (2, [1; 3]); (3, [2; 4]); (4, [3])].

Definition complete5 : Graph :=
  [(0, [1; 2; 3; 4]); (1, [0; 2; 3; 4]); (2, [0; 1; 3; 4]);
   (3, [0; 1; 2; 4]); (4, [0; 1; 2; 3])].

Definition cycle6 : Graph :=
  [(0, [1; 5]); (1, [0; 2]); (2, [1; 3]); (3, [2; 4]); (4, [3; 5]);
   (5, [4; 0])].

Definition single : Graph := [(0, [])].

(** Postcondition of hub selection: [hubs] are [min k n] distinct nodes
    of [G], by degree descending, ties in creation order. *)
Definition hub_order (G : Graph) (u v : node) : Prop :=
  degree G v < degree G u \/
  (degree G u = degree G v /\
   (creation_index (nodes G) u < creation_index (nodes G) v)%nat).

Definition hub_order_id (G : Graph) (u v : node) : Prop :=
  degree G v < degree G u \/ (degree G u = degree G v /\ u < v).

Definition hub_ranking (G : Graph) (k : nat) (hubs : list node) : Prop :=
  NoDup hubs /\ incl hubs (nodes G) /\
  length hubs = Nat.min k (length G) /\
  StronglySorted (hub_order G) hubs /\
  (StronglySorted Z.lt (nodes G) -> StronglySorted (hub_order_id G) hubs).

(** Order produced by a stable descending sort of a list ordered by
    [P]: by key descending, then by [P]. *)
Definition stable_order {A} (key : A -> Z) (P : A -> A -> Prop) (a b : A)
  : Prop :=
  key b < key a \/ (key a = key b /\ P a b).

Definition disjoint (c1 c2 : list node) : Prop :=
  forall x, In x c1 -> ~ In x c2.

(** The components of [G] partition its node set: pairwise disjoint,
    non-empty, their union is the node set, each one is the set of nodes
    reachable from any of its members, and the sizes add up to the node
    count. *)
Definition partitions (G : Graph) (cs : list (list node)) : Prop :=
  ForallOrdPairs disjoint cs /\
  Forall (fun c => NoDup c /\ c <> []) cs /\
  (forall x, In x (nodes G) <-> exists c, In c cs /\ In x c) /\
  (forall c u, In c cs -> In u c -> forall v, In v c <-> reach G u v) /\
  sumZ (map (fun c => len c) cs) = number_of_nodes G.

(** The draws that make the Erdos-Renyi generator produce the perfect
    matching 0-1, 2-3, ... on [n] nodes (n even): gap 0 to reach the
    pair (1,0), gap 4k+4 from (2k+1,2k) to (2k+3,2k+2), then a gap past
    the last pair. *)
Definition matching_draws (n : Z) : list Z :=
  0 :: map (fun k => 4 * k + 4) (range (n / 2 - 1)) ++ [n * n].

(** Thirty generator runs of that kind: ten trials for each of the
    three fractions. *)
Definition experiment_draws : Rng :=
  concat (repeat (matching_draws 1000) 30).

Definition no_loops (G : Graph) : Prop := forall v, ~ In v (adj G v).

(** Sum of the degrees over the nodes. *)
Definition degree_sum (G : Graph) : Z := sumZ (map (degree G) (nodes G)).

(** State of the Barabasi-Albert growth once the nodes [0..k-1] exist:
    a simple graph on those nodes with [m * (k - m)] edges and, as soon
    as one node has been attached, connected, without isolated node, the
    node added last having exactly [m] neighbours. *)
Definition ba_inv (m k : Z) (G : Graph) : Prop :=
  wf G /\ no_loops G /\ nodes G = range k /\
  degree_sum G = 2 * (m * (k - m)) /\
  (m < k ->
   connected G /\ (forall v, In v (nodes G) -> 1 <= degree G v) /\
   degree G (k - 1) = m).

(** Executable check of well-formedness, for concrete graphs. *)
Fixpoint nodupb (l : list node) : bool :=
  match l with
  | [] => true
  | x :: l' => negb (mem x l') && nodupb l'
  end.

Definition wf_check (G : Graph) : bool :=
  nodupb (nodes G) &&
  forallb (fun e =>
             nodupb (snd e) &&
             forallb (fun v => mem v (nodes G) && mem (fst e) (adj G v))
                     (snd e)) G.

(** Distinctness of the entries of a concrete list. *)
Ltac nodup_tac :=
  repeat (constructor; [simpl; intuition discriminate|]); constructor.


(** ** Methods of the network classes (random.py, scale_free.py) *)

(** [d[k] = v] on a dict: an existing key keeps its position. *)
Fixpoint dict_set {V} (d : list (Z * V)) (k : Z) (v : V) : list (Z * V) :=
  match d with
  | [] => [(k, v)]
  | (k', v') :: d' => if k' =? k then (k', v) :: d'
                      else (k', v') :: dict_set d' k v
  end.

(** [dict(items)]. *)
Definition dict {V} (items : list (Z * V)) : list (Z * V) :=
  fold_left (fun d kv => dict_set d (fst kv) (snd kv)) items [].

Definition values {V} (d : list (Z * V)) : list V := map snd d.

Definition keys {V} (d : list (Z * V)) : list Z := map fst d.

(** [average_degree] of both classes:
    [np.mean(list(dict(self.G.degree()).values()))]. *)
Definition RandomNetwork_average_degree (self : RandomNetwork.t) : pyfloat :=
  np_mean (values (dict (degree_view (RandomNetwork.G self)))).

Definition ScaleFreeNetwork_average_degree (self : ScaleFreeNetwork.t)
  : pyfloat :=
  np_mean (values (dict (degree_view (ScaleFreeNetwork.G self)))).

Inductive colour : Set := red | green | darkblue.

(** [plot] of both classes, up to the drawing call: the list [color_map]
    that is handed over as node_color, one colour per node in node order.
    The layout and the drawing are not modelled. [G.neighbors(node)] is
    the adjacency entry of [node]. *)
Definition RandomNetwork_plot (self : RandomNetwork.t) : list colour :=
  let top_5 := RandomNetwork.get_hubs self 5 in
  let neighbors :=
    flat_map (fun node => adj (RandomNetwork.G self) node) top_5 in
  let color_map :=
    map (fun node => if mem node top_5 then red
                     else if mem node neighbors then green
                     else darkblue)
        (nodes (RandomNetwork.G self)) in
  color_map.

Definition ScaleFreeNetwork_plot (self : ScaleFreeNetwork.t) : list colour :=
  let top_5 := ScaleFreeNetwork.get_hubs self 5 in
  let neighbors :=
    flat_map (fun node => adj (ScaleFreeNetwork.G self) node) top_5 in
  let color_map :=
    map (fun node => if mem node top_5 then red
                     else if mem node neighbors then green
                     else darkblue)
        (nodes (ScaleFreeNetwork.G self)) in
  color_map.

(** [{degree: count/n for degree, count in items}]: the divisions are
    carried out in order, the first failing one ends the comprehension. *)
Fixpoint normalized (n : Z) (items : list (Z * Z)) : result (list (Z * Q)) :=
  match items with
  | [] => Return []
  | (degree, count) :: rest =>
      q <- truediv count n ;;
      r <- normalized n rest ;;
      Return ((degree, q) :: r)
  end.

(** [plot_degree_distribution] of RandomNetwork, up to the first drawing
    call: the dict [degree_distribution] whose keys and values are the
    bars. *)
Definition RandomNetwork_degree_distribution (self : RandomNetwork.t)
  : result (list (Z * Q)) :=
  let degrees := map snd (degree_view (RandomNetwork.G self)) in
  let degree_distribution := Counter degrees in
  normalized (RandomNetwork.n self) degree_distribution.

(** [[x/n for x in xs]]. *)
Fixpoint normalized_list (n : Z) (xs : list Z) : result (list Q) :=
  match xs with
  | [] => Return []
  | x :: rest =>
      q <- truediv x n ;;
      r <- normalized_list n rest ;;
      Return (q :: r)
  end.

(** [plot_degree_distribution] of ScaleFreeNetwork, up to the first
    drawing call: the keys of [deg_distri] and the list
    [normalized_degree] plotted against them. *)
Definition ScaleFreeNetwork_degree_distribution (self : ScaleFreeNetwork.t)
  : result (list Z * list Q) :=
  let deg := values (dict (degree_view (ScaleFreeNetwork.G self))) in
  let deg_distri := Counter deg in
  normalized_degree <-
    normalized_list (ScaleFreeNetwork.n self) (values deg_distri) ;;
  Return (keys deg_distri, normalized_degree).

Definition sumQ (l : list Q) : Q := fold_right Qplus 0%Q l.

(** Number of occurrences of [k] recorded by a histogram. *)
Definition count_of (h : list (Z * Z)) (k : Z) : Z :=
  sumZ (map snd (filter (fun kv => fst kv =? k) h)).

(** Number of occurrences of [k] in a list. *)
Definition occurrences (l : list Z) (k : Z) : Z :=
  Z.of_nat (length (filter (fun x => x =? k) l)).

(** ** The robustness experiments (components.py, diameter.py) *)

(** [np.linspace(0, 1, 30)], the thirty fractions of both experiments,
    read as the exact rationals k/29: the first is 0 and the last is 1
    (as in the numeric library); the rounding of the points in between is
    not modelled. *)
Definition linspace_0_1_30 : list Q := map (fun k => k # 29)%Q (range 30).

(** Sum of floats: NaN as soon as one term is NaN. *)
Fixpoint sumF (l : list pyfloat) : pyfloat :=
  match l with
  | [] => Fin 0
  | NaN :: _ => NaN
  | Fin x :: rest =>
      match sumF rest with
      | Fin t => Fin (x + t)
      | NaN => NaN
      end
  end.

(** [np.mean] of a list of floats: NaN for the empty list (a warning is
    printed, nothing is raised) and for a list that holds a NaN. *)
Definition np_mean_float (l : list pyfloat) : pyfloat :=
  match l with
  | [] => NaN
  | _ :: _ =>
      match sumF l with
      | Fin t => Fin (t / inject_Z (len l))
      | NaN => NaN
      end
  end.

Module RobustnessExperiment.

(** components.py, the inner loop of [run_component_experiment]. *)
Fixpoint trials (iterations : nat) (N AVG_K : Z) (targeted random_net : bool)
  (fraction : Q)
  (temp_results_relative_size temp_results_avg_size : list pyfloat) (s : Rng)
  : result (list pyfloat * list pyfloat * Rng) :=
  match iterations with
  | O => Return (temp_results_relative_size, temp_results_avg_size, s)
  | S k =>
      net <- get_network N AVG_K random_net s ;;
      pruned <- (if targeted
                 then G_pruned <- Removal.targeted_removal (fst net) fraction ;;
                      Return (G_pruned, snd net)
                 else Removal.random_removal (fst net) fraction (snd net)) ;;
      sizes <- Robustness.get_component_sizes (fst pruned) ;;
      trials k N AVG_K targeted random_net fraction
             (temp_results_relative_size ++ [Fin (fst sizes)])
             (temp_results_avg_size ++ [snd sizes])
             (snd pruned)
  end.

(** The outer loop over the fractions. *)
Fixpoint sweep (fractions : list Q) (N AVG_K : Z) (targeted random_net : bool)
  (iterations : Z) (relative_size avg_size : list pyfloat) (s : Rng)
  : result (list pyfloat * list pyfloat * Rng) :=
  match fractions with
  | [] => Return (relative_size, avg_size, s)
  | fraction :: rest =>
      r <- trials (Z.to_nat iterations) N AVG_K targeted random_net
                  fraction [] [] s ;;
      sweep rest N AVG_K targeted random_net iterations
            (relative_size ++ [np_mean_float (fst (fst r))])
            (avg_size ++ [np_mean_float (snd (fst r))])
            (snd r)
  end.

Definition run_component_experiment (N AVG_K : Z)
  (targeted random_net : bool) (iterations : Z) (s : Rng)
  : result (list pyfloat * list pyfloat * Rng) :=
  sweep linspace_0_1_30 N AVG_K targeted random_net iterations [] [] s.

End RobustnessExperiment.

Module DiameterExperiment.

(** diameter.py, the inner loop of [run_diameter_robustness_experiment];
    [max_sweeps] is the bound of the diameter routine. *)
Fixpoint trials (iterations : nat) (max_sweeps : nat) (N AVG_K : Z)
  (targeted random_net : bool) (fraction : Q) (temp_results : list Z)
  (s : Rng) : result (list Z * Rng) :=
  match iterations with
  | O => Return (temp_results, s)
  | S k =>
      net <- get_network N AVG_K random_net s ;;
      pruned <- (if targeted
                 then G_pruned <- Removal.targeted_removal (fst net) fraction ;;
                      Return (G_pruned, snd net)
                 else Removal.random_removal (fst net) fraction (snd net)) ;;
      d <- Diam.diameter max_sweeps
             (Diam.get_largest_component (fst pruned)) (snd pruned) ;;
      trials k max_sweeps N AVG_K targeted random_net fraction
             (temp_results ++ [fst d]) (snd d)
  end.

(** The outer loop over the fractions. *)
Fixpoint sweep (fractions : list Q) (max_sweeps : nat) (N AVG_K : Z)
  (targeted random_net : bool) (iterations : Z) (diameters : list pyfloat)
  (s : Rng) : result (list pyfloat * Rng) :=
  match fractions with
  | [] => Return (diameters, s)
  | fraction :: rest =>
      r <- trials (Z.to_nat iterations) max_sweeps N AVG_K targeted
                  random_net fraction [] s ;;
      sweep rest max_sweeps N AVG_K targeted random_net iterations
            (diameters ++ [np_mean (fst r)]) (snd r)
  end.

Definition run_diameter_robustness_experiment (max_sweeps : nat)
  (N AVG_K : Z) (targeted random_net : bool) (iterations : Z) (s : Rng)
  : result (list pyfloat * Rng) :=
  sweep linspace_0_1_30 max_sweeps N AVG_K targeted random_net iterations
        [] s.

End DiameterExperiment.

(** A source of networks that never fails: every network delivered is
    well-formed, on [N >= 1] distinct nodes, and connected in the
    scale-free case. *)
Definition reliable (N AVG_K : Z) (random_net : bool) : Prop :=
  1 <= N /\
  forall s, exists G s',
    get_network N AVG_K random_net s = Return (G, s') /\
    wf G /\ number_of_nodes G = N /\
    (random_net = false -> connected G).

(** What one trial of the component experiment reports at the two ends
    of the fraction range. *)
Definition trial_reports (N : Z) (random_net : bool) (f : Q)
  (giant : Q) (mean : pyfloat) : Prop :=
  ((f == 1)%Q -> giant = (0 # 1)%Q /\ mean = NaN) /\
  ((f == 0)%Q -> random_net = false ->
   giant = (N # Z.to_pos N)%Q /\ mean = NaN).

(** The same for the two means recorded per fraction. *)
Definition entry_reports (random_net : bool) (f : Q) (x y : pyfloat) : Prop :=
  ((f == 1)%Q -> (exists q, x = Fin q /\ (q == 0)%Q) /\ y = NaN) /\
  ((f == 0)%Q -> random_net = false ->
   (exists q, x = Fin q /\ (q == 1)%Q) /\ y = NaN).

(** The normalisation step of the main program of cluster_dist.py, for
    one histogram [h]: [sizes = list(h.keys())],
    [counts = list(h.values())],
    [counts = [count/sum(counts) for count in counts]]; the pair is what
    is handed to the scatter plot. *)
Definition normalized_counts (h : list (Z * Z)) : result (list Z * list Q) :=
  let sizes := keys h in
  let counts := values h in
  counts' <- normalized_list (sumZ counts) counts ;;
  Return (sizes, counts').

(** * Proofs *)

(** ** Lists *)

Section ListFacts.

Context {A : Type}.

Lemma StronglySorted_weaken (R R' : A -> A -> Prop) (l : list A) :
  (forall a b, In a l -> In b l -> R a b -> R' a b) ->
  StronglySorted R l -> StronglySorted R' l.
Proof.
  intros HR Hs. induction Hs as [|a l Hs IH Hall].
  - constructor.
  - constructor.
    + apply IH. intros x y Hx Hy. apply HR; now right.
    + rewrite Forall_forall in *. intros x Hx.
      apply HR; [now left | now right | now apply Hall].
Qed.

Lemma StronglySorted_firstn (R : A -> A -> Prop) (n : nat) (l : list A) :
  StronglySorted R l -> StronglySorted R (firstn n l).
Proof.
  intros Hs. revert n. induction Hs as [|a l Hs IH Hall]; intros [|n]; simpl;
    try constructor.
  - apply IH.
  - rewrite Forall_forall in *. intros x Hx. apply Hall.
    eapply (In_nth_error) in Hx. destruct Hx as [i Hi].
    assert (In x (firstn n l)) by (eapply nth_error_In; eauto).
    clear Hi. revert H. generalize n. clear.
    induction l as [|y l IHl]; intros [|n] H; simpl in *; try contradiction.
    destruct H; [now left | right; eauto].
Qed.

Lemma firstn_incl (n : nat) (l : list A) : incl (firstn n l) l.
Proof.
  revert n. induction l as [|y l IHl]; intros [|n]; simpl; intros x H;
    try contradiction.
  destruct H; [now left | right; eapply IHl; eauto].
Qed.

Lemma NoDup_firstn (n : nat) (l : list A) : NoDup l -> NoDup (firstn n l).
Proof.
  intros H. revert n. induction H as [|a l Hin Hnd IH]; intros [|n]; simpl;
    try constructor.
  - intro Hc. apply Hin. eapply firstn_incl; eauto.
  - apply IH.
Qed.

Lemma StronglySorted_map {B} (f : A -> B) (R : B -> B -> Prop) (l : list A) :
  StronglySorted (fun a b => R (f a) (f b)) l -> StronglySorted R (map f l).
Proof.
  induction 1 as [|a l Hs IH Hall]; simpl; constructor; auto.
  rewrite Forall_forall in *. intros y Hy.
  apply in_map_iff in Hy. destruct Hy as [x [<- Hx]]. auto.
Qed.

Lemma StronglySorted_map_inv {B} (f : A -> B) (R : B -> B -> Prop)
  (l : list A) :
  StronglySorted R (map f l) -> StronglySorted (fun a b => R (f a) (f b)) l.
Proof.
  induction l as [|a l IH]; simpl; intros H; [constructor|].
  inversion H as [|? ? Hs Hall]; subst. constructor; auto.
  rewrite Forall_forall in *. intros b Hb. apply Hall. now apply in_map.
Qed.

End ListFacts.

(** ** The stable descending sort *)

Section SortedRev.

Context {A : Type} (key : A -> Z).

Lemma insert_desc_perm (x : A) (l : list A) :
  Permutation (x :: l) (Py.insert_desc key x l).
Proof.
  induction l as [|y l IH]; simpl; auto.
  destruct (key x <? key y); auto.
  rewrite perm_swap. now constructor.
Qed.

Lemma sorted_rev_perm (l : list A) : Permutation l (Py.sorted_rev key l).
Proof.
  induction l as [|x l IH]; simpl; auto.
  etransitivity; [|apply insert_desc_perm]. now constructor.
Qed.

Variable P : A -> A -> Prop.

Lemma insert_desc_sorted (x : A) (l : list A) :
  StronglySorted (stable_order key P) l -> Forall (P x) l ->
  StronglySorted (stable_order key P) (Py.insert_desc key x l).
Proof.
  induction 1 as [|y l Hs IH Hall]; intros HP; simpl.
  - repeat constructor.
  - inversion HP as [|? ? HPy HPl]; subst.
    destruct (key x <? key y) eqn:E.
    + apply Z.ltb_lt in E. constructor; auto.
      rewrite Forall_forall in *. intros z Hz.
      apply Permutation_in with (l' := x :: l) in Hz;
        [|symmetry; apply insert_desc_perm].
      destruct Hz as [<- | Hz]; [now left | now apply Hall].
    + apply Z.ltb_ge in E. constructor; [constructor; auto|].
      constructor.
      * unfold stable_order. destruct (Z.eq_dec (key x) (key y)); [|lia].
        right; auto.
      * rewrite Forall_forall in *. intros z Hz.
        specialize (Hall z Hz). specialize (HPl z Hz).
        unfold stable_order in *.
        destruct (Z.eq_dec (key x) (key z)); [right; auto | left; lia].
Qed.

Lemma sorted_rev_sorted (l : list A) :
  StronglySorted P l -> StronglySorted (stable_order key P) (Py.sorted_rev key l).
Proof.
  induction 1 as [|x l Hs IH Hall]; simpl.
  - constructor.
  - apply insert_desc_sorted; auto.
    rewrite Forall_forall in *. intros z Hz. apply Hall.
    eapply Permutation_in; [symmetry; apply sorted_rev_perm | exact Hz].
Qed.

End SortedRev.

(** ** Graphs and hub selection *)

Lemma mem_In (v : node) (l : list node) : mem v l = true <-> In v l.
Proof.
  unfold mem. rewrite existsb_exists. split.
  - intros [x [Hx E]]. apply Z.eqb_eq in E. now subst.
  - intros H. exists v. split; auto. apply Z.eqb_refl.
Qed.

Lemma mem_false (v : node) (l : list node) : mem v l = false <-> ~ In v l.
Proof.
  rewrite <- mem_In. destruct (mem v l); split; congruence.
Qed.

Lemma adj_entry (G : Graph) (e : node * list node) :
  NoDup (nodes G) -> In e G -> adj G (fst e) = snd e.
Proof.
  induction G as [|[u nb] G IH]; simpl; intros Hnd Hin; [contradiction|].
  inversion Hnd as [|? ? Hu Hnd']; subst.
  destruct Hin as [<- | Hin].
  - simpl. now rewrite Z.eqb_refl.
  - destruct (Z.eqb_spec u (fst e)) as [E|E]; [|auto].
    exfalso. apply Hu. rewrite E. unfold nodes. now apply in_map.
Qed.

Lemma degree_entry (G : Graph) (e : node * list node) :
  NoDup (nodes G) -> In e G -> degree_of e = degree G (fst e).
Proof.
  intros Hnd Hin. unfold degree_of, degree. now rewrite (adj_entry G e).
Qed.

Lemma adj_not_node (G : Graph) (v : node) : ~ In v (nodes G) -> adj G v = [].
Proof.
  induction G as [|[u nb] G IH]; simpl; intros H; auto.
  destruct (Z.eqb_spec u v); [exfalso; auto | auto].
Qed.

Lemma creation_index_cons (a : node) (l : list node) (v : node) :
  creation_index (a :: l) v =
  if Z.eqb a v then 0%nat else S (creation_index l v).
Proof. reflexivity. Qed.

Lemma creation_index_sorted (l : list node) :
  NoDup l ->
  StronglySorted
    (fun u v => (creation_index l u < creation_index l v)%nat) l.
Proof.
  induction 1 as [|a l Hin Hnd IH]; constructor.
  - eapply StronglySorted_weaken; [|exact IH].
    intros u v Hu Hv Huv. cbv beta in Huv. rewrite !creation_index_cons.
    destruct (Z.eqb_spec a u); [subst; contradiction|].
    destruct (Z.eqb_spec a v); [subst; contradiction|]. lia.
  - rewrite Forall_forall. intros v Hv. rewrite !creation_index_cons.
    rewrite Z.eqb_refl.
    destruct (Z.eqb_spec a v); [subst; contradiction | lia].
Qed.

Lemma creation_index_lt (l : list node) (u v : node) :
  StronglySorted Z.lt l -> In u l -> In v l ->
  (creation_index l u < creation_index l v)%nat -> u < v.
Proof.
  induction 1 as [|a l Hs IH Hall]; intros Hu Hv; [contradiction|].
  rewrite Forall_forall in Hall. rewrite !creation_index_cons.
  destruct (Z.eqb_spec a u) as [Eu|Eu], (Z.eqb_spec a v) as [Ev|Ev];
    try lia.
  - intros _. subst u. destruct Hv; [congruence | auto].
  - intros H. destruct Hu; [congruence|]. destruct Hv; [congruence|].
    apply IH; auto. lia.
Qed.

Lemma dict_keys_nodup {V} (seen : list Z) (items : list (Z * V)) :
  NoDup (map fst items) ->
  (forall k, In k seen -> ~ In k (map fst items)) ->
  Py.dict_keys seen items = map fst items.
Proof.
  revert seen. induction items as [|[k v] items IH]; simpl; intros seen Hnd Hs;
    auto.
  inversion Hnd as [|? ? Hk Hnd']; subst.
  destruct (existsb (Z.eqb k) seen) eqn:E.
  - apply mem_In in E. exfalso. apply (Hs k E). now left.
  - f_equal. apply IH; auto.
    intros k' [<- | Hk'] Hin; [auto|]. apply (Hs k' Hk'). now right.
Qed.

Lemma nodes_degree_view (G : Graph) : map fst (degree_view G) = nodes G.
Proof.
  unfold degree_view, nodes. rewrite map_map. reflexivity.
Qed.

Lemma slice_to_nat {A} (l : list A) (k : nat) :
  Py.slice_to l (Z.of_nat k) = firstn k l.
Proof.
  unfold Py.slice_to. destruct (Z.ltb_spec (Z.of_nat k) 0); [lia|].
  now rewrite Nat2Z.id.
Qed.

Lemma get_hubs_keys (G : Graph) (top_k : Z) :
  NoDup (nodes G) ->
  Components.get_hubs G top_k =
  Py.slice_to (map fst (Py.sorted_rev snd (degree_view G))) top_k.
Proof.
  intros Hnd. unfold Components.get_hubs. cbv zeta. f_equal.
  apply dict_keys_nodup; [|intros k []].
  eapply Permutation_NoDup; [|rewrite <- nodes_degree_view in Hnd; exact Hnd].
  apply Permutation_map, sorted_rev_perm.
Qed.

Lemma ranked_perm (G : Graph) :
  Permutation (nodes G) (map fst (Py.sorted_rev snd (degree_view G))).
Proof.
  rewrite <- nodes_degree_view. apply Permutation_map, sorted_rev_perm.
Qed.

Lemma ranked_sorted (G : Graph) :
  NoDup (nodes G) ->
  StronglySorted (hub_order G)
    (map fst (Py.sorted_rev snd (degree_view G))).
Proof.
  intros Hnd. apply StronglySorted_map.
  set (P := fun a b : node * Z =>
         (creation_index (nodes G) (fst a)
          < creation_index (nodes G) (fst b))%nat).
  assert (HP : StronglySorted P (degree_view G)).
  { apply (@StronglySorted_map_inv _ _ fst
             (fun u v => (creation_index (nodes G) u
                          < creation_index (nodes G) v)%nat)).
    rewrite nodes_degree_view. exact (creation_index_sorted _ Hnd). }
  eapply StronglySorted_weaken; [|apply (sorted_rev_sorted snd P _ HP)].
  intros a b Ha Hb Hab.
  assert (Hdeg : forall c, In c (Py.sorted_rev snd (degree_view G)) ->
                           snd c = degree G (fst c)).
  { intros c Hc.
    eapply Permutation_in in Hc; [|symmetry; apply sorted_rev_perm].
    unfold degree_view in Hc. apply in_map_iff in Hc.
    destruct Hc as [e [<- He]]. simpl. now apply degree_entry. }
  unfold hub_order, stable_order in *.
  rewrite <- (Hdeg a Ha), <- (Hdeg b Hb). exact Hab.
Qed.

Lemma get_hubs_ranking (G : Graph) (k : nat) :
  NoDup (nodes G) -> hub_ranking G k (Components.get_hubs G (Z.of_nat k)).
Proof.
  intros Hnd. rewrite get_hubs_keys, slice_to_nat by assumption.
  pose proof (ranked_perm G) as Hperm.
  pose proof (ranked_sorted G Hnd) as Hsort.
  set (r := map fst (Py.sorted_rev snd (degree_view G))) in *.
  assert (Hr : NoDup r) by (eapply Permutation_NoDup; eauto).
  assert (Hincl : incl (firstn k r) (nodes G)).
  { intros x Hx. eapply Permutation_in; [symmetry; exact Hperm|].
    eapply firstn_incl; eauto. }
  repeat split.
  - now apply NoDup_firstn.
  - exact Hincl.
  - rewrite length_firstn. rewrite <- (Permutation_length Hperm).
    unfold nodes. now rewrite length_map.
  - now apply StronglySorted_firstn.
  - intros Hasc. eapply StronglySorted_weaken;
      [|apply StronglySorted_firstn; exact Hsort].
    intros a b Ha Hb [H | [H1 H2]]; [now left | right; split; auto].
    eapply creation_index_lt; eauto.
Qed.

(** ** Node removal *)

Lemma mem_cons (u v : node) (l : list node) :
  mem u (v :: l) = (u =? v) || mem u l.
Proof. reflexivity. Qed.

Lemma remove_nodes_from_spec (vs : list node) (G : Graph) :
  remove_nodes_from G vs =
  map (fun e => (fst e, filter (fun w => negb (mem w vs)) (snd e)))
      (filter (fun e => negb (mem (fst e) vs)) G).
Proof.
  revert G. induction vs as [|v vs IH]; intros G; simpl.
  - induction G as [|[u nb] G IHG]; simpl; auto.
    rewrite <- IHG. f_equal. f_equal.
    clear. induction nb as [|w nb IHnb]; simpl; congruence.
  - rewrite IH. unfold remove_node.
    induction G as [|[u nb] G IHG]; simpl; auto.
    rewrite mem_cons. destruct (u =? v) eqn:Euv; simpl; auto.
    destruct (mem u vs) eqn:Eu; simpl; auto.
    rewrite IHG. f_equal. f_equal.
    clear. induction nb as [|w nb IHnb]; simpl; auto.
    rewrite mem_cons. destruct (w =? v); simpl; auto.
    destruct (mem w vs); simpl; congruence.
Qed.

Lemma nodes_remove_nodes_from (G : Graph) (vs : list node) :
  nodes (remove_nodes_from G vs) =
  filter (fun v => negb (mem v vs)) (nodes G).
Proof.
  rewrite remove_nodes_from_spec. unfold nodes. rewrite map_map. simpl.
  induction G as [|[u nb] G IH]; simpl; auto.
  destruct (mem u vs); simpl; congruence.
Qed.

Lemma adj_remove_nodes_from (G : Graph) (vs : list node) (u : node) :
  adj (remove_nodes_from G vs) u =
  if mem u vs then [] else filter (fun w => negb (mem w vs)) (adj G u).
Proof.
  rewrite remove_nodes_from_spec.
  induction G as [|[x nb] G IH]; simpl.
  - now destruct (mem u vs).
  - destruct (mem x vs) eqn:Ex; simpl.
    + destruct (Z.eqb_spec x u) as [->|]; [now rewrite IH, Ex | exact IH].
    + destruct (Z.eqb_spec x u) as [->|]; [now rewrite Ex | exact IH].
Qed.

Lemma NoDup_filter {A} (f : A -> bool) (l : list A) :
  NoDup l -> NoDup (filter f l).
Proof.
  induction 1 as [|a l Hin Hnd IH]; simpl; [constructor|].
  destruct (f a); auto. constructor; auto.
  intro H. apply filter_In in H. tauto.
Qed.

Lemma wf_remove_nodes_from (G : Graph) (vs : list node) :
  wf G -> wf (remove_nodes_from G vs).
Proof.
  intros [Hk Hc Hs Hn]. constructor.
  - rewrite nodes_remove_nodes_from. now apply NoDup_filter.
  - intros u v. rewrite adj_remove_nodes_from, nodes_remove_nodes_from.
    destruct (mem u vs); [intros []|].
    intros H. apply filter_In in H. destruct H as [H1 H2].
    apply filter_In. split; eauto.
  - intros u v. rewrite !adj_remove_nodes_from.
    destruct (mem u vs) eqn:Eu; [intros []|].
    intros H. apply filter_In in H. destruct H as [H1 H2].
    apply negb_true_iff in H2. rewrite H2.
    apply filter_In. split; [eauto | now rewrite Eu].
  - intros u. rewrite adj_remove_nodes_from.
    destruct (mem u vs); [constructor | now apply NoDup_filter].
Qed.

(** Removing [k] distinct nodes of the graph leaves [n - k] nodes. *)
Lemma filter_out_length (l vs : list node) :
  NoDup l -> NoDup vs -> incl vs l ->
  (length (filter (fun v => negb (mem v vs)) l) + length vs = length l)%nat.
Proof.
  intros Hl. revert vs. induction Hl as [|a l Hin Hnd IH]; intros vs Hvs Hincl.
  - destruct vs as [|v vs]; auto. destruct (Hincl v). now left.
  - simpl. destruct (mem a vs) eqn:Ea; simpl.
    + apply mem_In in Ea.
      destruct (in_split _ _ Ea) as [l1 [l2 ->]].
      assert (Hnd' : NoDup (l1 ++ l2)) by (eapply NoDup_remove_1; eauto).
      assert (Ha' : ~ In a (l1 ++ l2)) by (eapply NoDup_remove_2; eauto).
      specialize (IH (l1 ++ l2) Hnd').
      assert (Hincl' : incl (l1 ++ l2) l).
      { intros x Hx. destruct (Hincl x) as [<- | H]; auto.
        - apply in_app_iff. apply in_app_iff in Hx. simpl. tauto.
        - contradiction. }
      specialize (IH Hincl').
      assert (E : filter (fun v => negb (mem v (l1 ++ a :: l2))) l =
                  filter (fun v => negb (mem v (l1 ++ l2))) l).
      { apply filter_ext_in. intros x Hx. f_equal.
        unfold mem. rewrite !existsb_app. simpl.
        destruct (Z.eqb_spec x a); [subst; contradiction | reflexivity]. }
      rewrite E. rewrite length_app in *. simpl. lia.
    + apply mem_false in Ea. rewrite IH; auto.
      intros x Hx. destruct (Hincl x Hx) as [<- | H]; [contradiction | auto].
Qed.

(** ** The removal count *)

Lemma int_nonneg (x : Q) : (0 <= x)%Q -> Py.int x = Qfloor x.
Proof.
  intros H. unfold Py.int.
  destruct (Qle_bool 0 x) eqn:E; auto.
  apply Qle_bool_iff in H. congruence.
Qed.

Lemma count_bounds (f : Q) (n : Z) :
  (0 <= f)%Q -> (f <= 1)%Q -> 0 <= n ->
  Py.int (f * inject_Z n) = Qfloor (f * inject_Z n) /\
  0 <= Qfloor (f * inject_Z n) <= n.
Proof.
  intros H0 H1 Hn.
  assert (Hn' : (0 <= inject_Z n)%Q)
    by (change 0%Q with (inject_Z 0); rewrite <- Zle_Qle; exact Hn).
  assert (Hlo : (0 <= f * inject_Z n)%Q) by (apply Qmult_le_0_compat; auto).
  assert (Hhi : (f * inject_Z n <= inject_Z n)%Q).
  { rewrite <- (Qmult_1_l (inject_Z n)) at 2.
    apply Qmult_le_compat_r; auto. }
  split; [now apply int_nonneg|]. split.
  - exact (Qfloor_resp_le 0 _ Hlo).
  - pose proof (Qfloor_resp_le _ _ Hhi) as H. now rewrite Qfloor_Z in H.
Qed.


Lemma slice_to_all {A} (l : list A) (k : Z) :
  Z.of_nat (length l) <= k -> Py.slice_to l k = l.
Proof.
  intros H. unfold Py.slice_to. destruct (Z.ltb_spec k 0); [lia|].
  apply firstn_all2. lia.
Qed.

(** ** The shuffle *)

Lemma take_at_perm {A} (j : nat) (l : list A) (x : A) (rest : list A) :
  take_at j l = Some (x, rest) -> Permutation l (x :: rest).
Proof.
  revert j x rest. induction l as [|y l IH]; intros j x rest;
    [destruct j; discriminate|].
  destruct j as [|j]; simpl.
  - intros H. injection H as <- <-. reflexivity.
  - destruct (take_at j l) as [[z r]|] eqn:E; [|discriminate].
    intros H. injection H as <- <-. rewrite (IH _ _ _ E). apply perm_swap.
Qed.

Lemma shuffle_n_perm {A} (fuel : nat) (l : list A) (s : Rng) :
  Permutation l (fst (shuffle_n fuel l s)).
Proof.
  revert l s. induction fuel as [|fuel IH]; intros l s; simpl; auto.
  destruct (take_at (draw_index (hd 0 s) (length l)) l) as [[x rest]|] eqn:E;
    simpl; auto.
  specialize (IH rest (tl s)).
  destruct (shuffle_n fuel rest (tl s)) as [tl' s2]. simpl in *.
  eapply perm_trans; [apply (take_at_perm _ _ _ _ E)|]. now constructor.
Qed.

Lemma shuffle_perm {A} (l : list A) (s : Rng) :
  Permutation l (fst (shuffle l s)).
Proof. apply shuffle_n_perm. Qed.



(** ** Hub selection and targeted removal: the claims *)

(** C1: on a graph with node set of size [n], hub selection asked for
    the top [k] (a natural number) returns [min k n] distinct nodes of
    the graph, ordered by degree descending, equal degrees in creation
    order (ascending id when ids were created in ascending order); the
    method of the network classes returns the same ranking. *)
Theorem get_hubs_top_k (G : Graph) (k : nat) :
  NoDup (nodes G) ->
  hub_ranking G k (Components.get_hubs G (Z.of_nat k)) /\
  (forall net : RandomNetwork.t,
      RandomNetwork.G net = G ->
      hub_ranking G k (RandomNetwork.get_hubs net (Z.of_nat k))).
Proof.
  intros Hnd. split.
  - now apply get_hubs_ranking.
  - intros net <-. now apply (get_hubs_ranking (RandomNetwork.G net)).
Qed.

Lemma get_hubs_top_k_witness :
  hub_ranking path5 3 (Components.get_hubs path5 (Z.of_nat 3)) /\
  (forall net : RandomNetwork.t,
      RandomNetwork.G net = path5 ->
      hub_ranking path5 3 (RandomNetwork.get_hubs net (Z.of_nat 3))).
Proof.
  apply (get_hubs_top_k path5 3). simpl. nodup_tac.
Defined.



(** ** Random removal: the claims *)






(** C10: the copies of [get_hubs] in the three scripts and in the two
    network classes return the same list on every graph and every
    [top_k]. *)
Theorem get_hubs_copies_agree (G : Graph) (top_k : Z) :
  ClusterDist.get_hubs G top_k = Components.get_hubs G top_k /\
  Diameter.get_hubs G top_k = Components.get_hubs G top_k /\
  (forall net : RandomNetwork.t,
      RandomNetwork.G net = G ->
      RandomNetwork.get_hubs net top_k = Components.get_hubs G top_k) /\
  (forall net : ScaleFreeNetwork.t,
      ScaleFreeNetwork.G net = G ->
      ScaleFreeNetwork.get_hubs net top_k = Components.get_hubs G top_k).
Proof.
  split; [reflexivity|]. split; [reflexivity|].
  split; intros net E; rewrite <- E; reflexivity.
Qed.

(** ** Breadth-first search *)

Lemma visit_spec (ws seen nxt : list node) :
  exists new,
    visit ws seen nxt = (seen ++ new, nxt ++ new) /\ NoDup new /\
    (forall x, In x new <-> In x ws /\ ~ In x seen).
Proof.
  revert seen nxt. induction ws as [|w ws IH]; intros seen nxt; simpl.
  - exists []. rewrite !app_nil_r. split; [reflexivity|].
    split; [constructor|]. intros x. simpl. tauto.
  - destruct (mem w seen) eqn:E.
    + apply mem_In in E. destruct (IH seen nxt) as [new (Hv & Hnd & Hin)].
      exists new. split; [assumption|]. split; [assumption|].
      intros x. rewrite Hin. split.
      * intros [Hx Hs]. auto.
      * intros [[<- | Hx] Hs]; [contradiction | auto].
    + apply mem_false in E.
      destruct (IH (seen ++ [w]) (nxt ++ [w])) as [new (Hv & Hnd & Hin)].
      exists (w :: new). rewrite Hv, <- !app_assoc. simpl.
      split; [reflexivity|]. split.
      * constructor; auto. intros Hc. apply Hin in Hc.
        destruct Hc as [_ Hc]. apply Hc, in_app_iff. right. now left.
      * intros x. rewrite Hin, in_app_iff. simpl. split.
        -- intros [<- | [Hx Hs]]; [auto | tauto].
        -- intros [[<- | Hx] Hs]; [now left|].
           destruct (Z.eq_dec w x) as [->|Hne]; [now left | right].
           split; auto. intros [Hc | [Hc | []]]; auto.
Qed.

Lemma expand_spec (G : Graph) (level seen nxt : list node) :
  exists new,
    expand G level seen nxt = (seen ++ new, nxt ++ new) /\ NoDup new /\
    (forall x, In x new <->
               (exists v, In v level /\ In x (adj G v)) /\ ~ In x seen).
Proof.
  revert seen nxt. induction level as [|v vs IH]; intros seen nxt; simpl.
  - exists []. rewrite !app_nil_r. split; [reflexivity|].
    split; [constructor|]. intros x. simpl. split; [tauto|].
    intros [[v [[] _]] _].
  - destruct (visit_spec (adj G v) seen nxt) as [new1 (Hv & Hnd1 & Hin1)].
    rewrite Hv.
    destruct (IH (seen ++ new1) (nxt ++ new1)) as [new2 (He & Hnd2 & Hin2)].
    exists (new1 ++ new2). rewrite He, <- !app_assoc.
    split; [reflexivity|]. split.
    + apply NoDup_app; auto.
      intros x Hx1 Hx2. apply Hin2 in Hx2.
      apply (proj2 Hx2), in_app_iff. now right.
    + intros x. rewrite in_app_iff, Hin1, Hin2, in_app_iff. split.
      * intros [[Hx Hs] | [[u [Hu Hx]] Hs]].
        -- split; [exists v; split; [now left | assumption] | assumption].
        -- split; [exists u; split; [now right | assumption] | tauto].
      * intros [[u [[<- | Hu] Hx]] Hs]; [now left|].
        destruct (in_dec Z.eq_dec x new1) as [H1 | H1].
        -- left. now apply Hin1.
        -- right. split; [exists u; auto|].
           intros [Hc | Hc]; auto.
Qed.

Section BFS.

Variable G : Graph.
Hypothesis Hwf : wf G.

Lemma seen_bounded (seen : list node) :
  NoDup seen -> incl seen (nodes G) -> (length seen <= length G)%nat.
Proof.
  intros Hnd Hincl. pose proof (NoDup_incl_length Hnd Hincl) as H.
  unfold nodes in H. now rewrite length_map in H.
Qed.

Lemma reach_step (u v w : node) : reach G u v -> edge G v w -> reach G u w.
Proof.
  intros H E. eapply rt_trans; [exact H | apply rt_step; exact E].
Qed.

Lemma reach_sym (u v : node) : reach G u v -> reach G v u.
Proof.
  induction 1 as [x y E | x | x y z _ IH1 _ IH2].
  - apply rt_step. unfold edge in *. now apply (wf_sym G Hwf).
  - apply rt_refl.
  - eapply rt_trans; eauto.
Qed.

Lemma reach_nodes (u v : node) :
  reach G u v -> In u (nodes G) -> In v (nodes G).
Proof.
  induction 1 as [x y E | x | x y z _ IH1 _ IH2]; auto.
  intros _. unfold edge in E. now apply (wf_closed G Hwf x y).
Qed.

(** A set that contains [u] and is closed under adjacency contains all
    that [u] reaches. *)
Lemma reach_closed (S : node -> Prop) (u v : node) :
  (forall x w, S x -> In w (adj G x) -> S w) ->
  reach G u v -> S u -> S v.
Proof.
  intros Hc. induction 1 as [x y E | x | x y z _ IH1 _ IH2]; auto.
  intros Hx. eapply Hc; eauto.
Qed.

Lemma bfs_levels_spec (fuel : nat) :
  forall level seen,
    NoDup seen -> incl seen (nodes G) -> incl level seen -> NoDup level ->
    (forall u, In u seen -> ~ In u level ->
               forall w, In w (adj G u) -> In w seen) ->
    (length G + (match level with [] => 0 | _ :: _ => 1 end)
     <= fuel + length seen)%nat ->
    let R := concat (bfs_levels fuel G level seen) in
    NoDup R /\
    (forall x, In x R -> In x level \/ ~ In x seen) /\
    incl level R /\
    (forall u, In u seen \/ In u R ->
               forall w, In w (adj G u) -> In w seen \/ In w R) /\
    (forall x, In x R -> exists u, In u level /\ reach G u x).
Proof.
  induction fuel as [|fuel IH]; intros level seen Hnd Hincl Hlev Hndl Hcl Hm.
  - assert (level = []) as ->.
    { destruct level; auto. pose proof (seen_bounded seen Hnd Hincl).
      simpl in Hm. lia. }
    simpl. split; [constructor|]. split; [tauto|]. split; [intros x []|].
    split; [|intros x []].
    intros u [Hu | []] w Hw. left. eapply Hcl; eauto.
  - destruct level as [|v vs].
    { simpl. split; [constructor|]. split; [tauto|]. split; [intros x []|].
      split; [|intros x []].
      intros u [Hu | []] w Hw. left. eapply Hcl; eauto. }
    set (level := v :: vs) in *.
    destruct (expand_spec G level seen []) as [new (He & Hndn & Hin)].
    change ([] ++ new) with new in He.
    change (bfs_levels (S fuel) G level seen)
      with (let (seen', nxt) := expand G level seen [] in
            level :: bfs_levels fuel G nxt seen').
    rewrite He. cbv zeta.
    assert (Hdisj : forall x, In x new -> ~ In x seen)
      by (intros x Hx; now apply Hin in Hx).
    assert (Hnew_nodes : incl new (nodes G)).
    { intros x Hx. apply Hin in Hx. destruct Hx as [[u [_ Hx]] _].
      now apply (wf_closed G Hwf u x). }
    destruct (IH new (seen ++ new)) as (R1 & R2 & R3 & R4 & R5).
    + apply NoDup_app; auto. intros x Hs Hx. now apply (Hdisj x).
    + intros x Hx. apply in_app_iff in Hx. destruct Hx; auto.
    + intros x Hx. apply in_app_iff. now right.
    + exact Hndn.
    + intros u Hu Hnu w Hw. apply in_app_iff in Hu.
      destruct Hu as [Hu | Hu]; [|contradiction].
      apply in_app_iff.
      destruct (in_dec Z.eq_dec u level) as [Hl | Hl].
      * destruct (in_dec Z.eq_dec w seen) as [Hs | Hs]; [now left | right].
        apply Hin. split; [exists u; auto | assumption].
      * left. eapply Hcl; eauto.
    + rewrite length_app. simpl in Hm.
      destruct new; simpl in *; lia.
    + set (R' := concat (bfs_levels fuel G new (seen ++ new))) in *.
      change (concat (level :: bfs_levels fuel G new (seen ++ new)))
        with (level ++ R').
      split; [|split; [|split; [|split]]].
      * apply NoDup_app; auto. intros x Hl Hx.
        destruct (R2 x Hx) as [H | H].
        -- apply (Hdisj x H). now apply Hlev.
        -- apply H, in_app_iff. left. now apply Hlev.
      * intros x Hx. apply in_app_iff in Hx.
        destruct Hx as [Hx | Hx]; [now left | right].
        destruct (R2 x Hx) as [H | H]; [now apply Hdisj|].
        intros Hc. apply H, in_app_iff. now left.
      * intros x Hx. apply in_app_iff. now left.
      * intros u Hu w Hw.
        assert (Hu' : In u (seen ++ new) \/ In u R').
        { destruct Hu as [Hu | Hu].
          - left. apply in_app_iff. now left.
          - apply in_app_iff in Hu. destruct Hu as [Hu | Hu]; [|now right].
            left. apply in_app_iff. left. now apply Hlev. }
        destruct (R4 u Hu' w Hw) as [H | H].
        -- apply in_app_iff in H. destruct H as [H | H]; [now left | right].
           apply in_app_iff. right. now apply R3.
        -- right. apply in_app_iff. now right.
      * intros x Hx. apply in_app_iff in Hx. destruct Hx as [Hx | Hx].
        -- exists x. split; [assumption | apply rt_refl].
        -- destruct (R5 x Hx) as [u [Hu Hr]]. apply Hin in Hu.
           destruct Hu as [[u0 [Hu0 Hadj]] _].
           exists u0. split; auto.
           eapply rt_trans; [apply rt_step; exact Hadj | exact Hr].
Qed.

(** The search from a node of the graph returns exactly the nodes it
    reaches, each once. *)
Lemma bfs_reach (v : node) :
  In v (nodes G) ->
  NoDup (concat (bfs G v)) /\
  forall x, In x (concat (bfs G v)) <-> reach G v x.
Proof.
  intros Hv. unfold bfs.
  destruct (bfs_levels_spec (length G) [v] [v]) as (R1 & R2 & R3 & R4 & R5).
  - repeat constructor. intros [].
  - intros x [<- | []]. assumption.
  - intros x Hx. exact Hx.
  - repeat constructor. intros [].
  - intros u Hu Hnu. contradiction.
  - simpl. lia.
  - split; [assumption|]. intros x. split.
    + intros Hx. destruct (R5 x Hx) as [u [[<- | []] Hr]]. exact Hr.
    + intros Hr.
      apply (reach_closed (fun y => In y (concat (bfs_levels (length G) G [v] [v])))
                          v x); auto.
      * intros y w Hy Hw. destruct (R4 y (or_intror Hy) w Hw) as [[<- | []] | H];
          auto. apply R3. now left.
      * apply R3. now left.
Qed.

End BFS.

(** ** Connected components *)

Lemma sum_len_concat (cs : list (list node)) :
  sumZ (map (fun c => len c) cs) = Z.of_nat (length (concat cs)).
Proof.
  induction cs as [|c cs IH]; simpl; auto.
  rewrite length_app, IH. unfold len. lia.
Qed.

Lemma NoDup_app_disjoint {A} (l1 l2 : list A) :
  NoDup (l1 ++ l2) -> forall x, In x l1 -> ~ In x l2.
Proof.
  induction l1 as [|a l1 IH]; simpl; intros H x Hx; [contradiction|].
  inversion H as [|? ? Ha Hnd]; subst. destruct Hx as [<- | Hx].
  - intros Hc. apply Ha, in_app_iff. now right.
  - now apply IH.
Qed.

Lemma NoDup_concat_disjoint (cs : list (list node)) :
  NoDup (concat cs) -> ForallOrdPairs disjoint cs.
Proof.
  induction cs as [|c cs IH]; simpl; intros H; constructor.
  - rewrite Forall_forall. intros c' Hc' x Hx Hx'.
    apply (NoDup_app_disjoint _ _ H x Hx).
    apply in_concat. eauto.
  - apply IH. now apply NoDup_app_remove_l in H.
Qed.

Lemma components_from_spec (G : Graph) (Hwf : wf G) :
  forall vs seen,
    incl vs (nodes G) ->
    (forall x y, In x seen -> reach G x y -> In y seen) ->
    let cs := components_from G vs seen in
    NoDup (concat cs) /\
    (forall x, In x (concat cs) <->
               ~ In x seen /\ exists v, In v vs /\ reach G v x) /\
    Forall (fun c => NoDup c /\ c <> []) cs /\
    (forall c u, In c cs -> In u c -> forall v, In v c <-> reach G u v).
Proof.
  induction vs as [|v vs IH]; intros seen Hvs Hcl.
  - simpl. split; [constructor|]. split; [|split; [constructor|]].
    + intros x. split; [intros [] | intros [_ [v [[] _]]]].
    + intros c u [].
  - assert (Hv : In v (nodes G)) by (apply Hvs; now left).
    assert (Hvs' : incl vs (nodes G)) by (intros x Hx; apply Hvs; now right).
    simpl. destruct (mem v seen) eqn:E.
    + apply mem_In in E.
      destruct (IH seen Hvs' Hcl) as (I1 & I2 & I3 & I4).
      split; [assumption|]. split; [|split; assumption].
      intros x. rewrite I2. split.
      * intros [Hs [u [Hu Hr]]]. split; [assumption|].
        exists u. split; [now right | assumption].
      * intros [Hs [u [[<- | Hu] Hr]]].
        -- exfalso. apply Hs. eapply Hcl; eauto.
        -- split; [assumption|]. exists u. split; assumption.
    + apply mem_false in E.
      destruct (bfs_reach G Hwf v Hv) as [Hnd Hreach].
      set (c := concat (bfs G v)) in *.
      assert (Hcl' : forall x y, In x (c ++ seen) -> reach G x y ->
                                 In y (c ++ seen)).
      { intros x y Hx Hr. apply in_app_iff in Hx. apply in_app_iff.
        destruct Hx as [Hx | Hx].
        - left. apply Hreach. apply Hreach in Hx.
          eapply rt_trans; eauto.
        - right. eapply Hcl; eauto. }
      destruct (IH (c ++ seen) Hvs' Hcl') as (I1 & I2 & I3 & I4).
      cbv zeta. simpl concat.
      split; [|split; [|split]].
      * apply NoDup_app; auto. intros x Hx Hx'. apply I2 in Hx'.
        apply (proj1 Hx'), in_app_iff. now left.
      * intros x. rewrite in_app_iff, I2, in_app_iff. split.
        -- intros [Hx | [Hs [u [Hu Hr]]]].
           ++ split.
              ** intros Hs. apply E. eapply Hcl; eauto.
                 apply (reach_sym G Hwf). now apply Hreach.
              ** exists v. split; [now left | now apply Hreach].
           ++ split; [tauto|]. exists u. split; [now right | assumption].
        -- intros [Hs [u [[<- | Hu] Hr]]].
           ++ left. now apply Hreach.
           ++ destruct (in_dec Z.eq_dec x c) as [Hc | Hc]; [now left | right].
              split; [tauto|]. exists u. auto.
      * constructor; auto. split; auto.
        intros Hc. assert (Hvc : In v c) by (apply Hreach, rt_refl).
        rewrite Hc in Hvc. destruct Hvc.
      * intros c' u [<- | Hc'] Hu w.
        -- rewrite Hreach. apply Hreach in Hu. split; intros Hr.
           ++ eapply rt_trans; [apply (reach_sym G Hwf); exact Hu | exact Hr].
           ++ eapply rt_trans; eauto.
        -- now apply I4.
Qed.

Lemma connected_components_partitions (G : Graph) :
  wf G -> partitions G (connected_components G).
Proof.
  intros Hwf. unfold connected_components.
  destruct (components_from_spec G Hwf (nodes G) [])
    as (I1 & I2 & I3 & I4).
  - intros x Hx. exact Hx.
  - intros x y [].
  - set (cs := components_from G (nodes G) []) in *.
    assert (Hiff : forall x, In x (nodes G) <-> In x (concat cs)).
    { intros x. rewrite I2. split.
      - intros Hx. split; [tauto|]. exists x. split; auto. apply rt_refl.
      - intros [_ [v [Hv Hr]]]. eapply (reach_nodes G Hwf); eauto. }
    split; [now apply NoDup_concat_disjoint|].
    split; [assumption|]. split; [|split; [assumption|]].
    + intros x. rewrite Hiff. rewrite in_concat. split.
      * intros [c [Hc Hx]]. exists c. auto.
      * intros [c [Hc Hx]]. exists c. auto.
    + rewrite sum_len_concat. unfold number_of_nodes. f_equal.
      assert (Hp : Permutation (concat cs) (nodes G)).
      { apply NoDup_Permutation; auto; [apply (wf_keys G Hwf)|].
        intros x. symmetry. apply Hiff. }
      rewrite (Permutation_length Hp). unfold nodes. apply length_map.
Qed.

(** ** Adding edges *)

Lemma In_add_nb (w x : node) (l : list node) :
  In x (add_nb w l) <-> x = w \/ In x l.
Proof.
  unfold add_nb. destruct (mem w l) eqn:E.
  - apply mem_In in E. split; [auto | intros [-> | H]; auto].
  - rewrite in_app_iff. simpl. intuition.
Qed.

Lemma NoDup_add_nb (w : node) (l : list node) :
  NoDup l -> NoDup (add_nb w l).
Proof.
  intros H. unfold add_nb. destruct (mem w l) eqn:E; auto.
  apply mem_false in E. apply NoDup_app; auto.
  - repeat constructor. intros [].
  - intros x Hx [<- | []]. contradiction.
Qed.

Lemma add_edge_ok (G : Graph) (u v : node) :
  u <> v -> In u (nodes G) -> In v (nodes G) ->
  add_edge G u v =
  Return (map (fun e =>
                 if fst e =? u then (fst e, add_nb v (snd e))
                 else if fst e =? v then (fst e, add_nb u (snd e))
                 else e) G).
Proof.
  intros Hne Hu Hv. unfold add_edge.
  destruct (Z.eqb_spec u v); [contradiction|].
  apply mem_In in Hu, Hv. now rewrite Hu, Hv.
Qed.

Lemma adj_map_entry (f : node * list node -> node * list node)
  (G : Graph) (x : node) :
  (forall e, fst (f e) = fst e) ->
  adj (map f G) x =
  if mem x (nodes G) then snd (f (x, adj G x)) else [].
Proof.
  intros Hf. induction G as [|[y nb] G IH]; simpl; auto.
  rewrite mem_cons.
  pose proof (Hf (y, nb)) as Hy. destruct (f (y, nb)) as [y' nb'] eqn:E.
  simpl in Hy. subst y'.
  destruct (Z.eqb_spec y x) as [->|Hyx].
  - rewrite Z.eqb_refl. simpl. now rewrite E.
  - destruct (Z.eqb_spec x y); [congruence|]. simpl. exact IH.
Qed.

Lemma relink_fst (u v : node) (e : node * list node) :
  fst (if fst e =? u then (fst e, add_nb v (snd e))
       else if fst e =? v then (fst e, add_nb u (snd e))
       else e) = fst e.
Proof.
  destruct (fst e =? u); [reflexivity|].
  destruct (fst e =? v); reflexivity.
Qed.

Lemma add_edge_inv (G G' : Graph) (u v : node) :
  add_edge G u v = Return G' ->
  u <> v /\ In u (nodes G) /\ In v (nodes G) /\
  nodes G' = nodes G /\
  (forall x, adj G' x =
             if x =? u then add_nb v (adj G u)
             else if x =? v then add_nb u (adj G v)
             else adj G x).
Proof.
  unfold add_edge. destruct (Z.eqb_spec u v) as [|Hne]; [discriminate|].
  destruct (mem u (nodes G)) eqn:Eu; [|discriminate].
  destruct (mem v (nodes G)) eqn:Ev; [|discriminate].
  simpl. intros H. injection H as <-.
  split; [assumption|]. split; [now apply mem_In|].
  split; [now apply mem_In|]. split.
  - unfold nodes. rewrite map_map. apply map_ext.
    intros e. apply relink_fst.
  - intros x. rewrite adj_map_entry.
    + simpl. destruct (Z.eqb_spec x u) as [->|Hxu].
      * now rewrite Eu.
      * destruct (Z.eqb_spec x v) as [->|Hxv]; [now rewrite Ev|].
        destruct (mem x (nodes G)) eqn:Ex; [reflexivity|].
        apply mem_false in Ex. symmetry. now apply adj_not_node.
    + intros e. apply relink_fst.
Qed.

Lemma adj_add_edge_mono (G G' : Graph) (u v a b : node) :
  add_edge G u v = Return G' -> In b (adj G a) -> In b (adj G' a).
Proof.
  intros H Hb. destruct (add_edge_inv G G' u v H) as (_ & _ & _ & _ & Hadj).
  rewrite Hadj. destruct (Z.eqb_spec a u) as [->|].
  - apply In_add_nb. now right.
  - destruct (Z.eqb_spec a v) as [->|]; [|assumption].
    apply In_add_nb. now right.
Qed.

Lemma wf_add_edge (G G' : Graph) (u v : node) :
  wf G -> add_edge G u v = Return G' -> wf G'.
Proof.
  intros [Hk Hc Hs Hn] H.
  destruct (add_edge_inv G G' u v H) as (Hne & Hu & Hv & Hnodes & Hadj).
  constructor.
  - now rewrite Hnodes.
  - intros a b. rewrite Hnodes, Hadj.
    destruct (a =? u); [|destruct (a =? v)]; rewrite ?In_add_nb;
      intros Hb; try destruct Hb as [-> | Hb]; eauto.
  - intros a b. rewrite (Hadj a).
    destruct (Z.eqb_spec a u) as [->|Hau];
      [|destruct (Z.eqb_spec a v) as [->|Hav]]; rewrite ?In_add_nb.
    + intros [-> | Hb].
      * rewrite Hadj. destruct (Z.eqb_spec v u); [congruence|].
        rewrite Z.eqb_refl. apply In_add_nb. now left.
      * eapply adj_add_edge_mono; eauto.
    + intros [-> | Hb].
      * rewrite Hadj. rewrite Z.eqb_refl. apply In_add_nb. now left.
      * eapply adj_add_edge_mono; eauto.
    + intros Hb. eapply adj_add_edge_mono; eauto.
  - intros a. rewrite Hadj.
    destruct (a =? u); [|destruct (a =? v)]; auto using NoDup_add_nb.
Qed.

(** ** Ranges and the empty graph *)

Lemma In_range_from (k : nat) (start x : Z) :
  In x (range_from k start) <-> start <= x < start + Z.of_nat k.
Proof.
  revert start. induction k as [|k IH]; intros start.
  - simpl. lia.
  - cbn [range_from In]. rewrite IH. lia.
Qed.

Lemma NoDup_range_from (k : nat) (start : Z) : NoDup (range_from k start).
Proof.
  revert start. induction k as [|k IH]; intros start; simpl; constructor.
  - rewrite In_range_from. lia.
  - apply IH.
Qed.

Lemma length_range_from (k : nat) (start : Z) :
  length (range_from k start) = k.
Proof.
  revert start. induction k as [|k IH]; intros start; simpl; auto.
Qed.

Lemma sorted_range_from (k : nat) (start : Z) :
  StronglySorted Z.lt (range_from k start).
Proof.
  revert start. induction k as [|k IH]; intros start; simpl; constructor.
  - apply IH.
  - rewrite Forall_forall. intros x Hx. apply In_range_from in Hx. lia.
Qed.

Lemma In_range (n x : Z) : In x (range n) <-> 0 <= x < n.
Proof. unfold range. rewrite In_range_from. lia. Qed.

Lemma nodes_create (n : Z) : nodes (create n) = range n.
Proof.
  unfold create, nodes. rewrite map_map. simpl. apply map_id.
Qed.

Lemma adj_create (n : Z) (v : node) : adj (create n) v = [].
Proof.
  unfold create. induction (range n) as [|x l IH]; simpl; auto.
  destruct (x =? v); auto.
Qed.

Lemma wf_create (n : Z) : wf (create n).
Proof.
  constructor.
  - rewrite nodes_create. apply NoDup_range_from.
  - intros u v. rewrite adj_create. intros [].
  - intros u v. rewrite adj_create. intros [].
  - intros u. rewrite adj_create. constructor.
Qed.

Lemma length_create (n : Z) : 0 <= n -> number_of_nodes (create n) = n.
Proof.
  intros H. unfold number_of_nodes, create, range.
  rewrite length_map, length_range_from. lia.
Qed.

(** ** The Erdos-Renyi generator *)

Lemma In_all_pairs (n v w : Z) :
  In (v, w) (all_pairs n) -> 0 <= w < v /\ v < n.
Proof.
  unfold all_pairs. rewrite in_flat_map. intros [x [Hx Hp]].
  apply in_map_iff in Hp. destruct Hp as [y [E Hy]].
  injection E as <- <-. apply In_range in Hx, Hy. lia.
Qed.

Lemma gnp_pairs_ok (pairs : list (Z * Z)) :
  forall skip s G,
    wf G ->
    (forall v w, In (v, w) pairs ->
                 v <> w /\ In v (nodes G) /\ In w (nodes G)) ->
    exists G' s',
      gnp_pairs pairs skip s G = Return (G', s') /\
      wf G' /\ nodes G' = nodes G.
Proof.
  induction pairs as [|[v w] pairs IH]; intros skip s G Hwf Hp; simpl.
  - exists G, s. auto.
  - assert (Hp' : forall G', nodes G' = nodes G ->
                   forall v0 w0, In (v0, w0) pairs ->
                     v0 <> w0 /\ In v0 (nodes G') /\ In w0 (nodes G')).
    { intros G' E v0 w0 H. rewrite E. apply Hp. now right. }
    destruct (skip <=? 0).
    + destruct (Hp v w (or_introl eq_refl)) as (Hne & Hv & Hw).
      pose proof (add_edge_ok G v w Hne Hv Hw) as Hadd.
      rewrite Hadd. simpl.
      match type of Hadd with _ = Return ?X => set (G1 := X) in * end.
      assert (Hwf1 : wf G1) by (eapply wf_add_edge; eauto).
      assert (Hn1 : nodes G1 = nodes G)
        by (apply (add_edge_inv G G1 v w Hadd)).
      destruct (IH (hd 0 s) (tl s) G1 Hwf1 (Hp' G1 Hn1))
        as [G' [s' (E & Hwf' & Hn')]].
      exists G', s'. rewrite E. split; [reflexivity|]. split; [assumption|].
      congruence.
    + destruct (IH (skip - 1) s G Hwf (Hp' G eq_refl))
        as [G' [s' (E & Hwf' & Hn')]].
      exists G', s'. auto.
Qed.

Lemma erdos_renyi_ok (n : Z) (p : Q) (s : Rng) :
  0 <= n -> (0 <= p)%Q -> (p <= 1)%Q ->
  exists G s',
    erdos_renyi n p s = Return (G, s') /\ wf G /\ nodes G = range n.
Proof.
  intros Hn H0 H1. unfold erdos_renyi.
  destruct (Z.ltb_spec n 0); [lia|].
  apply Qle_bool_iff in H0, H1. rewrite H0, H1. simpl.
  assert (Hpairs : forall v w, In (v, w) (all_pairs n) ->
            v <> w /\ In v (nodes (create n)) /\ In w (nodes (create n))).
  { intros v w Hvw. apply In_all_pairs in Hvw.
    rewrite nodes_create, !In_range. lia. }
  destruct (Qle_bool p 0).
  - exists (create n), s. split; [reflexivity|].
    split; [apply wf_create | apply nodes_create].
  - destruct (Qle_bool 1 p).
    + destruct (gnp_pairs_ok (all_pairs n) 0 [] (create n)
                  (wf_create n) Hpairs) as [G [s' (E & Hwf & Hnodes)]].
      rewrite E. simpl. exists G, s. split; [reflexivity|].
      split; [assumption|]. now rewrite Hnodes, nodes_create.
    + destruct (gnp_pairs_ok (all_pairs n) (hd 0 s) (tl s) (create n)
                  (wf_create n) Hpairs) as [G [s' (E & Hwf & Hnodes)]].
      exists G, s'. split; [exact E|].
      split; [assumption|]. now rewrite Hnodes, nodes_create.
Qed.

(** ** Checking concrete graphs *)

Lemma nodupb_sound (l : list node) : nodupb l = true -> NoDup l.
Proof.
  induction l as [|x l IH]; simpl; intros H; constructor.
  - apply andb_true_iff in H. destruct H as [H _].
    apply negb_true_iff in H. now apply mem_false.
  - apply IH. apply andb_true_iff in H. tauto.
Qed.

Lemma adj_lookup (G : Graph) (u v : node) :
  In v (adj G u) -> In (u, adj G u) G.
Proof.
  induction G as [|[x nb] G IH]; simpl; [intros []|].
  destruct (Z.eqb_spec x u) as [->|]; [now left | right; auto].
Qed.

Lemma wf_check_sound (G : Graph) : wf_check G = true -> wf G.
Proof.
  unfold wf_check. rewrite andb_true_iff, forallb_forall.
  intros [Hk He].
  assert (H : forall u v, In v (adj G u) ->
            NoDup (adj G u) /\ In v (nodes G) /\ In u (adj G v)).
  { intros u v Hv. specialize (He _ (adj_lookup G u v Hv)). simpl in He.
    apply andb_true_iff in He. destruct He as [H1 H2].
    rewrite forallb_forall in H2. specialize (H2 v Hv).
    apply andb_true_iff in H2. destruct H2 as [H2 H3].
    split; [now apply nodupb_sound|]. split; now apply mem_In. }
  constructor.
  - now apply nodupb_sound.
  - intros u v Hv. now apply (H u v).
  - intros u v Hv. now apply (H u v).
  - intros u. destruct (adj G u) as [|v l] eqn:E; [constructor|].
    rewrite <- E. apply (H u v). rewrite E. now left.
Qed.

(** ** Histograms and the experiment *)

Lemma sumZ_app (l1 l2 : list Z) : sumZ (l1 ++ l2) = sumZ l1 + sumZ l2.
Proof. induction l1 as [|x l1 IH]; simpl; lia. Qed.

Lemma counter_add_totals (k : Z) (c : list (Z * Z)) :
  weighted_total (counter_add k c) = weighted_total c + k /\
  total_count (counter_add k c) = total_count c + 1.
Proof.
  unfold weighted_total, total_count.
  induction c as [|[k' v] c IH]; simpl.
  - lia.
  - destruct (Z.eqb_spec k' k) as [->|]; simpl; lia.
Qed.

Lemma Counter_totals (l : list Z) :
  weighted_total (Counter l) = sumZ l /\
  total_count (Counter l) = Z.of_nat (length l).
Proof.
  unfold Counter.
  assert (H : forall c,
             weighted_total (fold_left (fun c k => counter_add k c) l c)
             = weighted_total c + sumZ l /\
             total_count (fold_left (fun c k => counter_add k c) l c)
             = total_count c + Z.of_nat (length l)).
  { induction l as [|k l IH]; intros c.
    - simpl. lia.
    - cbn [fold_left sumZ fold_right length].
      destruct (IH (counter_add k c)) as [I1 I2].
      destruct (counter_add_totals k c) as [C1 C2].
      rewrite I1, I2, C1, C2. fold (sumZ l). lia. }
  destruct (H []) as [H1 H2]. rewrite H1, H2. split; reflexivity.
Qed.

Lemma number_of_nodes_nodes (G : Graph) :
  number_of_nodes G = Z.of_nat (length (nodes G)).
Proof. unfold number_of_nodes, nodes. now rewrite length_map. Qed.

Lemma get_network_random_ok (N AVG_K : Z) (s : Rng) :
  2 <= N -> 0 <= AVG_K <= N - 1 ->
  exists G s',
    get_network N AVG_K true s = Return (G, s') /\
    wf G /\ nodes G = range N /\ number_of_nodes G = N.
Proof.
  intros HN HK. unfold get_network, truediv.
  destruct (Z.eqb_spec (N - 1) 0); [lia|].
  destruct (Z.ltb_spec 0 (N - 1)); [|lia]. simpl.
  destruct (erdos_renyi_ok N (AVG_K # Z.to_pos (N - 1)) s)
    as [G [s' (E & Hwf & Hn)]].
  - lia.
  - unfold Qle. simpl. lia.
  - unfold Qle. simpl. rewrite Z2Pos.id by lia. lia.
  - unfold RandomNetwork_init. rewrite E. simpl.
    exists G, s'. split; [reflexivity|]. split; [assumption|].
    split; [assumption|].
    rewrite number_of_nodes_nodes, Hn. unfold range.
    rewrite length_range_from. lia.
Qed.

Lemma component_sizes_total (G : Graph) :
  wf G -> sumZ (ClusterSizes.get_component_sizes G) = number_of_nodes G.
Proof.
  intros Hwf. apply (connected_components_partitions G Hwf).
Qed.

Lemma removed_count (G : Graph) (vs : list node) :
  NoDup (nodes G) -> NoDup vs -> incl vs (nodes G) ->
  number_of_nodes (remove_nodes_from G vs) =
  number_of_nodes G - Z.of_nat (length vs).
Proof.
  intros Hnd Hvs Hincl.
  rewrite !number_of_nodes_nodes, nodes_remove_nodes_from.
  pose proof (filter_out_length (nodes G) vs Hnd Hvs Hincl). lia.
Qed.

Lemma targeted_removal_shape (G : Graph) (f : Q) :
  NoDup (nodes G) -> (0 <= f)%Q -> (f <= 1)%Q ->
  exists removed,
    Removal.targeted_removal G f = Return (remove_nodes_from G removed) /\
    NoDup removed /\ incl removed (nodes G) /\
    Z.of_nat (length removed) = Qfloor (f * inject_Z (number_of_nodes G)).
Proof.
  intros Hnd H0 H1.
  destruct (count_bounds f (number_of_nodes G) H0 H1) as [Hint [Hlo Hhi]];
    [unfold number_of_nodes; lia|].
  set (k := Qfloor (f * inject_Z (number_of_nodes G))) in *.
  exists (Components.get_hubs G k).
  split; [unfold Removal.targeted_removal; now rewrite Hint|].
  destruct (get_hubs_ranking G (Z.to_nat k) Hnd) as (R1 & R2 & R3 & _).
  rewrite Z2Nat.id in R1, R2, R3 by lia.
  split; [assumption|]. split; [assumption|].
  rewrite R3. unfold number_of_nodes in Hhi. lia.
Qed.

Lemma random_removal_shape (G : Graph) (f : Q) (s : Rng) :
  NoDup (nodes G) -> (0 <= f)%Q -> (f <= 1)%Q ->
  exists removed s',
    Removal.random_removal G f s = Return (remove_nodes_from G removed, s') /\
    NoDup removed /\ incl removed (nodes G) /\
    Z.of_nat (length removed) = Qfloor (f * inject_Z (number_of_nodes G)).
Proof.
  intros Hnd H0 H1.
  destruct (count_bounds f (number_of_nodes G) H0 H1) as [Hint [Hlo Hhi]];
    [unfold number_of_nodes; lia|].
  pose proof (shuffle_perm (nodes G) s) as Hperm.
  unfold Removal.random_removal.
  destruct (shuffle (nodes G) s) as [nodes1 s1]. simpl in Hperm.
  rewrite Hint.
  set (k := Qfloor (f * inject_Z (number_of_nodes G))) in *.
  assert (Hslice : Py.slice_to nodes1 k = firstn (Z.to_nat k) nodes1).
  { rewrite <- (Z2Nat.id k) at 1 by lia. apply slice_to_nat. }
  rewrite Hslice.
  exists (firstn (Z.to_nat k) nodes1), s1.
  assert (Hnd1 : NoDup nodes1) by (eapply Permutation_NoDup; eauto).
  split; [reflexivity|]. split; [now apply NoDup_firstn|]. split.
  - intros x Hx. eapply Permutation_in; [symmetry; exact Hperm|].
    eapply firstn_incl; eauto.
  - rewrite length_firstn, <- (Permutation_length Hperm).
    rewrite number_of_nodes_nodes in Hhi. lia.
Qed.

Lemma trials_total (k : nat) (N AVG_K : Z) (targeted : bool) (f : Q) :
  2 <= N -> 0 <= AVG_K <= N - 1 -> (0 <= f)%Q -> (f <= 1)%Q ->
  forall init s,
  exists res s',
    Experiment.trials k N AVG_K targeted true f init s = Return (res, s') /\
    sumZ res = sumZ init + Z.of_nat k * (N - Qfloor (f * inject_Z N)) /\
    (length init <= length res)%nat.
Proof.
  intros HN HK H0 H1. induction k as [|k IH]; intros init s.
  - exists init, s. simpl. split; [reflexivity|]. split; lia.
  - cbn [Experiment.trials].
    destruct (get_network_random_ok N AVG_K s HN HK)
      as [G [s1 (E & Hwf & Hnodes & Hn)]].
    rewrite E. cbn [bind fst snd].
    assert (Hnd : NoDup (nodes G)) by apply (wf_keys G Hwf).
    assert (Hpruned : exists removed s2,
      (if targeted
       then G_pruned <- Removal.targeted_removal G f ;; Return (G_pruned, s1)
       else Removal.random_removal G f s1)
      = Return (remove_nodes_from G removed, s2) /\
      NoDup removed /\ incl removed (nodes G) /\
      Z.of_nat (length removed) = Qfloor (f * inject_Z (number_of_nodes G))).
    { destruct targeted.
      - destruct (targeted_removal_shape G f Hnd H0 H1) as [r (Er & Hr)].
        exists r, s1. rewrite Er. split; [reflexivity | exact Hr].
      - destruct (random_removal_shape G f s1 Hnd H0 H1)
          as [r [s2 (Er & Hr)]].
        exists r, s2. split; assumption. }
    destruct Hpruned as [removed [s2 (Ep & Hr1 & Hr2 & Hr3)]].
    rewrite Ep. cbn [bind fst snd].
    destruct (IH (init ++ ClusterSizes.get_component_sizes
                            (remove_nodes_from G removed)) s2)
      as [res [s' (Et & Hsum & Hlen)]].
    exists res, s'. split; [exact Et|].
    rewrite sumZ_app, component_sizes_total in Hsum
      by (now apply wf_remove_nodes_from).
    rewrite removed_count in Hsum by assumption.
    rewrite length_app in Hlen. rewrite Hn in Hr3. split; lia.
Qed.

Lemma sweep_totals (fractions : list Q) (N AVG_K : Z) (targeted : bool)
  (iterations : Z) :
  2 <= N -> 0 <= AVG_K <= N - 1 -> 0 <= iterations ->
  Forall (fun f => (0 <= f)%Q /\ (f <= 1)%Q) fractions ->
  forall size s,
  exists hs s',
    Experiment.sweep fractions N AVG_K targeted true iterations size s
    = Return (size ++ hs, s') /\
    Forall2 (fun f h =>
               weighted_total h
               = iterations * (N - Qfloor (f * inject_Z N))) fractions hs.
Proof.
  intros HN HK Hi. induction 1 as [|f fs [H0 H1] _ IH]; intros size s.
  - exists [], s. simpl. rewrite app_nil_r. split; [reflexivity | constructor].
  - cbn [Experiment.sweep].
    destruct (trials_total (Z.to_nat iterations) N AVG_K targeted f
                HN HK H0 H1 [] s) as [res [s1 (Et & Hsum & _)]].
    rewrite Et. cbn [bind fst snd].
    destruct (IH (size ++ [Counter res]) s1) as [hs [s' (Es & Hall)]].
    exists (Counter res :: hs), s'. split.
    + rewrite Es, <- app_assoc. reflexivity.
    + constructor; [|exact Hall].
      rewrite (proj1 (Counter_totals res)), Hsum.
      change (sumZ []) with 0. rewrite Z2Nat.id by lia. lia.
Qed.

(** ** Component statistics *)

Lemma StronglySorted_True {A} (l : list A) :
  StronglySorted (fun _ _ => True) l.
Proof.
  induction l; constructor; auto. rewrite Forall_forall. auto.
Qed.

Lemma sumZ_perm (l1 l2 : list Z) :
  Permutation l1 l2 -> sumZ l1 = sumZ l2.
Proof. induction 1; simpl; lia. Qed.

Lemma connected_components_nonempty (G : Graph) :
  G <> [] -> connected_components G <> [].
Proof.
  destruct G as [|[v nb] G]; [congruence|]. intros _.
  unfold connected_components. simpl.
  change (mem v []) with false. cbv iota. discriminate.
Qed.

(** ** Components, statistics and the histogram: the claims *)

(** C6: on a well-formed graph, and on whatever is left of it after a
    removal, the components returned are pairwise disjoint, their union
    is the remaining node set, and the sizes reported by
    [get_component_sizes] add up to the remaining node count. *)
Theorem components_partition_nodes (G : Graph) (removed : list node) :
  wf G ->
  partitions G (connected_components G) /\
  sumZ (ClusterSizes.get_component_sizes G) = number_of_nodes G /\
  partitions (remove_nodes_from G removed)
             (connected_components (remove_nodes_from G removed)) /\
  sumZ (ClusterSizes.get_component_sizes (remove_nodes_from G removed))
  = number_of_nodes (remove_nodes_from G removed).
Proof.
  intros Hwf.
  pose proof (wf_remove_nodes_from G removed Hwf) as Hwf'.
  split; [now apply connected_components_partitions|].
  split; [now apply component_sizes_total|].
  split; [now apply connected_components_partitions|].
  now apply component_sizes_total.
Qed.

Lemma components_partition_nodes_witness :
  partitions cycle6 (connected_components cycle6) /\
  sumZ (ClusterSizes.get_component_sizes cycle6) = number_of_nodes cycle6 /\
  partitions (remove_nodes_from cycle6 [0; 3])
             (connected_components (remove_nodes_from cycle6 [0; 3])) /\
  sumZ (ClusterSizes.get_component_sizes (remove_nodes_from cycle6 [0; 3]))
  = number_of_nodes (remove_nodes_from cycle6 [0; 3]).
Proof.
  apply (components_partition_nodes cycle6 [0; 3]).
  apply wf_check_sound. reflexivity.
Defined.

(** C7: [get_component_sizes] of components.py returns on every graph.
    On the empty graph the giant fraction is 0; otherwise it is the size
    of a largest component over the node count. The mean of the other
    components is NaN when there are fewer than two components, and
    otherwise the mean of the sizes of all components but that largest
    one. *)
Theorem component_stats_defined (G : Graph) :
  let cs := connected_components G in
  exists (giant : Q) (mean : pyfloat),
    Robustness.get_component_sizes G = Return (giant, mean) /\
    (G = [] -> giant = (0 # 1)%Q /\ mean = NaN) /\
    ((length cs < 2)%nat -> mean = NaN) /\
    (G <> [] ->
     exists c, In c cs /\
       (forall c', In c' cs -> len c' <= len c) /\
       giant = (len c # Z.to_pos (number_of_nodes G))%Q /\
       ((2 <= length cs)%nat ->
        mean = Fin ((sumZ (map (fun c' => len c') cs) - len c)
                    # Pos.of_nat (length cs - 1)))).
Proof.
  intros cs. unfold Robustness.get_component_sizes. fold cs.
  pose proof (sorted_rev_perm (fun c => len c) cs) as Hperm.
  pose proof (sorted_rev_sorted (fun c => len c) (fun _ _ => True) cs
                (StronglySorted_True cs)) as Hsort.
  destruct (Py.sorted_rev (fun c => len c) cs) as [|c rest] eqn:Es.
  - (* no component: the graph is empty *)
    symmetry in Hperm. apply Permutation_nil in Hperm.
    assert (HG : G = []).
    { destruct G as [|e G']; auto. exfalso.
      apply (connected_components_nonempty (e :: G')); [discriminate|].
      exact Hperm. }
    exists (0 # 1)%Q, NaN. simpl. split; [reflexivity|].
    split; [auto|]. split; [auto|]. intros H. contradiction.
  - assert (HG : G <> []).
    { intros ->. unfold cs, connected_components in Hperm. simpl in Hperm.
      apply Permutation_nil in Hperm. discriminate. }
    assert (Hn : 0 < number_of_nodes G).
    { unfold number_of_nodes. destruct G; [congruence | simpl; lia]. }
    assert (Hlen : (0 <? len (c :: rest)) = true).
    { apply Z.ltb_lt. unfold len. simpl. lia. }
    rewrite Hlen. cbn [hd tl]. unfold truediv.
    destruct (Z.eqb_spec (number_of_nodes G) 0); [lia|].
    destruct (Z.ltb_spec 0 (number_of_nodes G)); [|lia].
    cbn [bind].
    exists (len c # Z.to_pos (number_of_nodes G))%Q,
           (np_mean (map (fun component => len component) rest)).
    split; [reflexivity|].
    pose proof (Permutation_length Hperm) as Hl. simpl in Hl.
    split; [intros; contradiction|]. split.
    + intros Hlt. destruct rest; [reflexivity | simpl in Hl; lia].
    + intros _. exists c. split.
      { eapply Permutation_in; [symmetry; exact Hperm | now left]. }
      split.
      { intros c' Hc'. eapply Permutation_in in Hc'; [|exact Hperm].
        destruct Hc' as [<- | Hc']; [lia|].
        inversion Hsort as [|? ? _ Hall]; subst.
        rewrite Forall_forall in Hall. specialize (Hall c' Hc').
        unfold stable_order in Hall. lia. }
      split; [reflexivity|].
      intros H2. destruct rest as [|c2 rest']; [simpl in Hl; lia|].
      unfold np_mean. cbn [map]. f_equal.
      assert (Hs : sumZ (map (fun c' => len c') cs)
                   = len c + sumZ (map (fun c' => len c') (c2 :: rest'))).
      { rewrite (sumZ_perm _ _ (Permutation_map _ Hperm)). reflexivity. }
      rewrite Hs, Hl.
      replace (len c + sumZ (map (fun c' => len c') (c2 :: rest')) - len c)
        with (sumZ (map (fun c' => len c') (c2 :: rest'))) by lia.
      cbn [map length]. rewrite length_map.
      replace (S (S (length rest')) - 1)%nat with (S (length rest')) by lia.
      reflexivity.
Qed.

(** C8, as stated, fails: when every generated network is the perfect
    matching on the 1000 nodes, the 50 hubs removed are the nodes 0..49
    and each trial leaves 475 components of size 2; the histogram of the
    fraction 0.05 is [{2: 4750}], whose bucket counts sum to 4750. *)
Lemma histogram_total_count_counterexample :
  exists h rest s',
    Experiment.run_component_sizes_experiment 1000 4 true true 10
      experiment_draws = Return (h :: rest, s') /\
    h = [(2, 4750)] /\
    total_count h <> 10 * (1000 - 50).
Proof.
  assert (E : match Experiment.run_component_sizes_experiment
                      1000 4 true true 10 experiment_draws with
              | Return (h :: _, _) => h
              | _ => []
              end = [(2, 4750)]) by (vm_compute; reflexivity).
  destruct (Experiment.run_component_sizes_experiment
              1000 4 true true 10 experiment_draws)
    as [[[|h rest] s']|e]; try discriminate.
  exists h, rest, s'. split; [reflexivity|]. split; [exact E|].
  rewrite E. vm_compute. discriminate.
Qed.

(** C8, amended: for every sequence of draws the experiment with
    n=1000, avg_degree=4, targeted removal and 10 iterations returns,
    for the fraction 0.05, a histogram in which the sum over the buckets
    of size times count is 10 * (1000 - 50): every remaining node is in
    exactly one component. *)
Theorem histogram_weighted_total (s : Rng) :
  exists h rest s',
    Experiment.run_component_sizes_experiment 1000 4 true true 10 s
    = Return (h :: rest, s') /\
    weighted_total h = 10 * (1000 - 50).
Proof.
  unfold Experiment.run_component_sizes_experiment.
  destruct (sweep_totals Experiment.fractions 1000 4 true 10) with
    (size := @nil (list (Z * Z))) (s := s) as [hs [s' (E & Hall)]];
    try lia.
  - unfold Experiment.fractions.
    repeat constructor; unfold Qle; simpl; lia.
  - rewrite E. simpl.
    inversion Hall as [|f h fs hs' Hh Hrest]; subst.
    exists h, hs', s'. split; [reflexivity|]. rewrite Hh.
    vm_compute. reflexivity.
Qed.

(** ** Diameter: the claim *)

Lemma draw_index_cases (r : Z) (k : nat) :
  (0 < k)%nat -> (draw_index r k < k)%nat.
Proof.
  intros Hk. unfold draw_index.
  pose proof (Z.mod_pos_bound r (Z.of_nat k)). lia.
Qed.

(** C9: with at least two searches allowed and whatever start node is
    drawn, the diameter of the largest component is 4 on the path of 5
    nodes, 1 on the complete graph of 5 nodes, 3 on the 6-cycle, 0 on a
    single node and 0 on the empty graph. *)
Theorem diameter_small_graphs (max_sweeps : nat) (s : Rng) :
  (2 <= max_sweeps)%nat ->
  Diam.diameter max_sweeps (Diam.get_largest_component path5) s
    = Return (4, tl s) /\
  Diam.diameter max_sweeps (Diam.get_largest_component complete5) s
    = Return (1, tl s) /\
  Diam.diameter max_sweeps (Diam.get_largest_component cycle6) s
    = Return (3, tl s) /\
  Diam.diameter max_sweeps (Diam.get_largest_component single) s
    = Return (0, s) /\
  Diam.diameter max_sweeps (Diam.get_largest_component []) s
    = Return (0, s).
Proof.
  intros Hb. destruct max_sweeps as [|[|b]]; try lia.
  change (Diam.get_largest_component path5) with path5.
  change (Diam.get_largest_component complete5) with complete5.
  change (Diam.get_largest_component cycle6) with cycle6.
  change (Diam.get_largest_component single) with single.
  change (Diam.get_largest_component []) with (@nil (node * list node)).
  unfold Diam.diameter.
  change (number_connected_components path5) with 1.
  change (number_connected_components complete5) with 1.
  change (number_connected_components cycle6) with 1.
  change (number_connected_components single) with 1.
  change (number_connected_components []) with 0.
  cbn [Z.eqb]. unfold Diam.approx_diameter, next, path5, complete5, cycle6,
    single. cbn [length nodes map fst].
  pose proof (draw_index_cases (hd 0 s) 5 ltac:(lia)) as H5.
  pose proof (draw_index_cases (hd 0 s) 6 ltac:(lia)) as H6.
  repeat split.
  - destruct (draw_index (hd 0 s) 5) as [|[|[|[|[|k]]]]]; try lia;
      destruct b as [|b]; reflexivity.
  - destruct (draw_index (hd 0 s) 5) as [|[|[|[|[|k]]]]]; try lia;
      destruct b as [|b]; reflexivity.
  - destruct (draw_index (hd 0 s) 6) as [|[|[|[|[|[|k]]]]]]; try lia;
      destruct b as [|b]; reflexivity.
Qed.

Lemma diameter_small_graphs_witness :
  Diam.diameter 2 (Diam.get_largest_component path5) [2]
    = Return (4, tl [2]) /\
  Diam.diameter 2 (Diam.get_largest_component complete5) [2]
    = Return (1, tl [2]) /\
  Diam.diameter 2 (Diam.get_largest_component cycle6) [2]
    = Return (3, tl [2]) /\
  Diam.diameter 2 (Diam.get_largest_component single) [2]
    = Return (0, [2]) /\
  Diam.diameter 2 (Diam.get_largest_component []) [2]
    = Return (0, [2]).
Proof.
  apply (diameter_small_graphs 2 [2]). lia.
Defined.


(** ** Sampling without replacement *)

Lemma filter_neq_length (x : node) (d : list node) :
  NoDup d ->
  (length d <= S (length (filter (fun y => negb (Z.eqb y x)) d)))%nat.
Proof.
  induction 1 as [|a d Ha Hnd IH]; simpl; [lia|].
  destruct (Z.eqb_spec a x) as [->|]; simpl; [|lia].
  assert (E : filter (fun y => negb (y =? x)) d = d).
  { clear - Ha. induction d as [|b d IH]; simpl; auto.
    destruct (Z.eqb_spec b x) as [->|]; simpl.
    - exfalso. apply Ha. now left.
    - f_equal. apply IH. intros H. apply Ha. now right. }
  rewrite E. apply Nat.le_refl.
Qed.

Lemma In_filter_neq (x y : node) (l : list node) :
  In y (filter (fun z => negb (z =? x)) l) <-> In y l /\ y <> x.
Proof.
  rewrite filter_In. destruct (Z.eqb_spec y x); simpl; intuition congruence.
Qed.

Lemma sample_ok (k : nat) :
  forall pool s d,
    NoDup d -> incl d pool -> (k <= length d)%nat ->
    exists ts s',
      sample k pool s = Return (ts, s') /\
      NoDup ts /\ incl ts pool /\ length ts = k.
Proof.
  induction k as [|k IH]; intros pool s d Hd Hincl Hk.
  - exists [], s. simpl. split; [reflexivity|]. split; [constructor|].
    split; [intros x []| reflexivity].
  - destruct pool as [|p0 pool'].
    { destruct d as [|a d]; [simpl in Hk; lia|].
      destruct (Hincl a). now left. }
    set (pool := p0 :: pool') in *.
    cbn [sample]. fold pool. unfold next. cbv zeta.
    set (x := nth (draw_index (hd 0 s) (length pool)) pool 0).
    assert (Hx : In x pool).
    { apply nth_In. apply draw_index_cases. simpl. lia. }
    destruct (IH (filter (fun y => negb (y =? x)) pool) (tl s)
                 (filter (fun y => negb (y =? x)) d))
      as [ts [s' (E & Hts & Hi & Hl)]].
    + now apply NoDup_filter.
    + intros y Hy. apply In_filter_neq in Hy. apply In_filter_neq.
      split; [apply Hincl|]; tauto.
    + apply le_S_n. eapply Nat.le_trans; [exact Hk|].
      apply filter_neq_length, Hd.
    + rewrite E. cbn [bind fst snd].
      exists (x :: ts), s'. split; [reflexivity|]. split.
      * constructor; auto. intros Hc. apply Hi, In_filter_neq in Hc. tauto.
      * split; [|simpl; lia].
        intros y [<- | Hy]; auto. apply Hi, In_filter_neq in Hy. tauto.
Qed.

(** ** Degrees under growth *)

Lemma degree_no_loop (G : Graph) (v : node) :
  no_loops G -> degree G v = Z.of_nat (length (adj G v)).
Proof.
  intros H. unfold degree.
  destruct (mem v (adj G v)) eqn:E; [|lia].
  apply mem_In in E. now destruct (H v).
Qed.

Lemma degree_sum_view (G : Graph) :
  NoDup (nodes G) -> sumZ (map degree_of G) = degree_sum G.
Proof.
  intros Hnd. unfold degree_sum, nodes. rewrite map_map.
  f_equal. apply map_ext_in. intros e He. now apply degree_entry.
Qed.

Lemma length_add_nb (w : node) (l : list node) :
  ~ In w l -> length (add_nb w l) = S (length l).
Proof.
  intros H. unfold add_nb. apply mem_false in H. rewrite H.
  rewrite length_app. simpl. lia.
Qed.

Lemma sum_indicator (u : node) (l : list node) :
  NoDup l -> In u l ->
  sumZ (map (fun x => if x =? u then 1 else 0) l) = 1.
Proof.
  induction 1 as [|a l Ha Hnd IH]; simpl; [intros []|].
  intros [-> | Hu].
  - rewrite Z.eqb_refl.
    assert (E : sumZ (map (fun x => if x =? u then 1 else 0) l) = 0).
    { clear - Ha. induction l as [|b l IH]; simpl; auto.
      destruct (Z.eqb_spec b u) as [->|].
      - exfalso. apply Ha. now left.
      - rewrite IH; auto. intros H. apply Ha. now right. }
    lia.
  - destruct (Z.eqb_spec a u) as [->|]; [contradiction|].
    rewrite IH by assumption. lia.
Qed.

Lemma sumZ_map_add (f g : node -> Z) (l : list node) :
  sumZ (map (fun x => f x + g x) l) = sumZ (map f l) + sumZ (map g l).
Proof. induction l as [|a l IH]; simpl; lia. Qed.

Lemma sum_mem_indicator (l ts : list node) :
  NoDup l -> NoDup ts -> incl ts l ->
  sumZ (map (fun x => if mem x ts then 1 else 0) l) = Z.of_nat (length ts).
Proof.
  intros Hl. induction 1 as [|t ts Ht Hnd IH]; intros Hincl.
  - clear. induction l as [|a l IHl]; [reflexivity|].
    cbn [map sumZ fold_right]. change (mem a []) with false. cbv iota.
    exact IHl.
  - assert (E : map (fun x => if mem x (t :: ts) then 1 else 0) l
              = map (fun x => (if x =? t then 1 else 0)
                              + (if mem x ts then 1 else 0)) l).
    { apply map_ext. intros x. rewrite mem_cons.
      destruct (Z.eqb_spec x t) as [->|]; simpl; [|reflexivity].
      apply mem_false in Ht. now rewrite Ht. }
    rewrite E, sumZ_map_add, sum_indicator, IH.
    + simpl length. lia.
    + intros x Hx. apply Hincl. now right.
    + assumption.
    + apply Hincl. now left.
Qed.

Lemma sum_scaled_indicator (u : node) (c : Z) (l : list node) :
  NoDup l -> In u l ->
  sumZ (map (fun x => if x =? u then c else 0) l) = c.
Proof.
  induction 1 as [|a l Ha Hnd IH]; simpl; [intros []|].
  intros [-> | Hu].
  - rewrite Z.eqb_refl.
    assert (E : sumZ (map (fun x => if x =? u then c else 0) l) = 0).
    { clear - Ha. induction l as [|b l IH]; simpl; auto.
      destruct (Z.eqb_spec b u) as [->|].
      - exfalso. apply Ha. now left.
      - rewrite IH; auto. intros H. apply Ha. now right. }
    lia.
  - destruct (Z.eqb_spec a u) as [->|]; [contradiction|].
    rewrite IH by assumption. lia.
Qed.

(** ** Adding a node *)

Lemma adj_app_isolated (G : Graph) (i x : node) :
  adj (G ++ [(i, [])]) x = adj G x.
Proof.
  induction G as [|[y nb] G IH]; simpl.
  - now destruct (i =? x).
  - destruct (y =? x); auto.
Qed.

Lemma add_node_new (G : Graph) (i : node) :
  ~ In i (nodes G) ->
  nodes (add_node G i) = nodes G ++ [i] /\
  (forall x, adj (add_node G i) x = adj G x).
Proof.
  intros Hi. unfold add_node. apply mem_false in Hi. rewrite Hi. split.
  - unfold nodes. now rewrite map_app.
  - intros x. apply adj_app_isolated.
Qed.

Lemma wf_add_node (G : Graph) (i : node) :
  wf G -> ~ In i (nodes G) -> wf (add_node G i).
Proof.
  intros [Hk Hc Hs Hn] Hi.
  destruct (add_node_new G i Hi) as [Hnodes Hadj].
  constructor.
  - rewrite Hnodes. apply NoDup_app; auto.
    + repeat constructor. intros [].
    + intros x Hx [<- | []]. contradiction.
  - intros u v. rewrite Hadj, Hnodes, in_app_iff. eauto.
  - intros u v. rewrite !Hadj. auto.
  - intros u. rewrite Hadj. auto.
Qed.

(** ** Adding new edges *)

Lemma add_edge_new (G G' : Graph) (u v : node) :
  wf G -> no_loops G -> add_edge G u v = Return G' -> ~ In v (adj G u) ->
  wf G' /\ no_loops G' /\ nodes G' = nodes G /\
  (forall a b, In b (adj G' a) <->
               In b (adj G a) \/ (a = u /\ b = v) \/ (a = v /\ b = u)) /\
  (forall x, degree G' x
             = degree G x + (if x =? u then 1 else 0)
               + (if x =? v then 1 else 0)).
Proof.
  intros Hwf Hnl H Hnew.
  pose proof (wf_add_edge G G' u v Hwf H) as Hwf'.
  destruct (add_edge_inv G G' u v H) as (Hne & Hu & Hv & Hnodes & Hadj).
  assert (Hnew' : ~ In u (adj G v))
    by (intros Hc; apply Hnew; now apply (wf_sym G Hwf)).
  assert (Hiff : forall a b, In b (adj G' a) <->
            In b (adj G a) \/ (a = u /\ b = v) \/ (a = v /\ b = u)).
  { intros a b. rewrite Hadj.
    destruct (Z.eqb_spec a u) as [->|Hau];
      [|destruct (Z.eqb_spec a v) as [->|Hav]]; rewrite ?In_add_nb.
    - intuition congruence.
    - intuition congruence.
    - intuition congruence. }
  assert (Hnl' : no_loops G').
  { intros x Hx. apply Hiff in Hx.
    destruct Hx as [Hx | [[-> Hx] | [-> Hx]]]; [now apply (Hnl x) | |];
      congruence. }
  split; [assumption|]. split; [assumption|]. split; [assumption|].
  split; [assumption|].
  intros x. rewrite !degree_no_loop by assumption. rewrite Hadj.
  destruct (Z.eqb_spec x u) as [->|Hxu].
  - destruct (Z.eqb_spec u v); [congruence|].
    rewrite length_add_nb by assumption. lia.
  - destruct (Z.eqb_spec x v) as [->|Hxv].
    + rewrite length_add_nb by assumption. lia.
    + lia.
Qed.

Lemma add_edges_from_new (u : node) (targets : list node) :
  forall G,
    wf G -> no_loops G -> In u (nodes G) ->
    NoDup targets -> incl targets (nodes G) -> ~ In u targets ->
    (forall t, In t targets -> ~ In t (adj G u)) ->
    exists G',
      add_edges_from G u targets = Return G' /\
      wf G' /\ no_loops G' /\ nodes G' = nodes G /\
      (forall a b, In b (adj G' a) <->
                   In b (adj G a) \/ (a = u /\ In b targets)
                   \/ (In a targets /\ b = u)) /\
      (forall x, degree G' x
                 = degree G x
                   + (if x =? u then Z.of_nat (length targets) else 0)
                   + (if mem x targets then 1 else 0)).
Proof.
  induction targets as [|t ts IH]; intros G Hwf Hnl Hu Hnd Hincl Hut Hnew.
  - exists G. simpl. split; [reflexivity|]. split; [assumption|].
    split; [assumption|]. split; [reflexivity|]. split.
    + intros a b. tauto.
    + intros x. change (mem x []) with false. destruct (x =? u); lia.
  - inversion Hnd as [|? ? Ht Hnd']; subst.
    assert (Hne : u <> t) by (intros ->; apply Hut; now left).
    assert (Htn : In t (nodes G)) by (apply Hincl; now left).
    cbn [add_edges_from].
    pose proof (add_edge_ok G u t Hne Hu Htn) as Hadd.
    match type of Hadd with _ = Return ?X => set (G1 := X) in * end.
    rewrite Hadd. cbn [bind].
    destruct (add_edge_new G G1 u t Hwf Hnl Hadd)
      as (Hwf1 & Hnl1 & Hn1 & Hiff1 & Hdeg1).
    { apply Hnew. now left. }
    destruct (IH G1) as [G' (E & Hwf' & Hnl' & Hn' & Hiff' & Hdeg')]; auto.
    + now rewrite Hn1.
    + rewrite Hn1. intros x Hx. apply Hincl. now right.
    + intros Hc. apply Hut. now right.
    + intros t' Ht' Hc. apply Hiff1 in Hc.
      destruct Hc as [Hc | [[_ ->] | [-> _]]].
      * apply (Hnew t'); [now right | assumption].
      * contradiction.
      * contradiction.
    + exists G'. split; [exact E|]. split; [assumption|].
      split; [assumption|]. split; [congruence|]. split.
      * intros a b. rewrite Hiff', Hiff1. simpl. intuition congruence.
      * intros x. rewrite Hdeg', Hdeg1, mem_cons. cbn [length].
        destruct (Z.eqb_spec x t) as [Ext|Hxt]; simpl.
        -- subst x. apply mem_false in Ht. rewrite Ht.
           destruct (t =? u); lia.
        -- destruct (x =? u); destruct (mem x ts); lia.
Qed.

(** ** The Barabasi-Albert growth *)

Lemma range_from_app (c1 c2 : nat) (a : Z) :
  range_from (c1 + c2) a
  = range_from c1 a ++ range_from c2 (a + Z.of_nat c1).
Proof.
  revert a. induction c1 as [|c1 IH]; intros a.
  - simpl. f_equal. lia.
  - cbn [Nat.add range_from app]. rewrite IH. do 3 f_equal. lia.
Qed.

Lemma range_succ (k : Z) : 0 <= k -> range (k + 1) = range k ++ [k].
Proof.
  intros Hk. unfold range.
  replace (Z.to_nat (k + 1)) with (Z.to_nat k + 1)%nat by lia.
  rewrite range_from_app. simpl. do 2 f_equal. lia.
Qed.

Lemma map_add_range_from (m : Z) (c : nat) (a : Z) :
  map (fun j => m + j) (range_from c a) = range_from c (m + a).
Proof.
  revert a. induction c as [|c IH]; intros a; simpl; auto.
  rewrite IH. do 2 f_equal. lia.
Qed.

Lemma degree_nonneg (G : Graph) (v : node) : 0 <= degree G v.
Proof. unfold degree. destruct (mem v (adj G v)); lia. Qed.

Lemma sumZ_pos (f : node -> Z) (l : list node) (a : node) :
  (forall x, 0 <= f x) -> In a l -> 0 < f a -> 0 < sumZ (map f l).
Proof.
  intros Hf. induction l as [|b l IH]; simpl; [intros []|].
  assert (H0 : 0 <= sumZ (map f l)).
  { clear IH. induction l as [|c l IHl]; simpl; [lia|].
    specialize (Hf c). lia. }
  intros [-> | Ha] Hp.
  - lia.
  - specialize (IH Ha Hp). specialize (Hf b). lia.
Qed.

Lemma In_repeated_nodes (G : Graph) (x : node) :
  NoDup (nodes G) ->
  (In x (repeated_nodes G) <-> In x (nodes G) /\ 0 < degree G x).
Proof.
  intros Hnd. unfold repeated_nodes. rewrite in_flat_map. split.
  - intros [e [He Hx]]. apply repeat_spec in Hx as Hx'. subst x.
    split; [unfold nodes; now apply in_map|].
    rewrite <- (degree_entry G e Hnd He).
    destruct (Z.to_nat (degree_of e)) eqn:E; [destruct Hx | lia].
  - intros [Hx Hd]. unfold nodes in Hx. apply in_map_iff in Hx.
    destruct Hx as [e [<- He]]. exists e. split; [assumption|].
    rewrite <- (degree_entry G e Hnd He) in Hd.
    destruct (Z.to_nat (degree_of e)) eqn:E; [lia | now left].
Qed.

Lemma attach_pool_incl (G : Graph) :
  NoDup (nodes G) -> incl (attach_pool G) (nodes G).
Proof.
  intros Hnd x. unfold attach_pool.
  destruct (repeated_nodes G) as [|y l] eqn:E; [auto|].
  rewrite <- E. intros Hx. now apply In_repeated_nodes in Hx.
Qed.

Lemma attach_pool_distinct (m k : Z) (G : Graph) :
  1 <= m <= k -> ba_inv m k G ->
  exists d, NoDup d /\ incl d (attach_pool G) /\
            (Z.to_nat m <= length d)%nat.
Proof.
  intros Hm (Hwf & Hnl & Hnodes & Hsum & Hgrown).
  pose proof (wf_keys G Hwf) as Hnd.
  exists (nodes G). split; [assumption|]. split.
  - unfold attach_pool.
    destruct (repeated_nodes G) as [|y l] eqn:E; [intros x; auto|].
    rewrite <- E. intros x Hx. apply In_repeated_nodes; [assumption|].
    split; [assumption|].
    destruct (Z.eq_dec m k) as [->|Hne].
    + exfalso.
      assert (Hy : In y (repeated_nodes G)) by (rewrite E; now left).
      apply In_repeated_nodes in Hy; [|assumption].
      pose proof (sumZ_pos (degree G) (nodes G) y (degree_nonneg G)
                           (proj1 Hy) (proj2 Hy)) as Hp.
      unfold degree_sum in Hsum. lia.
    + destruct Hgrown as (_ & Hdeg & _); [lia|].
      specialize (Hdeg x Hx). lia.
  - rewrite Hnodes. unfold range. rewrite length_range_from. lia.
Qed.

Lemma ba_inv_seed (m : Z) : 0 <= m -> ba_inv m m (create m).
Proof.
  intros Hm. split; [apply wf_create|]. split.
  - intros v. rewrite adj_create. intros [].
  - split; [apply nodes_create|]. split; [|lia].
    unfold degree_sum. rewrite Z.sub_diag, Z.mul_0_r. simpl.
    induction (nodes (create m)) as [|a l IH]; simpl; auto.
    unfold degree at 1. rewrite adj_create.
    change (mem a []) with false. simpl. exact IH.
Qed.

Lemma reach_mono (G G' : Graph) (u v : node) :
  (forall a b, In b (adj G a) -> In b (adj G' a)) ->
  reach G u v -> reach G' u v.
Proof.
  intros Hsub. induction 1 as [x y E | x | x y z _ IH1 _ IH2].
  - apply rt_step. now apply Hsub.
  - apply rt_refl.
  - eapply rt_trans; eauto.
Qed.

(** One step of growth keeps the invariant: the new node [k] gets [m]
    distinct neighbours among the nodes present. *)
Lemma ba_step (m k : Z) (G : Graph) (s : Rng) :
  1 <= m <= k -> ba_inv m k G ->
  exists ts s' G',
    sample (Z.to_nat m) (attach_pool G) s = Return (ts, s') /\
    add_edges_from (add_node G k) k ts = Return G' /\
    ba_inv m (k + 1) G'.
Proof.
  intros Hm Hinv.
  destruct (attach_pool_distinct m k G Hm Hinv) as (d & Hdn & Hdi & Hdl).
  destruct Hinv as (Hwf & Hnl & Hnodes & Hsum & Hgrown).
  pose proof (wf_keys G Hwf) as Hnd.
  destruct (sample_ok (Z.to_nat m) (attach_pool G) s d Hdn Hdi Hdl)
    as (ts & s' & Hsample & Htn & Hti & Htl).
  assert (Htnodes : incl ts (nodes G)).
  { intros x Hx. apply attach_pool_incl; auto. }
  assert (Hk : ~ In k (nodes G)).
  { rewrite Hnodes, In_range. lia. }
  destruct (add_node_new G k Hk) as [Hn1 Ha1].
  assert (Hwf1 : wf (add_node G k)) by now apply wf_add_node.
  assert (Hnl1 : no_loops (add_node G k)).
  { intros v. rewrite Ha1. apply Hnl. }
  assert (Hkts : ~ In k ts) by (intros H; now apply Hk, Htnodes).
  assert (Hkin : In k (nodes (add_node G k))).
  { rewrite Hn1. apply in_or_app. right. now left. }
  assert (Hti1 : incl ts (nodes (add_node G k))).
  { rewrite Hn1. intros x Hx. apply in_or_app. left. now apply Htnodes. }
  assert (Hfresh : forall t, In t ts -> ~ In t (adj (add_node G k) k)).
  { intros t _. rewrite Ha1, (adj_not_node G k Hk). intros []. }
  destruct (add_edges_from_new k ts (add_node G k) Hwf1 Hnl1 Hkin Htn Hti1
                               Hkts Hfresh) as
    (G' & Hadd & Hwf' & Hnl' & Hn' & Hiff & Hdeg).
  exists ts, s', G'. split; [assumption|]. split; [assumption|].
  assert (Hdeg1 : forall x, degree (add_node G k) x = degree G x).
  { intros x. unfold degree. now rewrite Ha1. }
  assert (Hdk : degree G k = 0).
  { unfold degree. now rewrite (adj_not_node G k Hk). }
  assert (Hnodes' : nodes G' = range (k + 1)).
  { rewrite Hn', Hn1, Hnodes. symmetry. apply range_succ. lia. }
  pose proof (wf_keys _ Hwf1) as Hndk. rewrite Hn1 in Hndk.
  assert (Hall : k = m -> forall x, In x (nodes G) -> In x ts).
  { intros -> x Hx.
    revert x Hx. change (incl (nodes G) ts).
    apply NoDup_length_incl; [exact Htn | | exact Htnodes].
    rewrite Htl, Hnodes. unfold range. rewrite length_range_from. lia. }
  split; [assumption|]. split; [assumption|]. split; [assumption|].
  split.
  - unfold degree_sum. rewrite Hn', Hn1.
    rewrite (map_ext _ _ Hdeg).
    rewrite (sumZ_map_add
               (fun x => degree (add_node G k) x
                         + (if x =? k then Z.of_nat (length ts) else 0))
               (fun x => if mem x ts then 1 else 0)).
    rewrite (sumZ_map_add
               (fun x => degree (add_node G k) x)
               (fun x => if x =? k then Z.of_nat (length ts) else 0)).
    rewrite sum_scaled_indicator;
      [|assumption | apply in_or_app; right; now left].
    rewrite sum_mem_indicator;
      [|assumption | assumption
       | intros x Hx; apply in_or_app; left; now apply Htnodes].
    rewrite (map_ext _ _ Hdeg1), map_app, sumZ_app.
    cbn [map sumZ fold_right].
    unfold degree_sum in Hsum. rewrite Hsum, Hdk, Htl. lia.
  - intros _.
    assert (Hto : forall a, In a (nodes G) -> reach G' a k).
    { intros a Ha. destruct (Z.eq_dec k m) as [E|E].
      - apply rt_step. unfold edge. apply Hiff. right. right.
        split; [now apply Hall | reflexivity].
      - destruct ts as [|t0 ts0]; [simpl in Htl; lia|].
        destruct Hgrown as ([_ Hconn] & _ & _); [lia|].
        apply (reach_step G' a t0 k).
        + apply (reach_mono G G').
          * intros x y Hxy. apply Hiff. left. now rewrite Ha1.
          * apply Hconn; [assumption|]. apply Htnodes. now left.
        + unfold edge. apply Hiff. right. right.
          split; [now left | reflexivity]. }
    assert (Hto' : forall a, In a (nodes G') -> reach G' a k).
    { intros a Ha. rewrite Hn', Hn1 in Ha.
      apply in_app_or in Ha. destruct Ha as [Ha | [<- | []]].
      - now apply Hto.
      - apply rt_refl. }
    split; [split|split].
    + intros E. rewrite E in Hn'. rewrite Hn1 in Hn'.
      destruct (nodes G); discriminate.
    + intros u v Hu Hv. eapply rt_trans; [apply Hto'; assumption|].
      apply (reach_sym G' Hwf'). now apply Hto'.
    + intros v Hv. rewrite Hn', Hn1 in Hv. rewrite Hdeg, Hdeg1.
      apply in_app_or in Hv. destruct Hv as [Hv | [<- | []]].
      * assert (Hvk : v <> k) by (intros ->; contradiction).
        apply Z.eqb_neq in Hvk. rewrite Hvk.
        destruct (Z.eq_dec k m) as [E|E].
        -- apply (Hall E) in Hv. apply mem_In in Hv. rewrite Hv.
           pose proof (degree_nonneg G v). lia.
        -- destruct Hgrown as (_ & Hd & _); [lia|].
           specialize (Hd v Hv). destruct (mem v ts); lia.
      * rewrite Z.eqb_refl, Htl, Hdk. destruct (mem k ts); lia.
    + replace (k + 1 - 1) with k by lia.
      rewrite Hdeg, Hdeg1, Z.eqb_refl, Htl, Hdk.
      apply mem_false in Hkts. rewrite Hkts. lia.
Qed.

Lemma ba_grow_app (m : nat) (l1 l2 : list node) : forall G s,
  ba_grow (l1 ++ l2) m G s
  = (r <- ba_grow l1 m G s ;; ba_grow l2 m (fst r) (snd r)).
Proof.
  induction l1 as [|i l1 IH]; intros G s; [reflexivity|].
  cbn [app ba_grow].
  destruct (sample m (attach_pool G) s) as [picked|e]; [|reflexivity].
  cbn [bind].
  destruct (add_edges_from (add_node G i) i (fst picked)) as [G1|e];
    [|reflexivity].
  cbn [bind]. apply IH.
Qed.

(** The growth never fails and keeps the invariant. *)
Lemma ba_grow_ok (m : Z) (c : nat) : forall k G s,
  1 <= m <= k -> ba_inv m k G ->
  exists G' s',
    ba_grow (range_from c k) (Z.to_nat m) G s = Return (G', s') /\
    ba_inv m (k + Z.of_nat c) G'.
Proof.
  induction c as [|c IH]; intros k G s Hm Hinv.
  - exists G, s. split; [reflexivity|]. now rewrite Z.add_0_r.
  - destruct (ba_step m k G s Hm Hinv) as (ts & s1 & G1 & Hs & Ha & Hinv1).
    destruct (IH (k + 1) G1 s1) as (G' & s' & Hg & Hinv'); [lia | assumption|].
    exists G', s'. split.
    + cbn [range_from ba_grow]. rewrite Hs. cbn [bind fst snd].
      rewrite Ha. cbn [bind]. exact Hg.
    + replace (k + Z.of_nat (S c)) with (k + 1 + Z.of_nat c) by lia.
      exact Hinv'.
Qed.

Lemma barabasi_albert_unfold (n m : Z) (s : Rng) :
  1 <= m < n ->
  barabasi_albert n m s
  = ba_grow (range_from (Z.to_nat (n - m)) m) (Z.to_nat m) (create m) s.
Proof.
  intros H. unfold barabasi_albert.
  destruct (Z.ltb_spec m 1); [lia|]. destruct (Z.leb_spec n m); [lia|].
  cbn [orb]. unfold range. rewrite map_add_range_from.
  now rewrite Z.add_0_r.
Qed.

Lemma barabasi_albert_ok (n m : Z) (s : Rng) :
  1 <= m < n ->
  exists G s', barabasi_albert n m s = Return (G, s') /\ ba_inv m n G.
Proof.
  intros H. rewrite barabasi_albert_unfold by assumption.
  destruct (ba_grow_ok m (Z.to_nat (n - m)) m (create m) s)
    as (G & s' & Hg & Hinv); [lia | apply ba_inv_seed; lia |].
  exists G, s'. split; [assumption|].
  replace n with (m + Z.of_nat (Z.to_nat (n - m))) at 1 by lia.
  exact Hinv.
Qed.

(** The run up to node [i] is a prefix of the run up to node [n - 1]. *)
Lemma barabasi_albert_prefix (n m i : Z) (s : Rng) (Gi : Graph) (si : Rng) :
  1 <= m -> m <= i < n ->
  barabasi_albert (i + 1) m s = Return (Gi, si) ->
  barabasi_albert n m s
  = ba_grow (range_from (Z.to_nat (n - (i + 1))) (i + 1)) (Z.to_nat m) Gi si.
Proof.
  intros Hm Hi Hrun.
  rewrite barabasi_albert_unfold in Hrun by lia.
  rewrite barabasi_albert_unfold by lia.
  replace (Z.to_nat (n - m))
    with (Z.to_nat (i + 1 - m) + Z.to_nat (n - (i + 1)))%nat by lia.
  rewrite range_from_app, ba_grow_app, Hrun. cbn [bind fst snd].
  do 2 f_equal. lia.
Qed.

Lemma Py_int_floor (x : Q) : 1 <= Qfloor x -> Py.int x = Qfloor x.
Proof.
  intros H. unfold Py.int.
  assert (Hx : (0 <= x)%Q).
  { apply Qle_trans with (inject_Z (Qfloor x)); [|apply Qfloor_le].
    change 0%Q with (inject_Z 0). rewrite <- Zle_Qle. lia. }
  apply Qle_bool_iff in Hx. now rewrite Hx.
Qed.

(** C5: a scale-free network built with [n] nodes and average degree
    [avg_degree], where [m = floor(avg_degree / 2)] satisfies [1 <= m < n],
    is produced without error for every sequence of draws; its nodes are
    [0 .. n-1], it has exactly [m * (n - m)] edges, it is connected, and
    every node [i >= m] has degree exactly [m] in the graph as it stands
    when [i] has just been added (the run stopped after node [i], of
    which the full run is a continuation). *)
Theorem scale_free_network_shape (n : Z) (avg_degree : Q) (s : Rng) :
  let m := Qfloor (avg_degree / (2 # 1)) in
  1 <= m -> m < n ->
  exists net s',
    ScaleFreeNetwork_init n avg_degree s = Return (net, s') /\
    ScaleFreeNetwork.m net = m /\
    nodes (ScaleFreeNetwork.G net) = range n /\
    wf (ScaleFreeNetwork.G net) /\
    connected (ScaleFreeNetwork.G net) /\
    number_of_edges (ScaleFreeNetwork.G net) = m * (n - m) /\
    forall i, m <= i < n ->
      exists Gi si,
        barabasi_albert (i + 1) m s = Return (Gi, si) /\
        nodes Gi = range (i + 1) /\
        degree Gi i = m /\
        ba_grow (range_from (Z.to_nat (n - (i + 1))) (i + 1)) (Z.to_nat m)
                Gi si
        = Return (ScaleFreeNetwork.G net, s').
Proof.
  intros m Hm Hn.
  destruct (barabasi_albert_ok n m s) as (G & s' & Hrun & Hinv); [lia|].
  exists (ScaleFreeNetwork.Build_t n avg_degree m G), s'.
  unfold ScaleFreeNetwork_init. rewrite (Py_int_floor _ Hm).
  fold m. rewrite Hrun. cbn [bind fst snd].
  split; [reflexivity|]. split; [reflexivity|].
  cbn [ScaleFreeNetwork.G].
  destruct Hinv as (Hwf & Hnl & Hnodes & Hsum & Hgrown).
  destruct Hgrown as (Hconn & _ & _); [assumption|].
  split; [assumption|]. split; [assumption|]. split; [assumption|].
  split.
  - unfold number_of_edges.
    rewrite (degree_sum_view G (wf_keys G Hwf)), Hsum.
    rewrite Z.mul_comm. apply Z.div_mul. discriminate.
  - intros i Hi.
    destruct (barabasi_albert_ok (i + 1) m s) as (Gi & si & Hri & Hinvi);
      [lia|].
    exists Gi, si. split; [assumption|].
    destruct Hinvi as (_ & _ & Hni & _ & Hgi).
    destruct Hgi as (_ & _ & Hdi); [lia|].
    split; [assumption|]. split.
    + now replace (i + 1 - 1) with i in Hdi by lia.
    + rewrite <- (barabasi_albert_prefix n m i s Gi si) by (assumption || lia).
      exact Hrun.
Qed.

Lemma scale_free_network_shape_witness :
  exists net s',
    ScaleFreeNetwork_init 6 (4 # 1) [3; 5; 1; 7; 8; 2; 4; 4; 4]
    = Return (net, s') /\
    ScaleFreeNetwork.m net = 2 /\
    nodes (ScaleFreeNetwork.G net) = range 6 /\
    wf (ScaleFreeNetwork.G net) /\
    connected (ScaleFreeNetwork.G net) /\
    number_of_edges (ScaleFreeNetwork.G net) = 2 * (6 - 2) /\
    forall i, 2 <= i < 6 ->
      exists Gi si,
        barabasi_albert (i + 1) 2 [3; 5; 1; 7; 8; 2; 4; 4; 4]
        = Return (Gi, si) /\
        nodes Gi = range (i + 1) /\
        degree Gi i = 2 /\
        ba_grow (range_from (Z.to_nat (6 - (i + 1))) (i + 1)) (Z.to_nat 2)
                Gi si
        = Return (ScaleFreeNetwork.G net, s').
Proof.
  apply (scale_free_network_shape 6 (4 # 1) [3; 5; 1; 7; 8; 2; 4; 4; 4]).
  - vm_compute. discriminate.
  - reflexivity.
Defined.

(** * Further properties of the code *)

(** ** Hub selection with an arbitrary count *)

(** X1: whatever the count asked for, hub selection returns a prefix of
    the full ranking (the ranking of all nodes, a permutation of the node
    set): the [min top_k n] first entries for a count that is not
    negative, and all but the last [-top_k] entries for a negative one
    (nothing when [-top_k] exceeds the node count). *)
Theorem get_hubs_any_count (G : Graph) (top_k : Z) :
  NoDup (nodes G) ->
  let n := number_of_nodes G in
  let full := Components.get_hubs G n in
  Permutation (nodes G) full /\
  (exists rest, full = Components.get_hubs G top_k ++ rest) /\
  Z.of_nat (length (Components.get_hubs G top_k))
  = (if top_k <? 0 then Z.max 0 (n + top_k) else Z.min top_k n).
Proof.
  intros Hnd n full.
  pose proof (ranked_perm G) as Hperm.
  pose proof (Permutation_length Hperm) as Hlen.
  unfold nodes in Hlen at 1. rewrite length_map in Hlen.
  set (L := map fst (Py.sorted_rev snd (degree_view G))) in *.
  assert (Hfull : full = L).
  { unfold full. rewrite get_hubs_keys by assumption. fold L.
    apply slice_to_all. unfold n, number_of_nodes. lia. }
  rewrite Hfull, (get_hubs_keys G top_k Hnd). fold L.
  split; [assumption|]. unfold Py.slice_to.
  destruct (Z.ltb_spec top_k 0) as [Hneg|Hpos].
  - split.
    + eexists. symmetry. apply firstn_skipn.
    + rewrite length_firstn. unfold n, number_of_nodes. lia.
  - split.
    + eexists. symmetry. apply firstn_skipn.
    + rewrite length_firstn. unfold n, number_of_nodes. lia.
Qed.

Lemma get_hubs_any_count_witness :
  let n := number_of_nodes path5 in
  let full := Components.get_hubs path5 n in
  Permutation (nodes path5) full /\
  (exists rest, full = Components.get_hubs path5 (-2) ++ rest) /\
  Z.of_nat (length (Components.get_hubs path5 (-2)))
  = (if -2 <? 0 then Z.max 0 (n + -2) else Z.min (-2) n).
Proof.
  apply (get_hubs_any_count path5 (-2)). simpl. nodup_tac.
Defined.

(** ** Removal: counts outside the documented range *)

Lemma Qlt_inject_Z (a b : Z) : (inject_Z a < inject_Z b)%Q -> a < b.
Proof. intros H. now rewrite Zlt_Qlt. Qed.

Lemma int_small (x : Q) : (- (1) < x)%Q -> (x < 1)%Q -> Py.int x = 0.
Proof.
  intros Hlo Hhi. unfold Py.int.
  destruct (Qle_bool 0 x) eqn:E.
  - apply Qle_bool_iff in E.
    pose proof (Qfloor_resp_le _ _ E) as H0. change (Qfloor 0) with 0 in H0.
    pose proof (Qfloor_le x) as H1.
    assert (H2 : (inject_Z (Qfloor x) < inject_Z 1)%Q)
      by (eapply Qle_lt_trans; eauto).
    apply Qlt_inject_Z in H2. lia.
  - assert (Hx : (x < 0)%Q).
    { apply Qnot_le_lt. intros H. apply Qle_bool_iff in H. congruence. }
    pose proof (Qle_ceiling x) as H1. pose proof (Qceiling_lt x) as H2.
    assert (H3 : (inject_Z (Qceiling x - 1) < inject_Z 0)%Q)
      by (eapply Qlt_trans; eauto).
    assert (H4 : (inject_Z (- (1)) < inject_Z (Qceiling x))%Q)
      by (eapply Qlt_le_trans; eauto).
    apply Qlt_inject_Z in H3, H4. lia.
Qed.


Lemma slice_to_firstn {A} (l : list A) (k : Z) :
  exists j : nat, Py.slice_to l k = firstn j l /\
    Z.of_nat j = (if k <? 0 then Z.max 0 (Z.of_nat (length l) + k)
                  else Z.max 0 k).
Proof.
  unfold Py.slice_to. destruct (Z.ltb_spec k 0).
  - eexists. split; [reflexivity|]. lia.
  - eexists. split; [reflexivity|]. lia.
Qed.












(** ** Removal returns an induced subgraph *)

Lemma remove_nodes_from_induced (G : Graph) (vs : list node) :
  (forall u, In u (nodes (remove_nodes_from G vs)) <->
             In u (nodes G) /\ ~ In u vs) /\
  (forall u v, In v (adj (remove_nodes_from G vs) u) <->
               In v (adj G u) /\ ~ In u vs /\ ~ In v vs) /\
  (forall v, degree (remove_nodes_from G vs) v <= degree G v).
Proof.
  split; [|split].
  - intros u. rewrite nodes_remove_nodes_from, filter_In.
    rewrite negb_true_iff, mem_false. tauto.
  - intros u v. rewrite adj_remove_nodes_from.
    destruct (mem u vs) eqn:Eu.
    + apply mem_In in Eu. simpl. tauto.
    + apply mem_false in Eu. rewrite filter_In, negb_true_iff, mem_false.
      tauto.
  - intros v. unfold degree. rewrite adj_remove_nodes_from.
    destruct (mem v vs).
    + change (mem v []) with false. simpl.
      destruct (mem v (adj G v)); lia.
    + pose proof (filter_length_le (fun w => negb (mem w vs)) (adj G v)) as Hl.
      destruct (mem v (filter (fun w => negb (mem w vs)) (adj G v))) eqn:E.
      * apply mem_In in E. apply filter_In in E. destruct E as [E _].
        apply mem_In in E. rewrite E. lia.
      * destruct (mem v (adj G v)); lia.
Qed.


(** ** Errors of [get_network] *)

Lemma add_edge_error (G : Graph) (u v : node) (e : exn) :
  add_edge G u v = Raise e -> e = InvalidEdge.
Proof.
  unfold add_edge.
  destruct ((u =? v) || negb (mem u (nodes G)) || negb (mem v (nodes G)));
    congruence.
Qed.

Lemma gnp_pairs_error (pairs : list (Z * Z)) : forall skip s G e,
  gnp_pairs pairs skip s G = Raise e -> e = InvalidEdge.
Proof.
  induction pairs as [|[v w] rest IH]; intros skip s G e; simpl.
  - discriminate.
  - destruct (skip <=? 0); [|apply IH].
    destruct (add_edge G v w) as [G1|e1] eqn:E; simpl.
    + apply IH.
    + intros H. inversion H; subst. eapply add_edge_error; eauto.
Qed.

Lemma erdos_renyi_error (n : Z) (p : Q) (s : Rng) (e : exn) :
  erdos_renyi n p s = Raise e -> e <> ZeroDivisionError.
Proof.
  unfold erdos_renyi.
  destruct ((n <? 0) || negb (Qle_bool 0 p) || negb (Qle_bool p 1));
    [intros H; inversion H; discriminate|].
  destruct (Qle_bool p 0); [discriminate|].
  destruct (Qle_bool 1 p).
  - destruct (gnp_pairs (all_pairs n) 0 [] (create n)) as [r|e1] eqn:E;
      simpl; [discriminate|].
    intros H. inversion H; subst.
    apply gnp_pairs_error in E. subst. discriminate.
  - destruct (next s) as [g s1]. intros H.
    apply gnp_pairs_error in H. subst. discriminate.
Qed.

Lemma sample_error (k : nat) : forall pool s e,
  sample k pool s = Raise e -> e = InvalidParameter.
Proof.
  induction k as [|k IH]; intros pool s e; simpl; [discriminate|].
  destruct pool as [|a pool]; [congruence|].
  match goal with
  | |- context [sample k ?P ?t] =>
      destruct (sample k P t) as [rest|e1] eqn:E
  end; simpl; [discriminate|].
  intros H. inversion H; subst. eapply IH; eauto.
Qed.

Lemma add_edges_from_error (u : node) (targets : list node) : forall G e,
  add_edges_from G u targets = Raise e -> e = InvalidEdge.
Proof.
  induction targets as [|t ts IH]; intros G e; simpl; [discriminate|].
  destruct (add_edge G u t) as [G1|e1] eqn:E; simpl.
  - apply IH.
  - intros H. inversion H; subst. eapply add_edge_error; eauto.
Qed.

Lemma ba_grow_error (new : list node) (m : nat) : forall G s e,
  ba_grow new m G s = Raise e -> e <> ZeroDivisionError.
Proof.
  induction new as [|i rest IH]; intros G s e; simpl; [discriminate|].
  destruct (sample m (attach_pool G) s) as [picked|e1] eqn:E1; simpl.
  - destruct (add_edges_from (add_node G i) i (fst picked)) as [G1|e2] eqn:E2;
      simpl.
    + apply IH.
    + intros H. inversion H; subst.
      apply add_edges_from_error in E2. subst. discriminate.
  - intros H. inversion H; subst.
    apply sample_error in E1. subst. discriminate.
Qed.

Lemma barabasi_albert_error (n m : Z) (s : Rng) (e : exn) :
  barabasi_albert n m s = Raise e -> e <> ZeroDivisionError.
Proof.
  unfold barabasi_albert.
  destruct ((m <? 1) || (n <=? m)).
  - intros H. inversion H. discriminate.
  - apply ba_grow_error.
Qed.

(** X6: [get_network] raises ZeroDivisionError exactly when a random
    network on one node is asked for (the probability is computed as
    [AVG_K / (N - 1)]); the scale-free branch never divides by the node
    count. *)
Theorem get_network_zero_division (N AVG_K : Z) (random_net : bool) (s : Rng) :
  get_network N AVG_K random_net s = Raise ZeroDivisionError <->
  random_net = true /\ N = 1.
Proof.
  unfold get_network. destruct random_net.
  - unfold truediv. destruct (Z.eqb_spec (N - 1) 0) as [E|E].
    + simpl. split; [intros _; split; [reflexivity | lia] | reflexivity].
    + split; [|intros [_ H]; lia]. intros H. exfalso.
      assert (Hp : exists p, (if 0 <? N - 1
                              then Return (AVG_K # Z.to_pos (N - 1))
                              else Return (- AVG_K # Z.to_pos (- (N - 1))))
                             = Return p)
        by (destruct (0 <? N - 1); eexists; reflexivity).
      destruct Hp as [p Hp]. rewrite Hp in H. cbn [bind] in H.
      unfold RandomNetwork_init in H.
      destruct (erdos_renyi N p s) as [r|e] eqn:Er; simpl in H;
        [discriminate|].
      inversion H; subst. now apply erdos_renyi_error in Er.
  - split; [|intros [H _]; discriminate]. intros H. exfalso.
    unfold ScaleFreeNetwork_init in H.
    destruct (barabasi_albert N _ s) as [r|e] eqn:Eb; simpl in H;
      [discriminate|].
    inversion H; subst. now apply barabasi_albert_error in Eb.
Qed.

(** ** The attachment parameter of the scale-free branch *)

Lemma int_half (k : Z) : Py.int (inject_Z k / (2 # 1)) = Z.quot k 2.
Proof.
  unfold Py.int, Qle_bool, Qceiling, Qfloor, Qdiv, Qmult, Qinv, Qopp, inject_Z.
  cbn [Qnum Qden]. rewrite !Z.mul_1_r.
  change (Z.pos (1 * 2)) with 2. change (0 * 2) with 0.
  destruct (Z.leb_spec 0 k) as [H|H].
  - symmetry. apply Z.quot_div_nonneg; lia.
  - rewrite <- (Z.opp_involutive k) at 2. rewrite Z.quot_opp_l by lia.
    f_equal. symmetry. apply Z.quot_div_nonneg; lia.
Qed.

(** X7: the scale-free branch of [get_network] depends on [AVG_K] only
    through [int(AVG_K / 2)], the quotient truncated towards zero: an
    odd average degree gives, for the same draws, the network of the even
    number below it. *)
Theorem get_network_scale_free_truncates (N K1 K2 : Z) (s : Rng) :
  Z.quot K1 2 = Z.quot K2 2 ->
  get_network N K1 false s = get_network N K2 false s /\
  get_network N K1 false s
  = (r <- barabasi_albert N (Z.quot K1 2) s ;; Return r).
Proof.
  intros H.
  assert (E : forall K, get_network N K false s
                        = (r <- barabasi_albert N (Z.quot K 2) s ;; Return r)).
  { intros K. unfold get_network, ScaleFreeNetwork_init.
    rewrite int_half.
    destruct (barabasi_albert N (Z.quot K 2) s) as [[G s']|e]; reflexivity. }
  split; [|apply E]. rewrite (E K1), (E K2), H. reflexivity.
Qed.

Lemma get_network_scale_free_truncates_witness :
  get_network 6 5 false [3; 5; 1; 7] = get_network 6 4 false [3; 5; 1; 7] /\
  get_network 6 5 false [3; 5; 1; 7]
  = (r <- barabasi_albert 6 (Z.quot 5 2) [3; 5; 1; 7] ;; Return r).
Proof.
  apply (get_network_scale_free_truncates 6 5 4 [3; 5; 1; 7]). reflexivity.
Defined.

(** ** Dicts built from the degree view *)

Lemma dict_set_new {V} (d : list (Z * V)) (k : Z) (v : V) :
  ~ In k (map fst d) -> dict_set d k v = d ++ [(k, v)].
Proof.
  induction d as [|[k' v'] d IH]; simpl; intros H; [reflexivity|].
  destruct (Z.eqb_spec k' k) as [->|Hne]; [tauto|].
  rewrite IH; tauto.
Qed.

Lemma dict_distinct_keys {V} (items : list (Z * V)) :
  NoDup (map fst items) -> dict items = items.
Proof.
  unfold dict.
  assert (H : forall acc,
             NoDup (map fst (acc ++ items)) ->
             fold_left (fun d kv => dict_set d (fst kv) (snd kv)) items acc
             = acc ++ items).
  { induction items as [|[k v] items IH]; intros acc Hnd; simpl.
    - now rewrite app_nil_r.
    - rewrite dict_set_new.
      + rewrite IH; rewrite <- app_assoc; [reflexivity | exact Hnd].
      + rewrite map_app in Hnd. simpl in Hnd.
        apply NoDup_remove_2 in Hnd. intros Hk. apply Hnd.
        apply in_or_app. now left. }
  intros Hnd. now apply (H []).
Qed.

Lemma degree_values (G : Graph) :
  NoDup (nodes G) ->
  values (dict (degree_view G)) = map degree_of G.
Proof.
  intros Hnd. rewrite dict_distinct_keys.
  - unfold values, degree_view. rewrite map_map. reflexivity.
  - now rewrite nodes_degree_view.
Qed.

Lemma Pos_of_nat_to_nat (n : Z) :
  0 < n -> Pos.of_nat (Z.to_nat n) = Z.to_pos n.
Proof.
  intros H. lia.
Qed.

(** X8: a scale-free network built with [m = floor(avg_degree / 2)],
    [1 <= m < n], has average degree exactly [2 m (n - m) / n] whatever
    the draws: strictly less than the [avg_degree] it was asked for and
    keeps as an attribute. *)
Theorem scale_free_average_degree (n : Z) (avg_degree : Q) (s : Rng) :
  let m := Qfloor (avg_degree / (2 # 1)) in
  1 <= m -> m < n ->
  exists net s',
    ScaleFreeNetwork_init n avg_degree s = Return (net, s') /\
    ScaleFreeNetwork.avg_degree net = avg_degree /\
    ScaleFreeNetwork_average_degree net
    = Fin (2 * (m * (n - m)) # Z.to_pos n) /\
    (2 * (m * (n - m)) # Z.to_pos n < avg_degree)%Q.
Proof.
  intros m Hm Hn.
  destruct (barabasi_albert_ok n m s) as (G & s' & Hrun & Hinv); [lia|].
  exists (ScaleFreeNetwork.Build_t n avg_degree m G), s'.
  unfold ScaleFreeNetwork_init. rewrite (Py_int_floor _ Hm).
  fold m. rewrite Hrun. cbn [bind fst snd].
  split; [reflexivity|]. split; [reflexivity|].
  destruct Hinv as (Hwf & _ & Hnodes & Hsum & _).
  pose proof (wf_keys G Hwf) as Hnd.
  assert (Hlen : length G = Z.to_nat n).
  { rewrite <- (length_map fst G). fold (nodes G). rewrite Hnodes.
    unfold range. apply length_range_from. }
  split.
  - unfold ScaleFreeNetwork_average_degree. cbn [ScaleFreeNetwork.G].
    rewrite (degree_values G Hnd). unfold np_mean.
    destruct (map degree_of G) as [|d ds] eqn:E.
    + apply (f_equal (@length Z)) in E. rewrite length_map, Hlen in E.
      simpl in E. lia.
    + rewrite <- E, (degree_sum_view G Hnd), Hsum, length_map, Hlen.
      do 2 f_equal. apply Pos_of_nat_to_nat. lia.
  - apply Qlt_le_trans with (inject_Z (2 * m)).
    + unfold Qlt, inject_Z. cbn [Qnum Qden].
      rewrite Z2Pos.id by lia. nia.
    + pose proof (Qfloor_le (avg_degree / (2 # 1))) as Hf. fold m in Hf.
      revert Hf. destruct avg_degree as [a b].
      unfold Qle, Qdiv, Qmult, Qinv, inject_Z. cbn [Qnum Qden].
      rewrite !Z.mul_1_r, Pos2Z.inj_mul. lia.
Qed.

Lemma scale_free_average_degree_witness :
  exists net s',
    ScaleFreeNetwork_init 6 (4 # 1) [3; 5; 1; 7; 8; 2; 4; 4; 4]
    = Return (net, s') /\
    ScaleFreeNetwork.avg_degree net = (4 # 1)%Q /\
    ScaleFreeNetwork_average_degree net
    = Fin (2 * (2 * (6 - 2)) # Z.to_pos 6) /\
    (2 * (2 * (6 - 2)) # Z.to_pos 6 < 4 # 1)%Q.
Proof.
  apply (scale_free_average_degree 6 (4 # 1) [3; 5; 1; 7; 8; 2; 4; 4; 4]).
  - vm_compute. discriminate.
  - reflexivity.
Defined.

(** ** The colour map of [plot] *)

Lemma filter_map_length {A B} (p : B -> bool) (f : A -> B) (l : list A) :
  length (filter p (map f l)) = length (filter (fun x => p (f x)) l).
Proof.
  induction l as [|a l IH]; simpl; [reflexivity|].
  destruct (p (f a)); simpl; now rewrite IH.
Qed.

Lemma filter_mem_length (l vs : list node) :
  NoDup l -> NoDup vs -> incl vs l ->
  length (filter (fun v => mem v vs) l) = length vs.
Proof.
  intros Hl Hvs Hincl.
  pose proof (filter_out_length l vs Hl Hvs Hincl) as H1.
  pose proof (filter_length (fun v => mem v vs) l) as H2.
  lia.
Qed.

(** X9: [plot] colours every node once, in node order: red for the
    hubs returned by [get_hubs(5)] (so [min 5 n] nodes are red), green
    for a node that is not a hub and is a neighbour of one, dark blue
    for a node that is neither; both classes compute the same map. *)
Theorem plot_colour_map (self : RandomNetwork.t) :
  NoDup (nodes (RandomNetwork.G self)) ->
  let G := RandomNetwork.G self in
  let hubs := RandomNetwork.get_hubs self 5 in
  let color_map := RandomNetwork_plot self in
  length color_map = length G /\
  length (filter (fun c => match c with red => true | _ => false end)
                 color_map)
  = Nat.min 5 (length G) /\
  (forall i v, nth_error (nodes G) i = Some v ->
     exists c, nth_error color_map i = Some c /\
       (c = red <-> In v hubs) /\
       (c = green <-> ~ In v hubs /\ exists h, In h hubs /\ edge G h v) /\
       (c = darkblue <->
        ~ In v hubs /\ forall h, In h hubs -> ~ edge G h v)) /\
  (forall sf : ScaleFreeNetwork.t,
      ScaleFreeNetwork.G sf = G -> ScaleFreeNetwork_plot sf = color_map).
Proof.
  intros Hnd G hubs color_map.
  destruct (get_hubs_ranking G 5 Hnd) as (R1 & R2 & R3 & _).
  change (Components.get_hubs G (Z.of_nat 5)) with hubs in R1, R2, R3.
  set (neighbors := flat_map (fun node => adj G node) hubs).
  set (paint := fun node => if mem node hubs then red
                            else if mem node neighbors then green
                            else darkblue).
  assert (Ecm : color_map = map paint (nodes G)) by reflexivity.
  split; [|split; [|split]].
  - rewrite Ecm, length_map. unfold nodes. apply length_map.
  - rewrite Ecm, filter_map_length.
    rewrite (filter_ext (fun x => match paint x with
                                  | red => true | _ => false end)
                        (fun v => mem v hubs)).
    + rewrite (filter_mem_length (nodes G) hubs Hnd R1 R2). exact R3.
    + intros v. unfold paint.
      destruct (mem v hubs); [reflexivity|].
      destruct (mem v neighbors); reflexivity.
  - intros i v Hi. exists (paint v). split.
    + rewrite Ecm, nth_error_map, Hi. reflexivity.
    + assert (Hnb : In v neighbors <-> exists h, In h hubs /\ edge G h v).
      { unfold neighbors. rewrite in_flat_map. reflexivity. }
      unfold paint.
      destruct (mem v hubs) eqn:Eh.
      * apply mem_In in Eh.
        split; [tauto|]. split; split; try discriminate; tauto.
      * apply mem_false in Eh.
        destruct (mem v neighbors) eqn:En.
        -- apply mem_In in En.
           split; [split; [discriminate | tauto]|].
           split; [split; [intros _; split; [assumption | now apply Hnb]
                          | reflexivity]|].
           split; [discriminate|]. intros [_ Hno]. exfalso.
           apply Hnb in En. destruct En as [h [Hh He]]. now apply (Hno h).
        -- apply mem_false in En.
           split; [split; [discriminate | tauto]|].
           split; [split; [discriminate|]|].
           ++ intros [_ Hex]. exfalso. now apply En, Hnb.
           ++ split; [|reflexivity]. intros _. split; [assumption|].
              intros h Hh He. apply En, Hnb. now exists h.
  - intros sf Hsf. unfold ScaleFreeNetwork_plot, ScaleFreeNetwork.get_hubs.
    rewrite Hsf. reflexivity.
Qed.

Lemma plot_colour_map_witness :
  let self := RandomNetwork.Build_t 5 (1 # 2) path5 in
  let G := RandomNetwork.G self in
  let hubs := RandomNetwork.get_hubs self 5 in
  let color_map := RandomNetwork_plot self in
  length color_map = length G /\
  length (filter (fun c => match c with red => true | _ => false end)
                 color_map)
  = Nat.min 5 (length G) /\
  (forall i v, nth_error (nodes G) i = Some v ->
     exists c, nth_error color_map i = Some c /\
       (c = red <-> In v hubs) /\
       (c = green <-> ~ In v hubs /\ exists h, In h hubs /\ edge G h v) /\
       (c = darkblue <->
        ~ In v hubs /\ forall h, In h hubs -> ~ edge G h v)) /\
  (forall sf : ScaleFreeNetwork.t,
      ScaleFreeNetwork.G sf = G -> ScaleFreeNetwork_plot sf = color_map).
Proof.
  apply (plot_colour_map (RandomNetwork.Build_t 5 (1 # 2) path5)).
  simpl. nodup_tac.
Defined.

(** ** Histograms and the degree distribution *)

Lemma counter_add_keys (k : Z) (c : list (Z * Z)) :
  keys (counter_add k c) = if mem k (keys c) then keys c else keys c ++ [k].
Proof.
  induction c as [|[k' v] c IH]; [reflexivity|].
  cbn [counter_add keys map fst]. rewrite mem_cons.
  destruct (Z.eqb_spec k' k) as [->|Hne].
  - rewrite Z.eqb_refl. reflexivity.
  - destruct (Z.eqb_spec k k') as [E|_]; [congruence|].
    cbn [orb map fst]. fold (keys (counter_add k c)). rewrite IH.
    fold (keys c). destruct (mem k (keys c)); reflexivity.
Qed.

Lemma count_of_cons (k0 v : Z) (c : list (Z * Z)) (k' : Z) :
  count_of ((k0, v) :: c) k' = (if k0 =? k' then v else 0) + count_of c k'.
Proof.
  unfold count_of. cbn [filter fst]. destruct (k0 =? k'); reflexivity.
Qed.

Lemma counter_add_count (k k' : Z) (c : list (Z * Z)) :
  count_of (counter_add k c) k'
  = count_of c k' + (if k =? k' then 1 else 0).
Proof.
  induction c as [|[k0 v] c IH].
  - cbn [counter_add]. rewrite count_of_cons. unfold count_of. simpl. lia.
  - cbn [counter_add]. destruct (Z.eqb_spec k0 k) as [->|Hne].
    + rewrite !count_of_cons. destruct (k =? k'); lia.
    + rewrite !count_of_cons, IH. lia.
Qed.

Lemma Counter_spec (l : list Z) :
  NoDup (keys (Counter l)) /\
  (forall k, count_of (Counter l) k = occurrences l k) /\
  (forall k, In k (keys (Counter l)) <-> In k l).
Proof.
  unfold Counter.
  assert (H : forall acc,
             NoDup (keys acc) ->
             let h := fold_left (fun c k => counter_add k c) l acc in
             NoDup (keys h) /\
             (forall k, count_of h k = count_of acc k + occurrences l k) /\
             (forall k, In k (keys h) <-> In k (keys acc) \/ In k l)).
  { induction l as [|x l IH]; intros acc Hacc.
    - simpl. split; [assumption|]. split.
      + intros k. unfold occurrences. simpl. lia.
      + intros k. tauto.
    - cbn [fold_left].
      assert (Hacc' : NoDup (keys (counter_add x acc))).
      { rewrite counter_add_keys. destruct (mem x (keys acc)) eqn:E; auto.
        apply mem_false in E. apply NoDup_app; auto.
        - repeat constructor. intros [].
        - intros y Hy [<- | []]. contradiction. }
      destruct (IH _ Hacc') as (I1 & I2 & I3).
      split; [assumption|]. split.
      + intros k. rewrite I2, counter_add_count. unfold occurrences.
        cbn [filter]. destruct (x =? k); cbn [length]; lia.
      + intros k. rewrite I3, counter_add_keys.
        destruct (mem x (keys acc)) eqn:E.
        * apply mem_In in E. simpl. split; [tauto|].
          intros [H | [<- | H]]; tauto.
        * rewrite in_app_iff. simpl. tauto. }
  destruct (H [] (NoDup_nil _)) as (H1 & H2 & H3).
  split; [assumption|]. split.
  - intros k. rewrite H2. reflexivity.
  - intros k. rewrite H3. simpl. tauto.
Qed.

Lemma count_of_entry (h : list (Z * Z)) (k c : Z) :
  NoDup (keys h) -> In (k, c) h -> count_of h k = c.
Proof.
  unfold count_of, keys.
  induction h as [|[k0 v] h IH]; simpl; [intros _ []|].
  intros Hnd Hin. inversion Hnd as [|? ? Hk Hnd']; subst.
  destruct Hin as [E | Hin].
  - inversion E; subst. rewrite Z.eqb_refl. simpl.
    assert (E0 : filter (fun kv => fst kv =? k) h = []).
    { clear - Hk. induction h as [|[k1 v1] h IH]; simpl; auto.
      destruct (Z.eqb_spec k1 k) as [->|_].
      - exfalso. apply Hk. now left.
      - apply IH. intros H. apply Hk. now right. }
    rewrite E0. simpl. lia.
  - destruct (Z.eqb_spec k0 k) as [->|_].
    + exfalso. apply Hk. change k with (fst (k, c)). now apply in_map.
    + now apply IH.
Qed.

Lemma normalized_pos (n : Z) (h : list (Z * Z)) :
  0 < n ->
  normalized n h
  = Return (map (fun kv => (fst kv, snd kv # Z.to_pos n)) h).
Proof.
  intros Hn. induction h as [|[k c] h IH]; [reflexivity|].
  cbn [normalized]. unfold truediv at 1.
  destruct (Z.eqb_spec n 0); [lia|]. destruct (Z.ltb_spec 0 n); [|lia].
  cbn [bind]. rewrite IH. reflexivity.
Qed.

Lemma normalized_list_pos (n : Z) (xs : list Z) :
  0 < n ->
  normalized_list n xs = Return (map (fun x => x # Z.to_pos n) xs).
Proof.
  intros Hn. induction xs as [|x xs IH]; [reflexivity|].
  cbn [normalized_list]. unfold truediv at 1.
  destruct (Z.eqb_spec n 0); [lia|]. destruct (Z.ltb_spec 0 n); [|lia].
  cbn [bind]. rewrite IH. reflexivity.
Qed.

Lemma sumQ_scaled (p : positive) (xs : list Z) :
  (sumQ (map (fun x => x # p) xs) == sumZ xs # p)%Q.
Proof.
  induction xs as [|x xs IH]; [reflexivity|].
  cbn [map sumQ sumZ fold_right]. fold (sumQ (map (fun x => x # p) xs)).
  fold (sumZ xs). rewrite IH. unfold Qeq, Qplus. cbn [Qnum Qden].
  rewrite Pos2Z.inj_mul. ring.
Qed.

(** X10: for a network whose attribute [n] is its node count and which
    has at least one node, the bars of [plot_degree_distribution] are the
    relative frequencies of the degrees: one bar per degree that occurs,
    of height (number of nodes of that degree) / n, and the heights add
    up to 1. The scale-free class plots the same keys and heights. *)
Theorem degree_distribution_normalised (self : RandomNetwork.t) :
  RandomNetwork.n self = number_of_nodes (RandomNetwork.G self) ->
  RandomNetwork.G self <> [] ->
  let G := RandomNetwork.G self in
  let n := RandomNetwork.n self in
  let degrees := map snd (degree_view G) in
  exists d,
    RandomNetwork_degree_distribution self = Return d /\
    NoDup (keys d) /\
    (forall k, In k (keys d) <-> In k degrees) /\
    (forall k q, In (k, q) d ->
                 0 < occurrences degrees k /\
                 q = (occurrences degrees k # Z.to_pos n)%Q) /\
    (sumQ (values d) == 1)%Q /\
    (forall sf : ScaleFreeNetwork.t,
        ScaleFreeNetwork.G sf = G -> ScaleFreeNetwork.n sf = n ->
        NoDup (nodes G) ->
        ScaleFreeNetwork_degree_distribution sf
        = Return (keys d, values d)).
Proof.
  intros Hn HG G n degrees.
  assert (Hpos : 0 < n).
  { unfold n. rewrite Hn. unfold number_of_nodes.
    destruct (RandomNetwork.G self); [congruence | simpl; lia]. }
  destruct (Counter_spec degrees) as (C1 & C2 & C3).
  destruct (Counter_totals degrees) as [_ Ctot].
  set (h := Counter degrees) in *.
  exists (map (fun kv => (fst kv, snd kv # Z.to_pos n)) h).
  assert (Ek : keys (map (fun kv => (fst kv, snd kv # Z.to_pos n)) h)
               = keys h).
  { unfold keys. rewrite map_map. reflexivity. }
  assert (Ev : values (map (fun kv => (fst kv, snd kv # Z.to_pos n)) h)
               = map (fun x => x # Z.to_pos n) (values h)).
  { unfold values. rewrite !map_map. reflexivity. }
  split; [apply normalized_pos; exact Hpos|].
  split; [now rewrite Ek|]. split; [now rewrite Ek|]. split.
  { intros k q Hin. apply in_map_iff in Hin.
    destruct Hin as [[k0 c] [E Hin]]. cbn [fst snd] in E.
    inversion E; subst k0 q.
    rewrite <- C2, (count_of_entry h k c C1 Hin). split; [|reflexivity].
    assert (Hk : In k degrees).
    { apply C3. change k with (fst (k, c)). unfold keys. now apply in_map. }
    rewrite <- (count_of_entry h k c C1 Hin), C2. unfold occurrences.
    clear - Hk. induction degrees as [|x l IH]; [destruct Hk|].
    cbn [filter]. destruct (Z.eqb_spec x k); [cbn [length]; lia|].
    destruct Hk as [Hk|Hk]; [congruence|]. now apply IH. }
  split.
  { rewrite Ev, sumQ_scaled. change (sumZ (values h)) with (total_count h).
    rewrite Ctot.
    unfold degrees, degree_view. rewrite !length_map.
    fold (number_of_nodes G). unfold G. rewrite <- Hn. fold n.
    unfold Qeq. cbn [Qnum Qden]. rewrite Z2Pos.id by lia. lia. }
  intros sf HsG Hsn Hnd.
  unfold ScaleFreeNetwork_degree_distribution. rewrite HsG, Hsn.
  rewrite (degree_values G Hnd).
  replace (map degree_of G) with degrees
    by (unfold degrees, degree_view; now rewrite map_map).
  fold h. rewrite (normalized_list_pos n _ Hpos). cbn [bind].
  now rewrite Ek, Ev.
Qed.

Lemma degree_distribution_normalised_witness :
  let self := RandomNetwork.Build_t 5 (1 # 2) path5 in
  let G := RandomNetwork.G self in
  let n := RandomNetwork.n self in
  let degrees := map snd (degree_view G) in
  exists d,
    RandomNetwork_degree_distribution self = Return d /\
    NoDup (keys d) /\
    (forall k, In k (keys d) <-> In k degrees) /\
    (forall k q, In (k, q) d ->
                 0 < occurrences degrees k /\
                 q = (occurrences degrees k # Z.to_pos n)%Q) /\
    (sumQ (values d) == 1)%Q /\
    (forall sf : ScaleFreeNetwork.t,
        ScaleFreeNetwork.G sf = G -> ScaleFreeNetwork.n sf = n ->
        NoDup (nodes G) ->
        ScaleFreeNetwork_degree_distribution sf
        = Return (keys d, values d)).
Proof.
  apply (degree_distribution_normalised
           (RandomNetwork.Build_t 5 (1 # 2) path5)).
  - reflexivity.
  - discriminate.
Defined.

(** ** One component exactly when connected *)

Lemma connected_single_component (G : Graph) :
  wf G -> connected G ->
  exists c, connected_components G = [c] /\ len c = number_of_nodes G.
Proof.
  intros Hwf [Hne Hconn].
  destruct (connected_components_partitions G Hwf)
    as (Hdisj & Hall & Hcover & Hclass & Hsum).
  pose proof (connected_components_nonempty G Hne) as Hcs.
  destruct (connected_components G) as [|c [|c2 rest]]; [congruence| |].
  - exists c. split; [reflexivity|]. simpl in Hsum. lia.
  - exfalso.
    inversion Hall as [|? ? [_ Hc] Hall']; subst.
    inversion Hall' as [|? ? [_ Hc2] _]; subst.
    destruct c as [|u c]; [congruence|].
    destruct c2 as [|v c2]; [congruence|].
    inversion Hdisj as [|? ? Hd _]; subst.
    inversion Hd as [|? ? Hd1 _]; subst.
    apply (Hd1 v); [|now left].
    apply (Hclass (u :: c) u); [now left | now left|].
    apply Hconn; apply Hcover.
    + exists (u :: c). split; now left.
    + exists (v :: c2). split; [right; now left | now left].
Qed.

Lemma single_component_connected (G : Graph) (c : list node) :
  wf G -> connected_components G = [c] -> connected G.
Proof.
  intros Hwf E.
  destruct (connected_components_partitions G Hwf)
    as (_ & _ & Hcover & Hclass & _).
  rewrite E in Hcover, Hclass. split.
  - intros ->. discriminate.
  - intros u v Hu Hv.
    apply Hcover in Hu, Hv.
    destruct Hu as [cu [[<- | []] Hu]]. destruct Hv as [cv [[<- | []] Hv]].
    apply (Hclass c u); [now left | assumption | assumption].
Qed.

Lemma sizes_at_least_one (cs : list (list node)) :
  Forall (fun c => NoDup c /\ c <> []) cs ->
  Z.of_nat (length cs) <= sumZ (map (fun c => len c) cs).
Proof.
  induction 1 as [|c cs [_ Hc] _ IH]; simpl; [lia|].
  unfold len at 1. destruct c; [congruence | simpl length; lia].
Qed.

(** X11: on a well-formed graph with at least one node, the first value
    returned by [get_component_sizes] of components.py lies in (0, 1],
    and it is 1 exactly when the graph is connected; in that case the
    second value, the mean size of the other components, is NaN. *)
Theorem giant_fraction_one_iff_connected (G : Graph) :
  wf G -> G <> [] ->
  exists (giant : Q) (mean : pyfloat),
    Robustness.get_component_sizes G = Return (giant, mean) /\
    (0 < giant)%Q /\ (giant <= 1)%Q /\
    ((giant == 1)%Q <-> connected G) /\
    (connected G -> mean = NaN).
Proof.
  intros Hwf HG.
  destruct (connected_components_partitions G Hwf)
    as (Hdisj & Hall & Hcover & Hclass & Hsum).
  pose proof (connected_components_nonempty G HG) as Hcs.
  assert (Hn : 0 < number_of_nodes G).
  { unfold number_of_nodes. destruct G; [congruence | simpl; lia]. }
  unfold Robustness.get_component_sizes.
  set (cs := connected_components G) in *.
  pose proof (sorted_rev_perm (fun c => len c) cs) as Hperm.
  destruct (Py.sorted_rev (fun c => len c) cs) as [|c rest] eqn:Es.
  { symmetry in Hperm. apply Permutation_nil in Hperm. congruence. }
  assert (Hlen : (0 <? len (c :: rest)) = true).
  { apply Z.ltb_lt. unfold len. simpl. lia. }
  rewrite Hlen. cbn [hd tl]. unfold truediv.
  destruct (Z.eqb_spec (number_of_nodes G) 0); [lia|].
  destruct (Z.ltb_spec 0 (number_of_nodes G)); [|lia].
  cbn [bind].
  assert (Hall' : Forall (fun c => NoDup c /\ c <> []) (c :: rest)).
  { rewrite Forall_forall in *. intros x Hx. apply Hall.
    eapply Permutation_in; [symmetry; exact Hperm | exact Hx]. }
  assert (Hsum' : len c + sumZ (map (fun c => len c) rest)
                  = number_of_nodes G).
  { rewrite <- Hsum, (sumZ_perm _ _ (Permutation_map _ Hperm)).
    reflexivity. }
  inversion Hall' as [|? ? [_ Hc] Hrest]; subst.
  pose proof (sizes_at_least_one rest Hrest) as Hr.
  assert (Hc1 : 1 <= len c).
  { unfold len. destruct c; [congruence | simpl length; lia]. }
  assert (Hone : len c = number_of_nodes G <-> rest = []).
  { split.
    - intros E. destruct rest; [reflexivity | simpl length in Hr; lia].
    - intros ->. simpl in Hsum'. lia. }
  assert (Hconn : rest = [] <-> connected G).
  { split.
    - intros ->. apply (single_component_connected G c Hwf).
      symmetry in Hperm. apply Permutation_length_1_inv in Hperm.
      exact Hperm.
    - intros Hco.
      destruct (connected_single_component G Hwf Hco) as [c0 [E _]].
      fold cs in E. rewrite E in Hperm.
      apply Permutation_length in Hperm. simpl in Hperm.
      destruct rest; [reflexivity | simpl in Hperm; lia]. }
  exists (len c # Z.to_pos (number_of_nodes G))%Q,
         (np_mean (map (fun component => len component) rest)).
  split; [reflexivity|].
  split; [unfold Qlt; cbn [Qnum Qden]; lia|].
  split; [unfold Qle; cbn [Qnum Qden]; rewrite Z2Pos.id by lia; lia|].
  split.
  - rewrite <- Hconn, <- Hone. unfold Qeq. cbn [Qnum Qden].
    rewrite Z2Pos.id by lia. lia.
  - intros Hco. apply Hconn in Hco. subst rest. reflexivity.
Qed.

Lemma giant_fraction_one_iff_connected_witness :
  exists (giant : Q) (mean : pyfloat),
    Robustness.get_component_sizes cycle6 = Return (giant, mean) /\
    (0 < giant)%Q /\ (giant <= 1)%Q /\
    ((giant == 1)%Q <-> connected cycle6) /\
    (connected cycle6 -> mean = NaN).
Proof.
  apply (giant_fraction_one_iff_connected cycle6).
  - apply wf_check_sound. reflexivity.
  - discriminate.
Defined.

(** ** The largest component as a graph *)

Lemma max_by_len_spec (cs : list (list node)) : forall best,
  In (Diam.max_by_len best cs) (best :: cs) /\
  forall c, In c (best :: cs) -> len c <= len (Diam.max_by_len best cs).
Proof.
  induction cs as [|c0 cs IH]; intros best; cbn [Diam.max_by_len].
  - split; [now left|]. intros c [<- | []]. lia.
  - destruct (Z.ltb_spec (len best) (len c0)) as [Hlt|Hge].
    + destruct (IH c0) as [I1 I2]. split.
      * right. exact I1.
      * intros c [<- | Hc]; [|now apply I2].
        specialize (I2 c0 (or_introl eq_refl)). lia.
    + destruct (IH best) as [I1 I2]. split.
      * destruct I1 as [I1 | I1]; [now left | right; now right].
      * intros c [<- | [<- | Hc]].
        -- apply I2. now left.
        -- specialize (I2 best (or_introl eq_refl)). lia.
        -- apply I2. now right.
Qed.

(** Keeping the nodes of [c] is deleting all the others. *)
Lemma subgraph_as_removal (G : Graph) (c : list node) :
  Diam.subgraph G c
  = remove_nodes_from G
      (filter (fun v => negb (mem v c)) (nodes G ++ flat_map snd G)).
Proof.
  set (U := nodes G ++ flat_map snd G).
  set (vs := filter (fun v => negb (mem v c)) U).
  assert (Hkey : forall x, In x U -> mem x c = negb (mem x vs)).
  { intros x Hx. destruct (mem x c) eqn:E.
    - symmetry. apply negb_true_iff, mem_false. unfold vs.
      rewrite filter_In, E. simpl. intros [_ H]. discriminate.
    - symmetry. apply negb_false_iff, mem_In. unfold vs.
      rewrite filter_In, E. now split. }
  rewrite remove_nodes_from_spec. unfold Diam.subgraph.
  rewrite (filter_ext_in (fun e => mem (fst e) c)
                         (fun e => negb (mem (fst e) vs))).
  - apply map_ext_in. intros e He. apply filter_In in He.
    destruct He as [He _]. f_equal.
    apply filter_ext_in. intros w Hw. apply Hkey. unfold U.
    apply in_or_app. right. apply in_flat_map. now exists e.
  - intros e He. apply Hkey. unfold U. apply in_or_app. left.
    unfold nodes. now apply in_map.
Qed.

Lemma subgraph_component (G : Graph) (c : list node) (u0 : node) :
  wf G -> NoDup c -> In u0 c ->
  (forall v, In v c <-> reach G u0 v) ->
  In u0 (nodes G) ->
  let H := Diam.subgraph G c in
  wf H /\ (forall x, In x (nodes H) <-> In x c) /\
  (forall u v, In u (nodes H) -> (edge H u v <-> edge G u v)) /\
  connected H /\ number_of_nodes H = len c.
Proof.
  intros Hwf Hndc Hu0 Hclass Hu0G H.
  assert (HcG : forall x, In x c -> In x (nodes G)).
  { intros x Hx. apply Hclass in Hx. eapply reach_nodes; eauto. }
  assert (Hclosed : forall x y, In x c -> edge G x y -> In y c).
  { intros x y Hx Hxy. apply Hclass. apply Hclass in Hx.
    eapply reach_step; eauto. }
  unfold H. rewrite subgraph_as_removal.
  set (vs := filter (fun v => negb (mem v c))
                    (nodes G ++ flat_map snd G)).
  destruct (remove_nodes_from_induced G vs) as (Hn & Ha & _).
  assert (Hvs : forall x, In x c -> ~ In x vs).
  { intros x Hx Hin. unfold vs in Hin. apply filter_In in Hin.
    destruct Hin as [_ Hin]. apply mem_In in Hx. rewrite Hx in Hin.
    discriminate. }
  assert (Hvs' : forall x, In x (nodes G) -> ~ In x vs -> In x c).
  { intros x Hx Hnot. destruct (mem x c) eqn:E; [now apply mem_In|].
    exfalso. apply Hnot. unfold vs. apply filter_In.
    split; [apply in_or_app; now left | now rewrite E]. }
  assert (Hnodes : forall x, In x (nodes (remove_nodes_from G vs))
                             <-> In x c).
  { intros x. rewrite Hn. split.
    - intros [Hx Hnot]. now apply Hvs'.
    - intros Hx. split; [now apply HcG | now apply Hvs]. }
  assert (Hedge : forall u v, In u c ->
             (edge (remove_nodes_from G vs) u v <-> edge G u v)).
  { intros u v Hu. unfold edge. rewrite Ha. split; [tauto|].
    intros He. split; [assumption|]. split; [now apply Hvs|].
    apply Hvs. eapply Hclosed; eauto. }
  pose proof (wf_remove_nodes_from G vs Hwf) as HwfH.
  split; [assumption|]. split; [assumption|].
  split; [intros u v Hu; apply Hedge; now apply Hnodes|].
  split.
  - assert (Hin : forall u v, reach G u v -> In u c ->
                              reach (remove_nodes_from G vs) u v).
    { intros u v Huv. apply clos_rt_rt1n in Huv.
      induction Huv as [x | x y z Hxy _ IH]; intros Hx.
      - apply rt_refl.
      - eapply rt_trans.
        + apply rt_step. apply Hedge; eauto.
        + apply IH. eapply Hclosed; eauto. }
    split.
    + intros E. assert (Hx : In u0 (nodes (remove_nodes_from G vs)))
        by now apply Hnodes.
      rewrite E in Hx. destruct Hx.
    + intros u v Hu Hv. apply Hnodes in Hu, Hv.
      apply Hin; [|assumption].
      eapply rt_trans; [apply (reach_sym G Hwf); now apply Hclass|].
      now apply Hclass.
  - rewrite number_of_nodes_nodes. unfold len. f_equal.
    apply Permutation_length. apply NoDup_Permutation.
    + apply (wf_keys _ HwfH).
    + assumption.
    + exact Hnodes.
Qed.

(** X12: on a well-formed graph with at least one node,
    [get_largest_component] returns a well-formed, connected graph with
    exactly one component: the subgraph induced by a component of
    maximal size, with the edges its nodes had. On the graph without
    nodes it returns the graph itself, and only then does [diameter]
    answer 0 without calling the diameter routine. *)
Theorem largest_component_connected (G : Graph) :
  wf G -> G <> [] ->
  let H := Diam.get_largest_component G in
  wf H /\ connected H /\ number_connected_components H = 1 /\
  (exists c, In c (connected_components G) /\
             (forall x, In x (nodes H) <-> In x c) /\
             number_of_nodes H = len c) /\
  (forall c, In c (connected_components G) -> len c <= number_of_nodes H) /\
  (forall u v, In u (nodes H) -> (edge H u v <-> edge G u v)) /\
  (forall max_sweeps s,
      Diam.diameter max_sweeps H s
      = Return (Diam.approx_diameter max_sweeps H s)) /\
  Diam.get_largest_component [] = [] /\
  (forall max_sweeps s,
      Diam.diameter max_sweeps (Diam.get_largest_component []) s
      = Return (0, s)).
Proof.
  intros Hwf HG H.
  destruct (connected_components_partitions G Hwf)
    as (_ & Hall & Hcover & Hclass & _).
  pose proof (connected_components_nonempty G HG) as Hcs.
  unfold H, Diam.get_largest_component, number_connected_components.
  destruct (connected_components G) as [|c0 cs] eqn:Ecs; [congruence|].
  destruct (Z.leb_spec 1 (Z.of_nat (length (c0 :: cs))));
    [|simpl length in *; lia].
  destruct (max_by_len_spec cs c0) as [Hin Hmax].
  set (c := Diam.max_by_len c0 cs) in *.
  rewrite Forall_forall in Hall. destruct (Hall c Hin) as [Hndc Hne].
  destruct c as [|u0 c'] eqn:Ec; [congruence|]. rewrite <- Ec in *.
  assert (Hu0 : In u0 c) by (rewrite Ec; now left).
  assert (Hu0G : In u0 (nodes G)) by (apply Hcover; now exists c).
  destruct (subgraph_component G c u0 Hwf Hndc Hu0 (Hclass c u0 Hin Hu0)
                               Hu0G)
    as (S1 & S2 & S3 & S4 & S5).
  destruct (connected_single_component _ S1 S4) as [c1 [E1 _]].
  assert (Hone : number_connected_components (Diam.subgraph G c) = 1).
  { unfold number_connected_components. now rewrite E1. }
  split; [assumption|]. split; [assumption|]. split; [assumption|].
  split; [exists c; auto|].
  split; [intros c2 Hc2; rewrite S5; now apply Hmax|].
  split; [assumption|]. split.
  { intros max_sweeps s. unfold Diam.diameter. now rewrite Hone. }
  split; reflexivity.
Qed.

Lemma largest_component_connected_witness :
  let H := Diam.get_largest_component (remove_nodes_from cycle6 [0; 2]) in
  wf H /\ connected H /\ number_connected_components H = 1 /\
  (exists c, In c (connected_components (remove_nodes_from cycle6 [0; 2])) /\
             (forall x, In x (nodes H) <-> In x c) /\
             number_of_nodes H = len c) /\
  (forall c, In c (connected_components (remove_nodes_from cycle6 [0; 2])) ->
             len c <= number_of_nodes H) /\
  (forall u v, In u (nodes H) ->
               (edge H u v <-> edge (remove_nodes_from cycle6 [0; 2]) u v)) /\
  (forall max_sweeps s,
      Diam.diameter max_sweeps H s
      = Return (Diam.approx_diameter max_sweeps H s)) /\
  Diam.get_largest_component [] = [] /\
  (forall max_sweeps s,
      Diam.diameter max_sweeps (Diam.get_largest_component []) s
      = Return (0, s)).
Proof.
  apply (largest_component_connected (remove_nodes_from cycle6 [0; 2])).
  - apply wf_check_sound. reflexivity.
  - discriminate.
Defined.

(** ** The robustness experiments *)

Lemma reliable_random (N AVG_K : Z) :
  2 <= N -> 0 <= AVG_K <= N - 1 -> reliable N AVG_K true.
Proof.
  intros HN HK. split; [lia|]. intros s.
  destruct (get_network_random_ok N AVG_K s HN HK)
    as (G & s' & E & Hwf & _ & Hn).
  exists G, s'. split; [assumption|]. split; [assumption|].
  split; [assumption | discriminate].
Qed.

Lemma reliable_scale_free (N AVG_K : Z) :
  1 <= Z.quot AVG_K 2 < N -> reliable N AVG_K false.
Proof.
  intros Hm. split; [lia|]. intros s.
  destruct (barabasi_albert_ok N (Z.quot AVG_K 2) s Hm)
    as (G & s' & E & Hwf & _ & Hnodes & _ & Hgrown).
  exists G, s'. split.
  - unfold get_network, ScaleFreeNetwork_init. rewrite int_half, E.
    reflexivity.
  - split; [assumption|]. split.
    + rewrite number_of_nodes_nodes, Hnodes. unfold range.
      rewrite length_range_from. lia.
    + intros _. apply Hgrown. lia.
Qed.

Lemma prune_returns (targeted : bool) (G : Graph) (f : Q) (s : Rng) :
  exists G' s',
    (if targeted
     then G_pruned <- Removal.targeted_removal G f ;; Return (G_pruned, s)
     else Removal.random_removal G f s) = Return (G', s').
Proof.
  destruct targeted.
  - do 2 eexists. reflexivity.
  - unfold Removal.random_removal. destruct (shuffle (nodes G) s).
    do 2 eexists. reflexivity.
Qed.

Lemma no_nodes_left (G : Graph) : number_of_nodes G = 0 -> G = [].
Proof. unfold number_of_nodes. destruct G; simpl; [reflexivity | lia]. Qed.

Lemma prune_everything (targeted : bool) (G : Graph) (f : Q) (s : Rng) :
  NoDup (nodes G) -> (f == 1)%Q ->
  exists s',
    (if targeted
     then G_pruned <- Removal.targeted_removal G f ;; Return (G_pruned, s)
     else Removal.random_removal G f s) = Return ([], s').
Proof.
  intros Hnd Hf.
  assert (H0 : (0 <= f)%Q) by (rewrite Hf; discriminate).
  assert (H1 : (f <= 1)%Q) by (rewrite Hf; apply Qle_refl).
  assert (Hfl : Qfloor (f * inject_Z (number_of_nodes G))
                = number_of_nodes G).
  { rewrite Hf, Qmult_1_l. apply Qfloor_Z. }
  destruct targeted.
  - destruct (targeted_removal_shape G f Hnd H0 H1)
      as (removed & E & R1 & R2 & R3).
    exists s. rewrite E. cbn [bind]. do 2 f_equal.
    apply no_nodes_left. rewrite (removed_count G removed Hnd R1 R2). lia.
  - destruct (random_removal_shape G f s Hnd H0 H1)
      as (removed & s' & E & R1 & R2 & R3).
    exists s'. rewrite E. do 2 f_equal.
    apply no_nodes_left. rewrite (removed_count G removed Hnd R1 R2). lia.
Qed.

Lemma prune_nothing (targeted : bool) (G : Graph) (f : Q) (s : Rng) :
  (f == 0)%Q ->
  exists s',
    (if targeted
     then G_pruned <- Removal.targeted_removal G f ;; Return (G_pruned, s)
     else Removal.random_removal G f s) = Return (G, s').
Proof.
  intros Hf.
  assert (E : Py.int (f * inject_Z (number_of_nodes G)) = 0).
  { apply int_small; rewrite Hf, Qmult_0_l; reflexivity. }
  destruct targeted.
  - exists s. unfold Removal.targeted_removal. rewrite E. reflexivity.
  - unfold Removal.random_removal. rewrite E.
    destruct (shuffle (nodes G) s) as [nodes1 s1]. exists s1. reflexivity.
Qed.

Lemma get_component_sizes_returns (G : Graph) :
  exists giant mean, Robustness.get_component_sizes G = Return (giant, mean).
Proof.
  unfold Robustness.get_component_sizes.
  pose proof (sorted_rev_perm (fun c => len c) (connected_components G))
    as Hperm.
  destruct (Py.sorted_rev (fun c => len c) (connected_components G))
    as [|c rest].
  - do 2 eexists. reflexivity.
  - assert (HG : G <> []).
    { intros ->. unfold connected_components in Hperm. simpl in Hperm.
      apply Permutation_nil in Hperm. discriminate. }
    assert (Hn : 0 < number_of_nodes G).
    { unfold number_of_nodes. destruct G; [congruence | simpl; lia]. }
    assert (Hlen : (0 <? len (c :: rest)) = true).
    { apply Z.ltb_lt. unfold len. simpl. lia. }
    rewrite Hlen. unfold truediv.
    destruct (Z.eqb_spec (number_of_nodes G) 0); [lia|].
    destruct (Z.ltb_spec 0 (number_of_nodes G)); [|lia].
    do 2 eexists. reflexivity.
Qed.

Lemma get_component_sizes_connected (G : Graph) :
  wf G -> connected G ->
  Robustness.get_component_sizes G
  = Return ((number_of_nodes G # Z.to_pos (number_of_nodes G))%Q, NaN).
Proof.
  intros Hwf Hco.
  destruct (connected_single_component G Hwf Hco) as [c [E Hc]].
  assert (Hn : 0 < number_of_nodes G).
  { destruct Hco as [HG _]. unfold number_of_nodes.
    destruct G; [congruence | simpl; lia]. }
  unfold Robustness.get_component_sizes. rewrite E.
  cbn [Py.sorted_rev fold_right Py.insert_desc hd tl map].
  assert (Hlen : (0 <? len [c]) = true) by reflexivity.
  rewrite Hlen, Hc. unfold truediv.
  destruct (Z.eqb_spec (number_of_nodes G) 0); [lia|].
  destruct (Z.ltb_spec 0 (number_of_nodes G)); [|lia].
  reflexivity.
Qed.

(** Sums and means of lists of floats. *)
Lemma sumF_all (a : Q) (l : list pyfloat) :
  Forall (fun x => exists q, x = Fin q /\ (q == a)%Q) l ->
  exists t, sumF l = Fin t /\ (t == inject_Z (len l) * a)%Q.
Proof.
  induction 1 as [|x l [q [-> Hq]] _ [t [Et Ht]]].
  - exists 0%Q. split; [reflexivity|]. unfold len. simpl.
    now rewrite Qmult_0_l.
  - cbn [sumF]. rewrite Et. exists (q + t)%Q. split; [reflexivity|].
    rewrite (Qplus_comp _ _ Hq _ _ Ht).
    unfold len. cbn [length]. rewrite Nat2Z.inj_succ.
    unfold Z.succ. rewrite inject_Z_plus. ring.
Qed.

Lemma np_mean_float_all (a : Q) (l : list pyfloat) :
  l <> [] ->
  Forall (fun x => exists q, x = Fin q /\ (q == a)%Q) l ->
  exists q, np_mean_float l = Fin q /\ (q == a)%Q.
Proof.
  intros Hne Hall. destruct (sumF_all a l Hall) as [t [Et Ht]].
  destruct l as [|x l]; [congruence|].
  unfold np_mean_float. rewrite Et. eexists. split; [reflexivity|].
  rewrite Ht, Qmult_comm. apply Qdiv_mult_l.
  unfold len, Qeq, inject_Z. cbn [Qnum Qden length]. lia.
Qed.

Lemma np_mean_float_nan (l : list pyfloat) :
  Forall (fun x => x = NaN) l -> np_mean_float l = NaN.
Proof.
  intros H. destruct H as [|x l -> _]; reflexivity.
Qed.

Lemma Forall2_nth_error {A B} (R : A -> B -> Prop) (l : list A) (l' : list B) :
  Forall2 R l l' ->
  forall i a, nth_error l i = Some a ->
              exists b, nth_error l' i = Some b /\ R a b.
Proof.
  induction 1 as [|x y l l' Hxy _ IH]; intros [|i] a; simpl;
    try discriminate.
  - intros E. inversion E; subst. eauto.
  - apply IH.
Qed.

Section ComponentExperiment.

Variables (N AVG_K : Z) (targeted random_net : bool).
Hypothesis Hrel : reliable N AVG_K random_net.

Lemma component_trial (f : Q) (s : Rng) :
  exists net pruned sizes,
    get_network N AVG_K random_net s = Return net /\
    (if targeted
     then G_pruned <- Removal.targeted_removal (fst net) f ;;
          Return (G_pruned, snd net)
     else Removal.random_removal (fst net) f (snd net)) = Return pruned /\
    Robustness.get_component_sizes (fst pruned) = Return sizes /\
    trial_reports N random_net f (fst sizes) (snd sizes).
Proof.
  destruct Hrel as [HN Hnet].
  destruct (Hnet s) as (G & s1 & E & Hwf & Hn & Hco).
  exists (G, s1). cbn [fst snd]. unfold trial_reports.
  assert (H10 : ~ ((1 == 0)%Q)) by discriminate.
  destruct (Qeq_dec f 1) as [H1|H1]; [|destruct (Qeq_dec f 0) as [H0|H0]].
  - destruct (prune_everything targeted G f s1 (wf_keys G Hwf) H1)
      as [s2 Ep].
    exists ([], s2), ((0 # 1)%Q, NaN). cbn [fst snd].
    split; [assumption|]. split; [assumption|]. split; [reflexivity|].
    split; [auto|]. intros H0. exfalso. apply H10. now rewrite <- H1, H0.
  - destruct (prune_nothing targeted G f s1 H0) as [s2 Ep].
    destruct random_net eqn:Ernd.
    + destruct (get_component_sizes_returns G) as (g & m & Eg).
      exists (G, s2), (g, m). cbn [fst snd].
      split; [assumption|]. split; [assumption|]. split; [assumption|].
      split; [intros; contradiction | discriminate].
    + exists (G, s2), ((N # Z.to_pos N)%Q, NaN). cbn [fst snd].
      split; [assumption|]. split; [assumption|]. split.
      * rewrite (get_component_sizes_connected G Hwf (Hco eq_refl)), Hn.
        reflexivity.
      * split; [intros; contradiction | auto].
  - destruct (prune_returns targeted G f s1) as (G' & s2 & Ep).
    destruct (get_component_sizes_returns G') as (g & m & Eg).
    exists (G', s2), (g, m). cbn [fst snd].
    split; [assumption|]. split; [assumption|]. split; [assumption|].
    split; intros; contradiction.
Qed.

Lemma component_trials (f : Q) (k : nat) : forall rel avg s,
  exists rel' avg' s',
    RobustnessExperiment.trials k N AVG_K targeted random_net f rel avg s
    = Return (rel ++ rel', avg ++ avg', s') /\
    length rel' = k /\ length avg' = k /\
    Forall (fun x => exists q, x = Fin q /\
                     ((f == 1)%Q -> q = (0 # 1)%Q) /\
                     ((f == 0)%Q -> random_net = false ->
                      q = (N # Z.to_pos N)%Q)) rel' /\
    Forall (fun y => ((f == 1)%Q -> y = NaN) /\
                     ((f == 0)%Q -> random_net = false -> y = NaN)) avg'.
Proof.
  induction k as [|k IH]; intros rel avg s.
  - exists [], [], s. rewrite !app_nil_r.
    repeat split; constructor.
  - destruct (component_trial f s)
      as (net & pruned & [g m] & E1 & E2 & E3 & Hrep1 & Hrep0).
    cbn [fst snd] in Hrep1, Hrep0.
    destruct (IH (rel ++ [Fin g]) (avg ++ [m]) (snd pruned))
      as (rel' & avg' & s' & Et & L1 & L2 & F1 & F2).
    exists (Fin g :: rel'), (m :: avg'), s'.
    cbn [RobustnessExperiment.trials]. rewrite E1. cbn [bind].
    rewrite E2. cbn [bind]. rewrite E3. cbn [bind fst snd].
    rewrite Et, <- !app_assoc. cbn [app length].
    split; [reflexivity|]. split; [lia|]. split; [lia|]. split.
    + constructor; [|assumption]. exists g. split; [reflexivity|].
      split; [intros H; now apply Hrep1 | intros H H'; now apply Hrep0].
    + constructor; [|assumption].
      split; [intros H; now apply Hrep1 | intros H H'; now apply Hrep0].
Qed.

Lemma component_means (f : Q) (k : nat) (s : Rng) :
  (1 <= k)%nat ->
  exists l1 l2 s',
    RobustnessExperiment.trials k N AVG_K targeted random_net f [] [] s
    = Return (l1, l2, s') /\
    entry_reports random_net f (np_mean_float l1) (np_mean_float l2).
Proof.
  intros Hk. destruct Hrel as [HN _].
  destruct (component_trials f k [] [] s)
    as (l1 & l2 & s' & E & L1 & L2 & F1 & F2).
  exists l1, l2, s'. split; [exact E|].
  assert (Hne : l1 <> []) by (destruct l1; [simpl in L1; lia | discriminate]).
  rewrite Forall_forall in F1, F2.
  split.
  - intros H1. split.
    + apply np_mean_float_all; [assumption|].
      apply Forall_forall. intros x Hx.
      destruct (F1 x Hx) as (q & -> & Hq & _). exists q.
      split; [reflexivity|]. now rewrite (Hq H1).
    + apply np_mean_float_nan. apply Forall_forall. intros y Hy.
      now apply (proj1 (F2 y Hy)).
  - intros H0 Hsf. split.
    + apply np_mean_float_all; [assumption|].
      apply Forall_forall. intros x Hx.
      destruct (F1 x Hx) as (q & -> & _ & Hq). exists q.
      split; [reflexivity|]. rewrite (Hq H0 Hsf).
      unfold Qeq. cbn [Qnum Qden]. rewrite Z2Pos.id by lia. lia.
    + apply np_mean_float_nan. apply Forall_forall. intros y Hy.
      now apply (proj2 (F2 y Hy)).
Qed.

Lemma component_sweep (iterations : Z) (fs : list Q) :
  1 <= iterations ->
  forall rel avg s,
  exists rel' avg' s',
    RobustnessExperiment.sweep fs N AVG_K targeted random_net iterations
                               rel avg s
    = Return (rel ++ rel', avg ++ avg', s') /\
    length rel' = length fs /\ length avg' = length fs /\
    forall i f, nth_error fs i = Some f ->
      exists x y, nth_error rel' i = Some x /\ nth_error avg' i = Some y /\
                  entry_reports random_net f x y.
Proof.
  intros Hit. induction fs as [|f fs IH]; intros rel avg s.
  - exists [], [], s. rewrite !app_nil_r. split; [reflexivity|].
    split; [reflexivity|]. split; [reflexivity|].
    intros [|i] f; discriminate.
  - destruct (component_means f (Z.to_nat iterations) s) as
      (l1 & l2 & s1 & Et & Hrep); [lia|].
    destruct (IH (rel ++ [np_mean_float l1]) (avg ++ [np_mean_float l2]) s1)
      as (rel' & avg' & s' & Es & L1 & L2 & Hent).
    exists (np_mean_float l1 :: rel'), (np_mean_float l2 :: avg'), s'.
    cbn [RobustnessExperiment.sweep]. rewrite Et. cbn [bind fst snd].
    rewrite Es, <- !app_assoc. cbn [app length].
    split; [reflexivity|]. split; [lia|]. split; [lia|].
    intros [|i] f' Hi; cbn [nth_error] in *.
    + inversion Hi; subst. eauto.
    + now apply Hent.
Qed.

End ComponentExperiment.

(** X13: whatever the draws, with at least one iteration and a network
    source that is valid (random: [N >= 2] and [0 <= AVG_K <= N - 1];
    scale-free: [1 <= int(AVG_K / 2) < N]), [run_component_experiment]
    returns thirty values for each curve. At the last fraction, 1, every
    node is removed: the point of the first curve is 0 and the point of
    the second, a mean of NaNs, is NaN. For scale-free networks the first
    fraction, 0, leaves a connected graph: the first curve starts at 1
    and the second one at NaN. *)
Theorem component_experiment_endpoints (N AVG_K : Z)
  (targeted random_net : bool) (iterations : Z) (s : Rng) :
  (if random_net then 2 <= N /\ 0 <= AVG_K <= N - 1
   else 1 <= Z.quot AVG_K 2 < N) ->
  1 <= iterations ->
  exists relative_size avg_size s',
    RobustnessExperiment.run_component_experiment
      N AVG_K targeted random_net iterations s
    = Return (relative_size, avg_size, s') /\
    length relative_size = 30%nat /\ length avg_size = 30%nat /\
    (exists q, nth 29 relative_size NaN = Fin q /\ (q == 0)%Q) /\
    nth 29 avg_size (Fin 0) = NaN /\
    (random_net = false ->
     (exists q, nth 0 relative_size NaN = Fin q /\ (q == 1)%Q) /\
     nth 0 avg_size (Fin 0) = NaN).
Proof.
  intros Hsrc Hit.
  assert (Hrel : reliable N AVG_K random_net).
  { destruct random_net.
    - now apply reliable_random.
    - now apply reliable_scale_free. }
  destruct (component_sweep N AVG_K targeted random_net Hrel iterations
                            linspace_0_1_30 Hit [] [] s)
    as (rel & avg & s' & E & L1 & L2 & Hent).
  exists rel, avg, s'. split; [exact E|].
  split; [exact L1|]. split; [exact L2|].
  destruct (Hent 29%nat (29 # 29)%Q eq_refl) as (x & y & Ex & Ey & Hlast & _).
  destruct (Hent 0%nat (0 # 29)%Q eq_refl) as (x0 & y0 & Ex0 & Ey0 & _ & Hfirst).
  destruct (Hlast eq_refl) as [Hx Hy].
  split; [now rewrite (nth_error_nth _ _ _ Ex)|].
  split; [now rewrite (nth_error_nth _ _ _ Ey)|].
  intros Hsf. destruct (Hfirst eq_refl Hsf) as [Hx0 Hy0].
  split; [now rewrite (nth_error_nth _ _ _ Ex0)|].
  now rewrite (nth_error_nth _ _ _ Ey0).
Qed.

Lemma component_experiment_endpoints_witness :
  exists relative_size avg_size s',
    RobustnessExperiment.run_component_experiment 6 4 true false 2 [3; 5; 1]
    = Return (relative_size, avg_size, s') /\
    length relative_size = 30%nat /\ length avg_size = 30%nat /\
    (exists q, nth 29 relative_size NaN = Fin q /\ (q == 0)%Q) /\
    nth 29 avg_size (Fin 0) = NaN /\
    (false = false ->
     (exists q, nth 0 relative_size NaN = Fin q /\ (q == 1)%Q) /\
     nth 0 avg_size (Fin 0) = NaN).
Proof.
  apply (component_experiment_endpoints 6 4 true false 2 [3; 5; 1]).
  - change (1 <= 2 < 6). lia.
  - lia.
Defined.

Section DiameterExperimentFacts.

Variables (max_sweeps : nat) (N AVG_K : Z) (targeted random_net : bool).
Hypothesis Hrel : reliable N AVG_K random_net.

Lemma diameter_trial (f : Q) (s : Rng) :
  exists net pruned d,
    get_network N AVG_K random_net s = Return net /\
    (if targeted
     then G_pruned <- Removal.targeted_removal (fst net) f ;;
          Return (G_pruned, snd net)
     else Removal.random_removal (fst net) f (snd net)) = Return pruned /\
    Diam.diameter max_sweeps (Diam.get_largest_component (fst pruned))
                  (snd pruned) = Return d /\
    ((f == 1)%Q -> fst d = 0).
Proof.
  destruct Hrel as [HN Hnet].
  destruct (Hnet s) as (G & s1 & E & Hwf & Hn & Hco).
  exists (G, s1). cbn [fst snd].
  destruct (Qeq_dec f 1) as [H1|H1].
  - destruct (prune_everything targeted G f s1 (wf_keys G Hwf) H1)
      as [s2 Ep].
    exists ([], s2), (0, s2). cbn [fst snd].
    split; [assumption|]. split; [assumption|]. split; reflexivity.
  - destruct (prune_returns targeted G f s1) as (G' & s2 & Ep).
    exists (G', s2). cbn [fst snd]. unfold Diam.diameter.
    destruct (number_connected_components (Diam.get_largest_component G')
              =? 0); eexists;
      (split; [eassumption|]; split; [eassumption|];
       split; [reflexivity | intros; contradiction]).
Qed.

Lemma diameter_trials (f : Q) (k : nat) : forall temp s,
  exists l s',
    DiameterExperiment.trials k max_sweeps N AVG_K targeted random_net f
                              temp s
    = Return (temp ++ l, s') /\
    length l = k /\ Forall (fun x => (f == 1)%Q -> x = 0) l.
Proof.
  induction k as [|k IH]; intros temp s.
  - exists [], s. rewrite app_nil_r. repeat split; constructor.
  - destruct (diameter_trial f s) as (net & pruned & d & E1 & E2 & E3 & Hd).
    destruct (IH (temp ++ [fst d]) (snd d)) as (l & s' & Et & L & F).
    exists (fst d :: l), s'.
    cbn [DiameterExperiment.trials]. rewrite E1. cbn [bind].
    rewrite E2. cbn [bind]. rewrite E3. cbn [bind].
    rewrite Et, <- app_assoc. cbn [app length].
    split; [reflexivity|]. split; [lia|]. now constructor.
Qed.

Lemma diameter_sweep (iterations : Z) (fs : list Q) :
  1 <= iterations ->
  forall diameters s,
  exists ds s',
    DiameterExperiment.sweep fs max_sweeps N AVG_K targeted random_net
                             iterations diameters s
    = Return (diameters ++ ds, s') /\
    length ds = length fs /\
    forall i f, nth_error fs i = Some f ->
      exists q, nth_error ds i = Some (Fin q) /\
                ((f == 1)%Q -> (q == 0)%Q).
Proof.
  intros Hit. induction fs as [|f fs IH]; intros diameters s.
  - exists [], s. rewrite app_nil_r. split; [reflexivity|].
    split; [reflexivity|]. intros [|i] f; discriminate.
  - destruct (diameter_trials f (Z.to_nat iterations) [] s)
      as (l & s1 & Et & L & F).
    destruct (IH (diameters ++ [np_mean l]) s1) as (ds & s' & Es & Ld & Hent).
    exists (np_mean l :: ds), s'.
    cbn [DiameterExperiment.sweep]. rewrite Et. cbn [bind fst snd app].
    rewrite Es, <- app_assoc. cbn [app length].
    split; [reflexivity|]. split; [lia|].
    intros [|i] f' Hi; cbn [nth_error] in *; [|now apply Hent].
    inversion Hi; subst f'.
    destruct l as [|x l]; [simpl in L; lia|].
    unfold np_mean. eexists. split; [reflexivity|].
    intros H1. rewrite Forall_forall in F.
    assert (Hz : sumZ (x :: l) = 0).
    { clear - F H1. induction (x :: l) as [|y l' IHl]; [reflexivity|].
      simpl. rewrite (F y (or_introl eq_refl) H1).
      rewrite IHl; [reflexivity|]. intros z Hz. apply F. now right. }
    rewrite Hz. reflexivity.
Qed.

End DiameterExperimentFacts.

(** X14: whatever the draws and the bound of the diameter routine, with
    at least one iteration and a valid network source,
    [run_diameter_robustness_experiment] returns thirty means, none of
    them NaN; the last one, for the fraction 1 at which no node is left,
    is 0: [get_largest_component] hands the empty graph through and
    [diameter] answers 0 for it. *)
Theorem diameter_experiment_endpoints (max_sweeps : nat) (N AVG_K : Z)
  (targeted random_net : bool) (iterations : Z) (s : Rng) :
  (if random_net then 2 <= N /\ 0 <= AVG_K <= N - 1
   else 1 <= Z.quot AVG_K 2 < N) ->
  1 <= iterations ->
  exists diameters s',
    DiameterExperiment.run_diameter_robustness_experiment
      max_sweeps N AVG_K targeted random_net iterations s
    = Return (diameters, s') /\
    length diameters = 30%nat /\
    Forall (fun x => exists q, x = Fin q) diameters /\
    exists q, nth 29 diameters NaN = Fin q /\ (q == 0)%Q.
Proof.
  intros Hsrc Hit.
  assert (Hrel : reliable N AVG_K random_net).
  { destruct random_net.
    - now apply reliable_random.
    - now apply reliable_scale_free. }
  destruct (diameter_sweep max_sweeps N AVG_K targeted random_net Hrel
                           iterations linspace_0_1_30 Hit [] s)
    as (ds & s' & E & L & Hent).
  exists ds, s'. split; [exact E|]. split; [exact L|]. split.
  - apply Forall_forall. intros x Hx.
    apply In_nth_error in Hx. destruct Hx as [i Hi].
    assert (Hlt : (i < length linspace_0_1_30)%nat).
    { rewrite <- L. apply nth_error_Some. congruence. }
    apply nth_error_Some in Hlt.
    destruct (nth_error linspace_0_1_30 i) as [f|] eqn:Ef; [|congruence].
    destruct (Hent i f Ef) as (q & Eq & _).
    exists q. congruence.
  - destruct (Hent 29%nat (29 # 29)%Q eq_refl) as (q & Eq & Hq).
    exists q. split; [now rewrite (nth_error_nth _ _ _ Eq)|].
    now apply Hq.
Qed.

Lemma diameter_experiment_endpoints_witness :
  exists diameters s',
    DiameterExperiment.run_diameter_robustness_experiment
      2 6 3 false true 2 [3; 5; 1]
    = Return (diameters, s') /\
    length diameters = 30%nat /\
    Forall (fun x => exists q, x = Fin q) diameters /\
    exists q, nth 29 diameters NaN = Fin q /\ (q == 0)%Q.
Proof.
  apply (diameter_experiment_endpoints 2 6 3 false true 2 [3; 5; 1]).
  - simpl. lia.
  - lia.
Defined.

(** ** When the scale-free constructor fails *)

(** X15: the constructor of the scale-free class fails exactly when the
    attachment parameter it derives, [m = int(avg_degree / 2)], is below
    1 or not below [n]; the failure is an InvalidParameter of the
    generator, and in every other case a network is returned whose
    attribute [m] is that value. In particular every [avg_degree] below
    2 fails. *)
Theorem scale_free_constructor_failure (n : Z) (avg_degree : Q) (s : Rng) :
  let m := Py.int (avg_degree / (2 # 1)) in
  (m < 1 \/ n <= m ->
   ScaleFreeNetwork_init n avg_degree s = Raise InvalidParameter) /\
  (1 <= m < n ->
   exists net s', ScaleFreeNetwork_init n avg_degree s = Return (net, s') /\
                  ScaleFreeNetwork.m net = m /\
                  ScaleFreeNetwork.n net = n) /\
  ((avg_degree < 2 # 1)%Q -> m < 1).
Proof.
  intros m. split; [|split].
  - intros H. unfold ScaleFreeNetwork_init, barabasi_albert. fold m.
    assert (E : (m <? 1) || (n <=? m) = true).
    { apply orb_true_iff. destruct H; [left; now apply Z.ltb_lt
                                       | right; now apply Z.leb_le]. }
    rewrite E. reflexivity.
  - intros H.
    destruct (barabasi_albert_ok n m s H) as (G & s' & E & _).
    exists (ScaleFreeNetwork.Build_t n avg_degree m G), s'.
    unfold ScaleFreeNetwork_init. fold m. rewrite E.
    split; [reflexivity|]. split; reflexivity.
  - intros Hlt. unfold m, Py.int.
    assert (Hhalf : (avg_degree / (2 # 1) < 1)%Q).
    { revert Hlt. destruct avg_degree as [a b].
      unfold Qlt, Qdiv, Qmult, Qinv. cbn [Qnum Qden].
      rewrite Pos2Z.inj_mul. lia. }
    destruct (Qle_bool 0 (avg_degree / (2 # 1))) eqn:E.
    + pose proof (Qfloor_le (avg_degree / (2 # 1))) as H1.
      assert (H2 : (inject_Z (Qfloor (avg_degree / (2 # 1))) < inject_Z 1)%Q)
        by (eapply Qle_lt_trans; eauto).
      apply Qlt_inject_Z in H2. exact H2.
    + assert (Hx : (avg_degree / (2 # 1) < 0)%Q).
      { apply Qnot_le_lt. intros H. apply Qle_bool_iff in H. congruence. }
      pose proof (Qceiling_lt (avg_degree / (2 # 1))) as H2.
      assert (H3 : (inject_Z (Qceiling (avg_degree / (2 # 1)) - 1)
                    < inject_Z 0)%Q)
        by (eapply Qlt_trans; eauto).
      apply Qlt_inject_Z in H3. lia.
Qed.

(** ** The histograms of the component-size experiment *)

Lemma component_sizes_bounded (G : Graph) :
  wf G ->
  Forall (fun x => 1 <= x <= number_of_nodes G)
         (ClusterSizes.get_component_sizes G).
Proof.
  intros Hwf.
  destruct (connected_components_partitions G Hwf)
    as (_ & Hall & Hcover & _ & _).
  unfold ClusterSizes.get_component_sizes.
  rewrite Forall_forall in *. intros x Hx.
  apply in_map_iff in Hx. destruct Hx as [c [<- Hc]].
  destruct (Hall c Hc) as [Hnd Hne]. split.
  - unfold len. destruct c; [congruence | simpl length; lia].
  - rewrite number_of_nodes_nodes. unfold len.
    apply inj_le. apply NoDup_incl_length; [assumption|].
    intros y Hy. apply Hcover. now exists c.
Qed.

Lemma prune_shrinks (targeted : bool) (G : Graph) (f : Q) (s : Rng) :
  wf G ->
  exists G' s',
    (if targeted
     then G_pruned <- Removal.targeted_removal G f ;; Return (G_pruned, s)
     else Removal.random_removal G f s) = Return (G', s') /\
    wf G' /\ number_of_nodes G' <= number_of_nodes G.
Proof.
  intros Hwf.
  assert (H : forall vs, wf (remove_nodes_from G vs) /\
                         number_of_nodes (remove_nodes_from G vs)
                         <= number_of_nodes G).
  { intros vs. split; [now apply wf_remove_nodes_from|].
    rewrite !number_of_nodes_nodes, nodes_remove_nodes_from.
    apply inj_le. apply filter_length_le. }
  destruct targeted.
  - do 2 eexists. split; [reflexivity | apply H].
  - unfold Removal.random_removal. destruct (shuffle (nodes G) s).
    do 2 eexists. split; [reflexivity | apply H].
Qed.

Lemma size_trials (N AVG_K : Z) (targeted random_net : bool) (f : Q) :
  reliable N AVG_K random_net ->
  forall (k : nat) temp s,
  exists l s',
    Experiment.trials k N AVG_K targeted random_net f temp s
    = Return (temp ++ l, s') /\
    Forall (fun x => 1 <= x <= N) l /\ (k = 0%nat -> l = []).
Proof.
  intros [HN Hnet]. induction k as [|k IH]; intros temp s.
  - exists [], s. rewrite app_nil_r. repeat split. constructor.
  - destruct (Hnet s) as (G & s1 & E & Hwf & Hn & _).
    destruct (prune_shrinks targeted G f s1 Hwf)
      as (G' & s2 & Ep & Hwf' & Hle).
    destruct (IH (temp ++ ClusterSizes.get_component_sizes G') s2)
      as (l & s' & Et & F & _).
    exists (ClusterSizes.get_component_sizes G' ++ l), s'.
    cbn [Experiment.trials]. rewrite E. cbn [bind fst snd].
    rewrite Ep. cbn [bind fst snd]. rewrite Et, <- app_assoc.
    split; [reflexivity|]. split; [|discriminate].
    apply Forall_app. split; [|assumption].
    eapply Forall_impl; [|apply (component_sizes_bounded G' Hwf')].
    intros x Hx. cbv beta in Hx. lia.
Qed.

Lemma size_sweep (N AVG_K : Z) (targeted random_net : bool) (iterations : Z) :
  reliable N AVG_K random_net ->
  forall (fs : list Q) size s,
  exists hs s',
    Experiment.sweep fs N AVG_K targeted random_net iterations size s
    = Return (size ++ hs, s') /\
    length hs = length fs /\
    Forall (fun h => NoDup (keys h) /\
                     (forall k c, In (k, c) h -> 1 <= k <= N /\ 1 <= c) /\
                     (iterations <= 0 -> h = [])) hs.
Proof.
  intros Hrel. induction fs as [|f fs IH]; intros size s.
  - exists [], s. rewrite app_nil_r. repeat split. constructor.
  - destruct (size_trials N AVG_K targeted random_net f Hrel
                          (Z.to_nat iterations) [] s)
      as (l & s1 & Et & F & Hzero).
    destruct (IH (size ++ [Counter l]) s1) as (hs & s' & Es & L & Fh).
    exists (Counter l :: hs), s'.
    cbn [Experiment.sweep]. rewrite Et. cbn [bind fst snd app].
    rewrite Es, <- app_assoc. cbn [app length].
    split; [reflexivity|]. split; [lia|].
    constructor; [|assumption].
    destruct (Counter_spec l) as (C1 & C2 & C3).
    split; [assumption|]. split.
    + intros k c Hin.
      assert (Hk : In k l).
      { apply C3. change k with (fst (k, c)). unfold keys.
        now apply in_map. }
      rewrite Forall_forall in F. split; [now apply F|].
      rewrite <- (count_of_entry _ k c C1 Hin), C2. unfold occurrences.
      clear - Hk. induction l as [|x l IHl]; [destruct Hk|].
      cbn [filter]. destruct (Z.eqb_spec x k); [cbn [length]; lia|].
      destruct Hk as [Hk|Hk]; [congruence|]. now apply IHl.
    + intros Hit. rewrite Hzero by lia. reflexivity.
Qed.

(** X16: with a valid network source, [run_component_sizes_experiment]
    returns, whatever the draws and the strategy, exactly three
    histograms (one per fraction); in each the sizes are distinct keys
    between 1 and [N] and every count is at least 1. Without iterations
    the three histograms are empty. *)
Theorem component_size_histograms (N AVG_K : Z) (targeted random_net : bool)
  (iterations : Z) (s : Rng) :
  (if random_net then 2 <= N /\ 0 <= AVG_K <= N - 1
   else 1 <= Z.quot AVG_K 2 < N) ->
  exists h1 h2 h3 s',
    Experiment.run_component_sizes_experiment
      N AVG_K targeted random_net iterations s
    = Return ([h1; h2; h3], s') /\
    Forall (fun h => NoDup (keys h) /\
                     (forall k c, In (k, c) h -> 1 <= k <= N /\ 1 <= c) /\
                     (iterations <= 0 -> h = [])) [h1; h2; h3].
Proof.
  intros Hsrc.
  assert (Hrel : reliable N AVG_K random_net).
  { destruct random_net.
    - now apply reliable_random.
    - now apply reliable_scale_free. }
  destruct (size_sweep N AVG_K targeted random_net iterations Hrel
                       Experiment.fractions [] s)
    as (hs & s' & E & L & F).
  destruct hs as [|h1 [|h2 [|h3 [|h4 hs]]]]; try discriminate.
  exists h1, h2, h3, s'. split; [exact E | exact F].
Qed.

Lemma component_size_histograms_witness :
  exists h1 h2 h3 s',
    Experiment.run_component_sizes_experiment 6 4 true false 2 [3; 5; 1]
    = Return ([h1; h2; h3], s') /\
    Forall (fun h => NoDup (keys h) /\
                     (forall k c, In (k, c) h -> 1 <= k <= 6 /\ 1 <= c) /\
                     (2 <= 0 -> h = [])) [h1; h2; h3].
Proof.
  apply (component_size_histograms 6 4 true false 2 [3; 5; 1]).
  change (1 <= 2 < 6). lia.
Defined.

(** ** The normalisation of the main program of cluster_dist.py *)

Lemma sumZ_bounds (l : list Z) :
  Forall (fun c => 1 <= c) l ->
  Z.of_nat (length l) <= sumZ l /\ forall c, In c l -> c <= sumZ l.
Proof.
  induction 1 as [|x l Hx _ [IH1 IH2]]; simpl.
  - split; [lia | intros c []].
  - fold (sumZ l). split; [lia|].
    intros c [<- | Hc]; [lia|]. specialize (IH2 c Hc). lia.
Qed.

Lemma normalized_counts_ok (h : list (Z * Z)) :
  (forall k c, In (k, c) h -> 1 <= c) ->
  exists counts,
    normalized_counts h = Return (keys h, counts) /\
    length counts = length h /\
    (h <> [] -> (sumQ counts == 1)%Q) /\
    Forall (fun q => (0 < q)%Q /\ (q <= 1)%Q) counts.
Proof.
  intros Hpos. unfold normalized_counts.
  destruct h as [|[k0 c0] h'] eqn:Eh.
  - exists []. split; [reflexivity|]. split; [reflexivity|].
    split; [congruence | constructor].
  - rewrite <- Eh in *.
    assert (Hall : Forall (fun c => 1 <= c) (values h)).
    { apply Forall_forall. intros c Hc. unfold values in Hc.
      apply in_map_iff in Hc. destruct Hc as [[k c'] [<- Hin]].
      now apply (Hpos k c'). }
    destruct (sumZ_bounds _ Hall) as [Hlen Hle].
    assert (Htot : 0 < sumZ (values h)).
    { unfold values in Hlen. rewrite length_map, Eh in Hlen.
      simpl length in Hlen. rewrite Eh. unfold values. lia. }
    rewrite (normalized_list_pos _ _ Htot). cbn [bind].
    eexists. split; [reflexivity|].
    split; [unfold values; now rewrite !length_map|]. split.
    + intros _. rewrite sumQ_scaled. unfold Qeq. cbn [Qnum Qden].
      rewrite Z2Pos.id by lia. lia.
    + apply Forall_forall. intros q Hq. apply in_map_iff in Hq.
      destruct Hq as [c [<- Hc]].
      rewrite Forall_forall in Hall. specialize (Hall c Hc).
      specialize (Hle c Hc). unfold Qlt, Qle. cbn [Qnum Qden].
      rewrite Z2Pos.id by lia. lia.
Qed.

(** X17: the normalisation of the main program of cluster_dist.py never
    divides by zero on the histograms the experiment returns: for a
    valid network source, every draw sequence and any number of
    iterations, each of the three histograms is turned into as many
    points as it has sizes, every height in (0, 1], and the heights of a
    non-empty histogram sum to 1 (an empty one gives no point). *)
Theorem histogram_normalisation_defined (N AVG_K : Z)
  (targeted random_net : bool) (iterations : Z) (s : Rng) :
  (if random_net then 2 <= N /\ 0 <= AVG_K <= N - 1
   else 1 <= Z.quot AVG_K 2 < N) ->
  exists h1 h2 h3 s',
    Experiment.run_component_sizes_experiment
      N AVG_K targeted random_net iterations s
    = Return ([h1; h2; h3], s') /\
    Forall (fun h => exists counts,
                normalized_counts h = Return (keys h, counts) /\
                length counts = length h /\
                (h <> [] -> (sumQ counts == 1)%Q) /\
                Forall (fun q => (0 < q)%Q /\ (q <= 1)%Q) counts)
           [h1; h2; h3].
Proof.
  intros Hsrc.
  assert (Hrel : reliable N AVG_K random_net).
  { destruct random_net.
    - now apply reliable_random.
    - now apply reliable_scale_free. }
  destruct (size_sweep N AVG_K targeted random_net iterations Hrel
                       Experiment.fractions [] s)
    as (hs & s' & E & L & F).
  destruct hs as [|h1 [|h2 [|h3 [|h4 hs]]]]; try discriminate.
  exists h1, h2, h3, s'. split; [exact E|].
  eapply Forall_impl; [|exact F].
  intros h (_ & Hh & _). apply normalized_counts_ok.
  intros k c Hin. now apply (Hh k c).
Qed.

Lemma histogram_normalisation_defined_witness :
  exists h1 h2 h3 s',
    Experiment.run_component_sizes_experiment 6 4 false false 2 [3; 5; 1]
    = Return ([h1; h2; h3], s') /\
    Forall (fun h => exists counts,
                normalized_counts h = Return (keys h, counts) /\
                length counts = length h /\
                (h <> [] -> (sumQ counts == 1)%Q) /\
                Forall (fun q => (0 < q)%Q /\ (q <= 1)%Q) counts)
           [h1; h2; h3].
Proof.
  apply (histogram_normalisation_defined 6 4 false false 2 [3; 5; 1]).
  change (1 <= 2 < 6). lia.
Defined.
